(** * mywoosh2garmin: activity correction, version selection, token expiry
      and upload retry

    A shallow embedding of the Go sources [fitfix.go] (package main) and
    [garmin/*.go] (package garmin), with the properties of the design
    document proved about it.

    Conventions.
    - A Go fixed-width integer is a [Z]; every conversion and every
      arithmetic operation that can wrap is written with [wrap] / [wrapS].
    - A Go [string] and a Go [[]byte] are a Rocq [string] (a sequence of
      bytes).
    - A Go function that can panic returns an [option] ([None] is the
      panic); a Go function that returns [(T, error)] returns a [result].
    - A Go function that returns only an [error] returns an
      [option error] ([None] is nil).
    - The slices [activity.Records], [activity.Sessions] and
      [activity.DeviceInfos] hold pointers ([[]*mesgdef.Record] ...), one
      fresh message per decoded message, so the assignments made through
      the loop variable update the element in place.  The loops below
      rebuild the list element by element accordingly.
    - The client of package garmin runs in a state monad over the client
      struct and the world (clock, network, file system); what the world
      does is the [Runtime] interface.  The calls of [refreshOAuth2] and
      [doUpload] made by [UploadFIT] are recorded in a list, so that they
      can be counted.

    The definitions come first: the program, then the notions used to
    state its properties, then concrete inputs.  The properties follow,
    by source file. *)

From Stdlib Require Import ZArith List Bool Lia String Ascii DecimalString.
From Stdlib Require Import Sorting.Permutation Sorting.Sorted.
Import ListNotations.

Local Open Scope Z_scope.

(* ------------------------------------------------------------------ *)
(** ** Machine integers                                                 *)
(* ------------------------------------------------------------------ *)

(** Unsigned conversion to [bits] bits: [uintN(x)]. *)
Definition wrap (bits : Z) (x : Z) : Z := x mod 2 ^ bits.

(** Signed conversion to [bits] bits: [intN(x)]. *)
Definition wrapS (bits : Z) (x : Z) : Z :=
  (x + 2 ^ (bits - 1)) mod 2 ^ bits - 2 ^ (bits - 1).

Definition is_uint (bits : Z) (x : Z) : Prop := 0 <= x < 2 ^ bits.
Definition is_sint (bits : Z) (x : Z) : Prop :=
  - 2 ^ (bits - 1) <= x < 2 ^ (bits - 1).

Definition maxInt64 : Z := 2 ^ 63 - 1.
Definition minInt64 : Z := - 2 ^ 63.

(** [len(s)] as a Go [int]. *)
Definition len {A : Type} (l : list A) : Z := Z.of_nat (List.length l).

(* ------------------------------------------------------------------ *)
(** ** Results and errors                                               *)
(* ------------------------------------------------------------------ *)

(** A Go [error] is identified with its [Error()] text; the callers in
    this program only ever look at that text. *)
Definition error : Type := string.

Inductive result (A : Type) : Type :=
| Ok (a : A)
| Err (e : error).
Arguments Ok {A} a.
Arguments Err {A} e.

(* ------------------------------------------------------------------ *)
(** ** The decoded activity (the fields of the codec's messages that the
       program reads or writes, and those the design document lists)   *)
(* ------------------------------------------------------------------ *)

Module FileId.
Record t : Type := mk {
  Manufacturer : Z;   (* typedef.Manufacturer, uint16 *)
  Product      : Z;   (* uint16 *)
  SerialNumber : Z;   (* uint32 *)
  TimeCreated  : Z
}.
End FileId.

Module DeviceInfo.
Record t : Type := mk {
  Manufacturer : Z;   (* typedef.Manufacturer, uint16 *)
  Product      : Z;   (* uint16 *)
  SerialNumber : Z;   (* uint32 *)
  DeviceIndex  : Z    (* uint8 *)
}.
End DeviceInfo.

Module RecordMesg.
Record t : Type := mk {
  Timestamp   : Z;
  Power       : Z;    (* uint16 *)
  HeartRate   : Z;    (* uint8 *)
  Cadence     : Z;    (* uint8 *)
  Temperature : Z     (* int8 *)
}.
End RecordMesg.

Module Session.
Record t : Type := mk {
  Timestamp    : Z;
  StartTime    : Z;
  Sport        : Z;   (* typedef.Sport *)
  AvgPower     : Z;   (* uint16 *)
  AvgHeartRate : Z;   (* uint8 *)
  AvgCadence   : Z    (* uint8 *)
}.
End Session.

Module Lap.
Record t : Type := mk {
  Timestamp : Z;
  StartTime : Z
}.
End Lap.

Module Activity.
Record t : Type := mk {
  FileId      : FileId.t;
  DeviceInfos : list DeviceInfo.t;
  Records     : list RecordMesg.t;
  Laps        : list Lap.t;
  Sessions    : list Session.t
}.
End Activity.

(** What [lis.File()] can hold after decoding. *)
Inductive File : Type :=
| FileActivity (a : Activity.t)
| FileOther (goType : string).

(* ------------------------------------------------------------------ *)
(** ** fitfix.go: constants                                             *)
(* ------------------------------------------------------------------ *)

(** FIT protocol invalid sentinel values per base type. *)
Definition uint8Invalid  : Z := wrap 8 0xFF.
Definition uint16Invalid : Z := wrap 16 0xFFFF.
Definition sint8Invalid  : Z := wrapS 8 0x7F.

(** Device spoofing constants. *)
Definition garminManufacturer : Z := 1.      (* typedef.ManufacturerGarmin *)
Definition fenix6sProduct     : Z := 3288.   (* typedef.GarminProductFenix6s *)
Definition fakeSerialNumber   : Z := wrap 32 3420897194.

(* ------------------------------------------------------------------ *)
(** ** fitfix.go: averaging helpers                                     *)
(* ------------------------------------------------------------------ *)

Definition shouldFixU16 (v : Z) : bool := (v =? uint16Invalid) || (v =? 0).
Definition shouldFixU8  (v : Z) : bool := (v =? uint8Invalid) || (v =? 0).

(** The accumulation loop of [avgU16] / [avgU8]:
    [var sum uint64; for _, v := range vals { sum += uint64(v) }]. *)
Fixpoint sumU64 (vals : list Z) (sum : Z) : Z :=
  match vals with
  | [] => sum
  | v :: rest => sumU64 rest (wrap 64 (sum + wrap 64 v))
  end.

(** Go's integer division panics on a zero divisor. *)
Definition divU64 (a b : Z) : option Z :=
  if b =? 0 then None else Some (a / b).

Definition avgU16 (vals : list Z) : option Z :=
  match divU64 (sumU64 vals 0) (wrap 64 (len vals)) with
  | Some q => Some (wrap 16 q)
  | None => None
  end.

Definition avgU8 (vals : list Z) : option Z :=
  match divU64 (sumU64 vals 0) (wrap 64 (len vals)) with
  | Some q => Some (wrap 8 q)
  | None => None
  end.

(* ------------------------------------------------------------------ *)
(** ** fitfix.go: the correction pass of [fixFitFile]                   *)
(* ------------------------------------------------------------------ *)

(** The three slices [powers], [heartRates], [cadences]. *)
Record Pools : Type := mkPools {
  powers     : list Z;
  heartRates : list Z;
  cadences   : list Z
}.

Definition noPools : Pools := mkPools [] [] [].

(** Body of [for _, rec := range activity.Records]. *)
Definition recordStep (p : Pools) (rec : RecordMesg.t) : Pools * RecordMesg.t :=
  let ps := if negb (RecordMesg.Power rec =? uint16Invalid)
            then powers p ++ [RecordMesg.Power rec] else powers p in
  let hs := if negb (RecordMesg.HeartRate rec =? uint8Invalid)
            then heartRates p ++ [RecordMesg.HeartRate rec] else heartRates p in
  let cs := if negb (RecordMesg.Cadence rec =? uint8Invalid)
            then cadences p ++ [RecordMesg.Cadence rec] else cadences p in
  (mkPools ps hs cs,
   RecordMesg.mk (RecordMesg.Timestamp rec) (RecordMesg.Power rec)
                 (RecordMesg.HeartRate rec) (RecordMesg.Cadence rec)
                 sint8Invalid).

Fixpoint recordsLoop (recs : list RecordMesg.t) (p : Pools)
  : Pools * list RecordMesg.t :=
  match recs with
  | [] => (p, [])
  | rec :: rest =>
      let '(p1, rec1) := recordStep p rec in
      let '(p2, rest1) := recordsLoop rest p1 in
      (p2, rec1 :: rest1)
  end.

Definition setAvgPower (v : Z) (s : Session.t) : Session.t :=
  Session.mk (Session.Timestamp s) (Session.StartTime s) (Session.Sport s)
             v (Session.AvgHeartRate s) (Session.AvgCadence s).
Definition setAvgHeartRate (v : Z) (s : Session.t) : Session.t :=
  Session.mk (Session.Timestamp s) (Session.StartTime s) (Session.Sport s)
             (Session.AvgPower s) v (Session.AvgCadence s).
Definition setAvgCadence (v : Z) (s : Session.t) : Session.t :=
  Session.mk (Session.Timestamp s) (Session.StartTime s) (Session.Sport s)
             (Session.AvgPower s) (Session.AvgHeartRate s) v.

(** The option (panic) monad used by the session loop. *)
Definition bindP {A B : Type} (m : option A) (k : A -> option B) : option B :=
  match m with
  | Some a => k a
  | None => None
  end.
Notation "x <-? m ;; k" := (bindP m (fun x => k))
  (at level 61, m at next level, right associativity).

(** Body of [for _, sess := range activity.Sessions]. *)
Definition sessionStep (p : Pools) (sess : Session.t) : option Session.t :=
  s1 <-? (if shouldFixU16 (Session.AvgPower sess) && (len (powers p) >? 0)
          then v <-? avgU16 (powers p) ;; Some (setAvgPower v sess)
          else Some sess) ;;
  s2 <-? (if shouldFixU8 (Session.AvgHeartRate s1) && (len (heartRates p) >? 0)
          then v <-? avgU8 (heartRates p) ;; Some (setAvgHeartRate v s1)
          else Some s1) ;;
  (if shouldFixU8 (Session.AvgCadence s2) && (len (cadences p) >? 0)
   then v <-? avgU8 (cadences p) ;; Some (setAvgCadence v s2)
   else Some s2).

Fixpoint sessionsLoop (p : Pools) (ss : list Session.t)
  : option (list Session.t) :=
  match ss with
  | [] => Some []
  | sess :: rest =>
      s1 <-? sessionStep p sess ;;
      rest1 <-? sessionsLoop p rest ;;
      Some (s1 :: rest1)
  end.

(** [spoofDevice]. *)
Definition spoofFileId (f : FileId.t) : FileId.t :=
  FileId.mk garminManufacturer (wrap 16 fenix6sProduct) fakeSerialNumber
            (FileId.TimeCreated f).

Definition spoofDeviceInfo (di : DeviceInfo.t) : DeviceInfo.t :=
  DeviceInfo.mk garminManufacturer (wrap 16 fenix6sProduct) fakeSerialNumber
                (DeviceInfo.DeviceIndex di).

Fixpoint spoofDeviceInfos (dis : list DeviceInfo.t) : list DeviceInfo.t :=
  match dis with
  | [] => []
  | di :: rest => spoofDeviceInfo di :: spoofDeviceInfos rest
  end.

Definition spoofDevice (a : Activity.t) : Activity.t :=
  Activity.mk (spoofFileId (Activity.FileId a))
              (spoofDeviceInfos (Activity.DeviceInfos a))
              (Activity.Records a) (Activity.Laps a) (Activity.Sessions a).

(** The in-memory part of [fixFitFile], from "Collect metrics from records
    and strip temperature" up to and including [spoofDevice(activity)]:
    the activity handed to the encoder.  [None] is a runtime panic.  The
    lines sent to [logFn] are not part of the activity and are left out. *)
Definition correct (a : Activity.t) : option Activity.t :=
  let '(p, recs) := recordsLoop (Activity.Records a) noPools in
  sess <-? sessionsLoop p (Activity.Sessions a) ;;
  Some (spoofDevice
          (Activity.mk (Activity.FileId a) (Activity.DeviceInfos a)
                       recs (Activity.Laps a) sess)).

(** [fixFitFile] between the decoder and the encoder: [decoded] is what
    [dec.Decode()] and [lis.File()] produced. *)
Definition fixFitFile (decoded : result File) : option (result Activity.t) :=
  match decoded with
  | Err e => Some (Err ("decode: " ++ e)%string)
  | Ok (FileOther ty) =>
      Some (Err ("not an activity file (got " ++ ty ++ ")")%string)
  | Ok (FileActivity a) =>
      a1 <-? correct a ;; Some (Ok a1)
  end.

(* ------------------------------------------------------------------ *)
(** ** Reference notions for the correction pass                        *)
(* ------------------------------------------------------------------ *)

(** The samples of one field that are not that field's sentinel, in record
    order. *)
Definition realSamples (sentinel : Z) (field : RecordMesg.t -> Z)
  (recs : list RecordMesg.t) : list Z :=
  filter (fun v => negb (v =? sentinel)) (map field recs).

Definition total (vals : list Z) : Z := fold_right Z.add 0 vals.

(** Truncating integer mean: the exact sum divided by the count. *)
Definition truncMean (vals : list Z) : Z := total vals / len vals.

Definition stripTemperature (rec : RecordMesg.t) : RecordMesg.t :=
  RecordMesg.mk (RecordMesg.Timestamp rec) (RecordMesg.Power rec)
                (RecordMesg.HeartRate rec) (RecordMesg.Cadence rec)
                sint8Invalid.

(** The pools the record loop is expected to build. *)
Definition poolsOf (recs : list RecordMesg.t) : Pools :=
  mkPools (realSamples uint16Invalid RecordMesg.Power recs)
          (realSamples uint8Invalid RecordMesg.HeartRate recs)
          (realSamples uint8Invalid RecordMesg.Cadence recs).

(** One guarded assignment of the session loop, on the field alone. *)
Definition fixedField (shouldFix : Z -> bool) (avg : list Z -> option Z)
  (cur : Z) (pool : list Z) : option Z :=
  if shouldFix cur && (len pool >? 0) then avg pool else Some cur.

(** [avgU16] and [avgU8] differ only in the width of the final narrowing
    conversion. *)
Definition avgBits (bits : Z) (vals : list Z) : option Z :=
  match divU64 (sumU64 vals 0) (wrap 64 (len vals)) with
  | Some q => Some (wrap bits q)
  | None => None
  end.

(** "An aggregate that is the sentinel or exactly zero, with a non-empty
    pool, is replaced by the truncating mean of the pool." *)
Definition meanWritten (sentinel cur new : Z) (pool : list Z) : Prop :=
  cur = sentinel \/ cur = 0 -> pool <> [] -> new = truncMean pool.

(** "An aggregate that is neither the sentinel nor zero is left unchanged,
    and so is any aggregate whose pool is empty." *)
Definition keptValid (sentinel cur new : Z) (pool : list Z) : Prop :=
  (cur <> sentinel /\ cur <> 0) \/ pool = [] -> new = cur.

(** "What correction writes into an aggregate is below the sentinel":
    the aggregate is either untouched or holds a value below [sentinel]. *)
Definition noSentinelWritten (sentinel cur new : Z) : Prop :=
  new = cur \/ 0 <= new < sentinel.

(** [rel sentinel cur new pool] holds of the three aggregates of every
    session, [cur] read in [a], [new] in [a'], [pool] being the real
    samples of the aggregate's field over all records of [a]. *)
Definition eachAggregate (rel : Z -> Z -> Z -> list Z -> Prop)
  (a a' : Activity.t) : Prop :=
  Forall2
    (fun s s' =>
       rel uint16Invalid (Session.AvgPower s) (Session.AvgPower s')
         (realSamples uint16Invalid RecordMesg.Power (Activity.Records a)) /\
       rel uint8Invalid (Session.AvgHeartRate s) (Session.AvgHeartRate s')
         (realSamples uint8Invalid RecordMesg.HeartRate (Activity.Records a)) /\
       rel uint8Invalid (Session.AvgCadence s) (Session.AvgCadence s')
         (realSamples uint8Invalid RecordMesg.Cadence (Activity.Records a)))
    (Activity.Sessions a) (Activity.Sessions a').

(** Every sample of the pool is a value below [sentinel]. *)
Definition belowSentinel (sentinel : Z) (pool : list Z) : Prop :=
  Forall (fun v => 0 <= v < sentinel) pool.

(** On a non-empty [pool] the helper [avg] returns the 64-bit quotient
    itself (the narrowing conversion changes nothing), and that quotient,
    like the exact mean, is below [sentinel]. *)
Definition narrowsExactly (avg : list Z -> option Z) (sentinel : Z)
  (pool : list Z) : Prop :=
  pool <> [] ->
  exists q, avg pool = Some q /\
            q = sumU64 pool 0 / len pool /\
            0 <= q < sentinel /\
            0 <= truncMean pool < sentinel.

(** The identity triple of a file id or device entry. *)
Definition spoofTriple : Z * Z * Z :=
  (garminManufacturer, fenix6sProduct, fakeSerialNumber).
Definition fileIdentity (f : FileId.t) : Z * Z * Z :=
  (FileId.Manufacturer f, FileId.Product f, FileId.SerialNumber f).
Definition deviceIdentity (d : DeviceInfo.t) : Z * Z * Z :=
  (DeviceInfo.Manufacturer d, DeviceInfo.Product d, DeviceInfo.SerialNumber d).

(** Values that inhabit the Go types of the decoded messages. *)
Definition wf_record (r : RecordMesg.t) : Prop :=
  is_uint 16 (RecordMesg.Power r) /\ is_uint 8 (RecordMesg.HeartRate r) /\
  is_uint 8 (RecordMesg.Cadence r) /\ is_sint 8 (RecordMesg.Temperature r).

Definition wf_session (s : Session.t) : Prop :=
  is_uint 16 (Session.AvgPower s) /\ is_uint 8 (Session.AvgHeartRate s) /\
  is_uint 8 (Session.AvgCadence s).

(** A decoded activity: every field is in the range of its type and the
    record slice has a length that a Go [int] can hold. *)
Definition wf_activity (a : Activity.t) : Prop :=
  Forall wf_record (Activity.Records a) /\
  Forall wf_session (Activity.Sessions a) /\
  len (Activity.Records a) <= maxInt64.

(** The bound on the number of records under which the 64-bit accumulator
    of the averaging helpers cannot wrap (2^48 samples of at most 2^16-1;
    no addressable slice is that long). *)
Definition maxSamples : Z := 2 ^ 48.

(** The activity of the end-to-end scenario: ten records with power 200,
    heart rate 150, cadence 90, temperature 25, and one session whose
    averages the producer left unset. *)
Definition scenarioRecord (i : Z) : RecordMesg.t :=
  RecordMesg.mk (1000 + i) 200 150 90 25.

Definition scenario : Activity.t :=
  Activity.mk (FileId.mk 255 0 0 1000)
              [DeviceInfo.mk 255 0 12345 0; DeviceInfo.mk 89 7 777 1]
              (map scenarioRecord [0; 1; 2; 3; 4; 5; 6; 7; 8; 9])
              [Lap.mk 1010 1000]
              [Session.mk 1010 1000 2 uint16Invalid 0 uint8Invalid].

(** A second activity: some samples are sentinels, and the session already
    has a valid average power. *)
Definition mixed : Activity.t :=
  Activity.mk (FileId.mk 255 0 0 1000)
              [DeviceInfo.mk 255 0 12345 0]
              [RecordMesg.mk 1 100 uint8Invalid 80 20;
               RecordMesg.mk 2 uint16Invalid 141 uint8Invalid 21;
               RecordMesg.mk 3 201 150 91 sint8Invalid]
              []
              [Session.mk 4 1 2 180 0 uint8Invalid;
               Session.mk 4 1 2 0 uint8Invalid 77].

(* ------------------------------------------------------------------ *)
(** ** Library functions used by the file discovery                     *)
(* ------------------------------------------------------------------ *)

Definition isDigit (c : ascii) : bool :=
  let n := N_of_ascii c in ((48 <=? n) && (n <=? 57))%N.

Definition digitVal (c : ascii) : Z := Z.of_N (N_of_ascii c) - 48.

Definition isEmpty (s : string) : bool :=
  match s with
  | EmptyString => true
  | String _ _ => false
  end.

(** [regexp.MustCompile(`\d+`).FindAllString(s, -1)]: the maximal runs of
    ASCII digits of [s], from left to right.  [run] is the run being read. *)
Fixpoint findAllDigits (s : string) (run : string) : list string :=
  match s with
  | EmptyString => if isEmpty run then [] else [run]
  | String c rest =>
      if isDigit c then findAllDigits rest (run ++ String c EmptyString)%string
      else (if isEmpty run then [] else [run]) ++ findAllDigits rest EmptyString
  end.

Definition FindAllString (s : string) : list string :=
  findAllDigits s EmptyString.

(** The number a string of decimal digits denotes; [None] when some
    character is not a digit. *)
Fixpoint digitsValue (s : string) (acc : Z) : option Z :=
  match s with
  | EmptyString => Some acc
  | String c rest =>
      if isDigit c then digitsValue rest (10 * acc + digitVal c) else None
  end.

Inductive NumError : Type := ErrSyntax | ErrRange.

(** [strconv.Atoi] where [int] has 64 bits: an optional sign and a
    non-empty run of decimal digits; [(0, ErrSyntax)] on anything else,
    and the nearest bound of the type with [ErrRange] when the number
    does not fit. *)
Definition Atoi (s : string) : Z * option NumError :=
  let '(neg, body) :=
    match s with
    | String c rest =>
        if Ascii.eqb c "+" then (false, rest)
        else if Ascii.eqb c "-" then (true, rest)
        else (false, s)
    | EmptyString => (false, s)
    end in
  if isEmpty body then (0, Some ErrSyntax)
  else match digitsValue body 0 with
       | None => (0, Some ErrSyntax)
       | Some v =>
           if neg
           then (if v >? 2 ^ 63 then (minInt64, Some ErrRange) else (- v, None))
           else (if v >? maxInt64 then (maxInt64, Some ErrRange) else (v, None))
       end.

(** [filepath.Base] with [/] as the separator: the last element of the
    path, after trailing separators are removed; ["."] for the empty path
    and ["/"] for a path of separators only. *)
Definition isSep (c : ascii) : bool := Ascii.eqb c "/"%char.

Fixpoint dropLeadingSeps (cs : list ascii) : list ascii :=
  match cs with
  | c :: rest => if isSep c then dropLeadingSeps rest else cs
  | [] => []
  end.

Fixpoint takeToSep (cs : list ascii) : list ascii :=
  match cs with
  | c :: rest => if isSep c then [] else c :: takeToSep rest
  | [] => []
  end.

Definition Base (path : string) : string :=
  if isEmpty path then "."%string
  else
    let stripped := dropLeadingSeps (rev (list_ascii_of_string path)) in
    let last := rev (takeToSep stripped) in
    match last with
    | [] => "/"%string
    | _ => string_of_list_ascii last
    end.

(* ------------------------------------------------------------------ *)
(** ** fitfix.go: FIT file discovery                                    *)
(* ------------------------------------------------------------------ *)

(** The loop of [cmpVersionParts] over the remaining parts [ra], [rb] of
    [a] and [b]; the lengths returned at the end are those of the whole
    slices. *)
Fixpoint cmpVersionLoop (a b ra rb : list string) : Z :=
  match ra, rb with
  | x :: ra1, y :: rb1 =>
      let ai := fst (Atoi x) in
      let bi := fst (Atoi y) in
      if negb (ai =? bi) then wrapS 64 (ai - bi)
      else cmpVersionLoop a b ra1 rb1
  | _, _ => wrapS 64 (len a - len b)
  end.

Definition cmpVersionParts (a b : list string) : Z := cmpVersionLoop a b a b.

(** The [less] closure handed to [sort.Slice], on the elements compared. *)
Definition versionLess (mi mj : string) : bool :=
  let vi := FindAllString (Base mi) in
  let vj := FindAllString (Base mj) in
  cmpVersionParts vi vj >? 0.

Section FileDiscovery.

(** [sort.Slice], as a function from the comparison and the slice to
    the sorted slice. *)
Variable sortSlice : (string -> string -> bool) -> list string -> list string.

(** [findMostRecentFitFile]; [globbed] is what [filepath.Glob] returned
    for the pattern [dir/MyNewActivity-*.fit].  [None] is the panic of
    an index out of range. *)
Definition findMostRecentFitFile (dir : string)
  (globbed : result (list string)) : option (result string) :=
  match globbed with
  | Err e => Some (Err e)
  | Ok matches =>
      if len matches =? 0
      then Some (Err ("no MyNewActivity-*.fit files in " ++ dir)%string)
      else match sortSlice versionLess matches with
           | first :: _ => Some (Ok first)
           | [] => None
           end
  end.

End FileDiscovery.

(** What [sort.Slice] promises: the result is a rearrangement of the
    slice, and when [less] is a strict weak order on the elements no
    element is less than the one before it. *)
Definition weakOrderOn {A} (l : list A) (less : A -> A -> bool) : Prop :=
  (forall x y, In x l -> In y l -> less x y = true -> less y x = false) /\
  (forall x y z, In x l -> In y l -> In z l ->
                 less y x = false -> less z y = false -> less z x = false).

Definition sortsSlices
  (sort : (string -> string -> bool) -> list string -> list string) : Prop :=
  forall less l,
    Permutation l (sort less l) /\
    (weakOrderOn l less -> Sorted (fun x y => less y x = false) (sort less l)).

(** The insertion sort that [sort.Slice] runs on slices of at most twelve
    elements: each element in turn moves towards the front while it is
    less than its predecessor.  [front] is the sorted prefix, last element
    first. *)
Fixpoint insertBack {A} (less : A -> A -> bool) (x : A) (front : list A)
  : list A :=
  match front with
  | [] => [x]
  | y :: rest => if less x y then y :: insertBack less x rest
                 else x :: y :: rest
  end.

Definition insertionSort {A} (less : A -> A -> bool) (l : list A) : list A :=
  rev (fold_left (fun front x => insertBack less x front) l []).

(* ------------------------------------------------------------------ *)
(** ** Reference notions for the file discovery                         *)
(* ------------------------------------------------------------------ *)

(** The numeric components of a file name: its runs of digits read as
    natural numbers of any size. *)
Definition numberOf (digits : string) : Z :=
  match digitsValue digits 0 with
  | Some v => v
  | None => 0
  end.

Definition versionOf (path : string) : list Z :=
  map numberOf (FindAllString (Base path)).

(** Component-wise comparison from left to right; a sequence that runs
    out first is the smaller one. *)
Fixpoint lexCompare (u v : list Z) : comparison :=
  match u, v with
  | [], [] => Eq
  | [], _ :: _ => Lt
  | _ :: _, [] => Gt
  | x :: u1, y :: v1 =>
      match x ?= y with
      | Eq => lexCompare u1 v1
      | c => c
      end
  end.

Definition isGt (c : comparison) : bool :=
  match c with
  | Gt => true
  | _ => false
  end.

Fixpoint allDigits (s : string) : bool :=
  match s with
  | EmptyString => true
  | String c rest => isDigit c && allDigits rest
  end.

(** A non-empty run of decimal digits. *)
Definition isNumeral (s : string) : Prop :=
  isEmpty s = false /\ allDigits s = true.

(** [best] is a candidate whose version no candidate exceeds. *)
Definition greatestVersion (candidates : list string) (best : string) : Prop :=
  In best candidates /\
  forall m, In m candidates -> lexCompare (versionOf m) (versionOf best) <> Gt.

(** Every numeric component of the name fits a Go [int], and so does the
    length of the name. *)
Definition fitsInt (path : string) : Prop :=
  Forall (fun n => n <= maxInt64) (versionOf path) /\
  Z.of_nat (String.length path) <= maxInt64.

Definition testFiles : list string :=
  ["/tmp/t/MyNewActivity-3.7.0.fit";
   "/tmp/t/MyNewActivity-3.8.5.fit";
   "/tmp/t/MyNewActivity-3.8.1.fit"]%string.

Definition hugeFiles : list string :=
  ["/tmp/t/MyNewActivity-9223372036854775807.1.fit";
   "/tmp/t/MyNewActivity-9223372036854775808.0.fit"]%string.

(* ------------------------------------------------------------------ *)
(** ** package garmin: tokens and client                                *)
(* ------------------------------------------------------------------ *)

Module OAuth1Token.
Record t : Type := mk {
  OAuthToken       : string;
  OAuthTokenSecret : string;
  MFAToken         : string;
  MFAExpiration    : string;
  Domain           : string
}.
End OAuth1Token.

Module OAuth2Token.
Record t : Type := mk {
  Scope                 : string;
  Jti                   : string;
  TokenType             : string;
  AccessToken           : string;
  RefreshToken          : string;
  ExpiresIn             : Z;   (* int64 *)
  ExpiresAt             : Z;   (* int64 *)
  RefreshTokenExpiresIn : Z;   (* int64 *)
  RefreshTokenExpiresAt : Z    (* int64 *)
}.
End OAuth2Token.

(** The anonymous struct [raw] of [exchangeOAuth2]: the exchange response
    carries durations, no absolute expiry. *)
Module RawOAuth2.
Record t : Type := mk {
  Scope                 : string;
  Jti                   : string;
  TokenType             : string;
  AccessToken           : string;
  RefreshToken          : string;
  ExpiresIn             : Z;   (* int64 *)
  RefreshTokenExpiresIn : Z    (* int64 *)
}.
End RawOAuth2.

Module Consumer.
Record t : Type := mk {
  ConsumerKey    : string;
  ConsumerSecret : string
}.
End Consumer.

(** [Client]; the two token fields are pointers and may be nil. *)
Module Client.
Record t : Type := mk {
  OAuth1   : option OAuth1Token.t;
  OAuth2   : option OAuth2Token.t;
  Domain   : string;
  TokenDir : string
}.
End Client.

(* ------------------------------------------------------------------ *)
(** ** The world outside the program                                    *)
(* ------------------------------------------------------------------ *)

(** What a request carries besides method, URL and headers. *)
Inductive Payload : Type :=
| NoBody
| FormBody (content : string)
| MultipartFile (field filename content : string).

Module Request.
Record t : Type := mk {
  Method  : string;
  URL     : string;
  Header  : list (string * string);
  Signer  : option (Consumer.t * string * string);  (* OAuth1 signing *)
  Body    : Payload;
  Timeout : Z                                        (* seconds *)
}.
End Request.

(** A response whose body has been read with [io.ReadAll]; [Body] is the
    outcome of that read. *)
Module Response.
Record t : Type := mk {
  StatusCode : Z;
  Body       : result string
}.
End Response.

(** The clock, the network, the file system and the codecs of the Go
    standard library, as far as the client uses them. *)
Class Runtime (World : Type) : Type := {
  timeNowUnix     : World -> Z * World;
  httpNewRequest  : string -> string -> option error;
  httpDo          : Request.t -> World -> result Response.t * World;
  osReadFile      : string -> World -> result string * World;
  osMkdirAll      : string -> World -> option error * World;
  osWriteFile     : string -> string -> World -> option error * World;
  fmtPrintln      : string -> World -> World;
  filepathJoin    : string -> string -> string;
  urlQueryEscape  : string -> string;
  jsonConsumer    : string -> result Consumer.t;
  jsonOAuth2      : string -> result RawOAuth2.t;
  jsonMarshal1    : OAuth1Token.t -> result string;
  jsonMarshal2    : OAuth2Token.t -> result string;
  (** [detailedImportResult.failures] of an upload response body, each
      element as [%v] prints it. *)
  jsonFailures    : string -> result (list string)
}.

(** [%d]. *)
Definition itoa (n : Z) : string := NilZero.string_of_int (Z.to_int n).

(** [string(body[:min(300, len(body))])]. *)
Definition preview (body : string) : string := substring 0 300 body.

(** [%v] of a slice. *)
Definition fmtSlice (elems : list string) : string :=
  ("[" ++ String.concat " " elems ++ "]")%string.

(** [strings.Contains]. *)
Fixpoint Contains (s substr : string) : bool :=
  String.prefix substr s ||
  match s with
  | EmptyString => false
  | String _ rest => Contains rest substr
  end.

(* ------------------------------------------------------------------ *)
(** ** State, panics and calls                                          *)
(* ------------------------------------------------------------------ *)

(** A computation on a state that returns a value and the new state, or
    panics. *)
Definition ST (S A : Type) : Type := S -> option (A * S).

Definition ret {S A : Type} (a : A) : ST S A := fun s => Some (a, s).

Definition bind {S A B : Type} (m : ST S A) (k : A -> ST S B) : ST S B :=
  fun s => match m s with
           | Some (a, s1) => k a s1
           | None => None
           end.

Definition panic {S A : Type} : ST S A := fun _ => None.

Notation "x <- m ;; k" := (bind m (fun x => k))
  (at level 61, m at next level, right associativity).
Notation "m ;;; k" := (bind m (fun _ => k))
  (at level 61, right associativity).

(** The calls of [refreshOAuth2] and [doUpload] made by an upload, each
    with what it returned. *)
Inductive Call : Type :=
| CallRefresh (returned : option error)
| CallUpload (returned : result (Z * string)).

Section Garmin.

Context {World : Type} {RT : Runtime World}.

(** The client struct behind the receiver [c] and the world. *)
Record Machine : Type := mkMachine {
  client : Client.t;
  world  : World
}.

Definition liftW {A : Type} (op : World -> A * World) : ST Machine A :=
  fun st => let '(a, w) := op (world st) in Some (a, mkMachine (client st) w).

Definition getClient : ST Machine Client.t := fun st => Some (client st, st).

Definition setOAuth2 (tok : OAuth2Token.t) : ST Machine unit :=
  fun st =>
    let c := client st in
    Some (tt, mkMachine (Client.mk (Client.OAuth1 c) (Some tok)
                                   (Client.Domain c) (Client.TokenDir c))
                        (world st)).

Definition oauthConsumerURL : string :=
  "https://thegarth.s3.amazonaws.com/oauth_consumer.json".
Definition ssoUserAgent : string := "com.garmin.android.apps.connectmobile".
Definition apiUserAgent : string := "GCM-iOS-5.19.1.2".

(** [(t *OAuth2Token) Expired]. *)
Definition Expired (t : OAuth2Token.t) : ST Machine bool :=
  now <- liftW timeNowUnix ;;
  ret (OAuth2Token.ExpiresAt t <? now).

(** [(t *OAuth2Token) Bearer]. *)
Definition Bearer (t : OAuth2Token.t) : string :=
  ("Bearer " ++ OAuth2Token.AccessToken t)%string.

(** [fetchConsumer]. *)
Definition fetchConsumer : ST Machine (result Consumer.t) :=
  match httpNewRequest "GET" oauthConsumerURL with
  | Some e => ret (Err e)
  | None =>
      r <- liftW (httpDo (Request.mk "GET" oauthConsumerURL [] None NoBody 0)) ;;
      match r with
      | Err e => ret (Err e)
      | Ok resp =>
          if negb (Response.StatusCode resp =? 200)
          then ret (Err ("consumer fetch HTTP "
                         ++ itoa (Response.StatusCode resp))%string)
          else match Response.Body resp with
               | Err e => ret (Err e)
               | Ok body => ret (jsonConsumer body)
               end
      end
  end.

(** The request [exchangeOAuth2] builds: a POST signed with the
    consumer and the OAuth1 token, carrying the MFA token if any. *)
Definition exchangeURL (domain : string) : string :=
  let apiBase := ("https://connectapi." ++ domain)%string in
  (apiBase ++ "/oauth-service/oauth/exchange/user/2.0")%string.

Definition exchangeRequest (consumer : Consumer.t)
  (oauth1Token : OAuth1Token.t) (domain : string) : Request.t :=
  let bodyContent :=
    if negb (isEmpty (OAuth1Token.MFAToken oauth1Token))
    then ("mfa_token=" ++ urlQueryEscape (OAuth1Token.MFAToken oauth1Token))%string
    else EmptyString in
  Request.mk "POST" (exchangeURL domain)
    [("User-Agent", ssoUserAgent);
     ("Content-Type", "application/x-www-form-urlencoded")]%string
    (Some (consumer, OAuth1Token.OAuthToken oauth1Token,
           OAuth1Token.OAuthTokenSecret oauth1Token))
    (FormBody bodyContent) 30.

(** [exchangeOAuth2]. *)
Definition exchangeOAuth2 (consumer : Consumer.t)
  (oauth1Token : OAuth1Token.t) (domain : string)
  : ST Machine (result OAuth2Token.t) :=
  match httpNewRequest "POST" (exchangeURL domain) with
  | Some e => ret (Err e)
  | None =>
      r <- liftW (httpDo (exchangeRequest consumer oauth1Token domain)) ;;
      match r with
      | Err e => ret (Err e)
      | Ok resp =>
          match Response.Body resp with
          | Err e => ret (Err e)
          | Ok respBody =>
              if negb (Response.StatusCode resp =? 200)
              then ret (Err ("exchange HTTP "
                             ++ itoa (Response.StatusCode resp) ++ ": "
                             ++ preview respBody)%string)
              else match jsonOAuth2 respBody with
                   | Err e => ret (Err ("parse oauth2: " ++ e)%string)
                   | Ok raw =>
                       now <- liftW timeNowUnix ;;
                       ret (Ok (OAuth2Token.mk
                                  (RawOAuth2.Scope raw)
                                  (RawOAuth2.Jti raw)
                                  (RawOAuth2.TokenType raw)
                                  (RawOAuth2.AccessToken raw)
                                  (RawOAuth2.RefreshToken raw)
                                  (RawOAuth2.ExpiresIn raw)
                                  (wrapS 64 (now + RawOAuth2.ExpiresIn raw))
                                  (RawOAuth2.RefreshTokenExpiresIn raw)
                                  (wrapS 64 (now + RawOAuth2.RefreshTokenExpiresIn raw))))
                   end
          end
      end
  end.

(** [ExchangeForOAuth2]; a nil [oauth1Token] panics when its domain is
    read. *)
Definition ExchangeForOAuth2 (oauth1Token : option OAuth1Token.t)
  : ST Machine (result OAuth2Token.t) :=
  r <- fetchConsumer ;;
  match r with
  | Err e => ret (Err ("fetch consumer: " ++ e)%string)
  | Ok consumer =>
      match oauth1Token with
      | None => panic
      | Some o1 =>
          let domain := if isEmpty (OAuth1Token.Domain o1)
                        then "garmin.com"%string else OAuth1Token.Domain o1 in
          exchangeOAuth2 consumer o1 domain
      end
  end.

(** [SaveTokens]. *)
Definition saveOne {T : Type} (marshal : T -> result string)
  (dir name : string) (tok : option T) : ST Machine (option error) :=
  match tok with
  | None => ret None
  | Some t =>
      match marshal t with
      | Err e => ret (Some e)
      | Ok data => liftW (osWriteFile (filepathJoin dir name) data)
      end
  end.

Definition SaveTokens (dir : string) (oauth1 : option OAuth1Token.t)
  (oauth2 : option OAuth2Token.t) : ST Machine (option error) :=
  e0 <- liftW (osMkdirAll dir) ;;
  match e0 with
  | Some e => ret (Some e)
  | None =>
      e1 <- saveOne jsonMarshal1 dir "oauth1_token.json" oauth1 ;;
      match e1 with
      | Some e => ret (Some e)
      | None => saveOne jsonMarshal2 dir "oauth2_token.json" oauth2
      end
  end.

(** [(c *Client) refreshOAuth2]. *)
Definition refreshOAuth2 : ST Machine (option error) :=
  c <- getClient ;;
  r <- ExchangeForOAuth2 (Client.OAuth1 c) ;;
  match r with
  | Err e => ret (Some e)
  | Ok oauth2 =>
      setOAuth2 oauth2 ;;;
      (if negb (isEmpty (Client.TokenDir c))
       then SaveTokens (Client.TokenDir c) None (Some oauth2) ;;; ret tt
       else ret tt) ;;;
      ret None
  end.

(** [(c *Client) doUpload]; [osReadFile] stands for [os.Open] followed
    by the [io.Copy] of the file into the multipart body. *)
Definition doUpload (filePath : string) : ST Machine (result (Z * string)) :=
  c <- getClient ;;
  f <- liftW (osReadFile filePath) ;;
  match f with
  | Err e => ret (Err e)
  | Ok content =>
      let uploadURL :=
        ("https://connectapi." ++ Client.Domain c
         ++ "/upload-service/upload")%string in
      match httpNewRequest "POST" uploadURL with
      | Some e => ret (Err e)
      | None =>
          match Client.OAuth2 c with
          | None => panic
          | Some tok =>
              r <- liftW (httpDo
                     (Request.mk "POST" uploadURL
                        [("Authorization", Bearer tok);
                         ("Content-Type", "multipart/form-data");
                         ("User-Agent", apiUserAgent);
                         ("DI-Backend", "connectapi." ++ Client.Domain c);
                         ("NK", "NT")]%string
                        None
                        (MultipartFile "file" (Base filePath) content) 60)) ;;
              match r with
              | Err e => ret (Err ("upload request: " ++ e)%string)
              | Ok resp =>
                  match Response.Body resp with
                  | Err e => ret (Err e)
                  | Ok body => ret (Ok (Response.StatusCode resp, body))
                  end
              end
          end
      end
  end.

(** [parseUploadResult]. *)
Definition parseUploadResult (status : Z) (body : string) : option error :=
  if status =? 409
  then Some "duplicate activity (already uploaded to Garmin)"%string
  else if status >=? 400
  then Some ("upload failed (HTTP " ++ itoa status ++ "): "
             ++ preview body)%string
  else match jsonFailures body with
       | Ok failures =>
           if len failures >? 0
           then Some ("upload reported failures: " ++ fmtSlice failures)%string
           else None
       | Err _ => None
       end.

(** The machine together with the calls made so far. *)
Record Traced : Type := mkTraced {
  machine : Machine;
  calls   : list Call
}.

(** Running a step that is not a recorded call. *)
Definition step {A : Type} (m : ST Machine A) : ST Traced A :=
  fun st => match m (machine st) with
            | Some (a, m1) => Some (a, mkTraced m1 (calls st))
            | None => None
            end.

(** Calling [f] and recording the call with what it returned. *)
Definition call {A : Type} (record : A -> Call) (f : ST Machine A)
  : ST Traced A :=
  fun st => match f (machine st) with
            | Some (a, m1) => Some (a, mkTraced m1 (calls st ++ [record a]))
            | None => None
            end.

(** [(c *Client) UploadFIT]. *)
Definition UploadFIT (filePath : string) : ST Traced (option error) :=
  c <- step getClient ;;
  match Client.OAuth2 c with
  | None => ret (Some "not authenticated"%string)
  | Some tok =>
      expired <- step (Expired tok) ;;
      e0 <- (if expired then call CallRefresh refreshOAuth2 else ret None) ;;
      match e0 with
      | Some e => ret (Some ("token refresh: " ++ e)%string)
      | None =>
          r1 <- call CallUpload (doUpload filePath) ;;
          match r1 with
          | Err e => ret (Some e)
          | Ok (status, body) =>
              if status =? 401
              then
                step (liftW (fun w =>
                  (tt, fmtPrintln "  token rejected, refreshing..." w))) ;;;
                e1 <- call CallRefresh refreshOAuth2 ;;
                match e1 with
                | Some e => ret (Some ("token refresh: " ++ e)%string)
                | None =>
                    r2 <- call CallUpload (doUpload filePath) ;;
                    match r2 with
                    | Err e => ret (Some e)
                    | Ok (status2, body2) =>
                        ret (parseUploadResult status2 body2)
                    end
                end
              else ret (parseUploadResult status body)
          end
      end
  end.

(** main.go: how the caller recognises the duplicate outcome. *)
Definition isDuplicate (err : error) : bool := Contains err "duplicate".

(** The part of [UploadFIT] from the first attempt on, for the
    statements about it. *)
Definition uploadAttempts (filePath : string) : ST Traced (option error) :=
  r1 <- call CallUpload (doUpload filePath) ;;
  match r1 with
  | Err e => ret (Some e)
  | Ok (status, body) =>
      if status =? 401
      then
        step (liftW (fun w =>
          (tt, fmtPrintln "  token rejected, refreshing..." w))) ;;;
        e1 <- call CallRefresh refreshOAuth2 ;;
        match e1 with
        | Some e => ret (Some ("token refresh: " ++ e)%string)
        | None =>
            r2 <- call CallUpload (doUpload filePath) ;;
            match r2 with
            | Err e => ret (Some e)
            | Ok (status2, body2) => ret (parseUploadResult status2 body2)
            end
        end
      else ret (parseUploadResult status body)
  end.

(** What an upload attempt amounts to when it is the last one. *)
Definition outcome (r : result (Z * string)) : option error :=
  match r with
  | Err e => Some e
  | Ok (status, body) => parseUploadResult status body
  end.

(** The calls an upload can make from its first attempt on, with the
    error it then returns. *)
Inductive attemptShape : list Call -> option error -> Prop :=
| FirstFailed e :
    attemptShape [CallUpload (Err e)] (Some e)
| FirstAnswered status body :
    status <> 401 ->
    attemptShape [CallUpload (Ok (status, body))]
                 (parseUploadResult status body)
| RefreshFailed body e :
    attemptShape [CallUpload (Ok (401, body)); CallRefresh (Some e)]
                 (Some ("token refresh: " ++ e)%string)
| Retried body r2 :
    attemptShape [CallUpload (Ok (401, body)); CallRefresh None;
                  CallUpload r2]
                 (outcome r2).

(** All the calls of an upload: nothing when the client holds no
    token, a refresh first when the token had expired. *)
Inductive uploadShape : list Call -> option error -> Prop :=
| NotAuthenticated :
    uploadShape [] (Some "not authenticated"%string)
| EarlyRefreshFailed e :
    uploadShape [CallRefresh (Some e)]
                (Some ("token refresh: " ++ e)%string)
| Attempted early att res :
    early = [] \/ early = [CallRefresh None] ->
    attemptShape att res ->
    uploadShape (early ++ att) res.

End Garmin.

(** The first upload attempt among the calls: what it returned and the
    calls made after it. *)
Fixpoint firstAttempt (cs : list Call)
  : option (result (Z * string) * list Call) :=
  match cs with
  | [] => None
  | CallUpload r :: rest => Some (r, rest)
  | CallRefresh _ :: rest => firstAttempt rest
  end.

(** No call follows an upload attempt answered with status 409. *)
Fixpoint nothingAfter409 (cs : list Call) : Prop :=
  match cs with
  | [] => True
  | CallUpload (Ok (status, _)) :: rest =>
      (status = 409 -> rest = []) /\ nothingAfter409 rest
  | _ :: rest => nothingAfter409 rest
  end.

Section RetryDiscipline.

Context {World : Type} {RT : Runtime World}.

(** What follows the first upload attempt, by what it returned: nothing
    unless it was answered with status 401; after a 401 one refresh,
    then, if the refresh succeeded, one retry whose outcome is the
    result and, if it failed, the refresh failure as the result. *)
Definition retriesOnceOn401 (new : list Call) (res : option error) : Prop :=
  forall first rest,
    firstAttempt new = Some (first, rest) ->
    match first with
    | Err e => rest = [] /\ res = Some e
    | Ok (status, body) =>
        if status =? 401
        then (exists e, rest = [CallRefresh (Some e)] /\
                        res = Some ("token refresh: " ++ e)%string) \/
             (exists r2, rest = [CallRefresh None; CallUpload r2] /\
                         res = outcome r2)
        else rest = [] /\ res = parseUploadResult status body
    end.

End RetryDiscipline.

Definition duplicateError : error :=
  "duplicate activity (already uploaded to Garmin)"%string.

(** A client that holds both tokens, as [Login] and [Resume] leave it. *)
Definition authenticated (c : Client.t) : Prop :=
  Client.OAuth1 c <> None /\ Client.OAuth2 c <> None.

(* ------------------------------------------------------------------ *)
(** ** A scripted world                                                 *)
(* ------------------------------------------------------------------ *)

(** A world with a fixed clock whose network answers the requests with
    the replies of a script, in order. *)
Record Script : Type := mkScript {
  clock   : Z;
  replies : list (result Response.t)
}.

#[global] Instance scripted : Runtime Script := {
  timeNowUnix w := (clock w, w);
  httpNewRequest _ _ := None;
  httpDo _ w :=
    match replies w with
    | r :: rest => (r, mkScript (clock w) rest)
    | [] => (Err "dial tcp: network is unreachable"%string, w)
    end;
  osReadFile _ w := (Ok "FIT"%string, w);
  osMkdirAll _ w := (None, w);
  osWriteFile _ _ w := (None, w);
  fmtPrintln _ w := w;
  filepathJoin dir name := (dir ++ "/" ++ name)%string;
  urlQueryEscape s := s;
  jsonConsumer body :=
    if String.eqb body "consumer"%string then Ok (Consumer.mk "key" "secret")%string
    else Err "invalid character"%string;
  jsonOAuth2 body :=
    if String.eqb body "hour"%string
    then Ok (RawOAuth2.mk "CONNECT_WRITE"%string "jti"%string "Bearer"%string
                          "access"%string "refresh"%string 3600 7200)
    else Err "unexpected end of JSON input"%string;
  jsonMarshal1 _ := Ok "{}"%string;
  jsonMarshal2 _ := Ok "{}"%string;
  jsonFailures _ := Ok []
}.

Definition answer (status : Z) (body : string) : result Response.t :=
  Ok (Response.mk status (Ok body)).

Definition someOAuth1 : OAuth1Token.t :=
  OAuth1Token.mk "token"%string "secret"%string ""%string ""%string
                 "garmin.com"%string.

Definition someConsumer : Consumer.t :=
  Consumer.mk "key"%string "secret"%string.

(** A token that expires at time 5000. *)
Definition someOAuth2 : OAuth2Token.t :=
  OAuth2Token.mk "CONNECT_WRITE"%string "jti"%string "Bearer"%string
                 "old"%string "refresh"%string 3600 5000 7200 8600.

Definition someClient : Client.t :=
  Client.mk (Some someOAuth1) (Some someOAuth2) "garmin.com"%string
            "/home/u/.tokens"%string.

Definition start (now : Z) (script : list (result Response.t)) : Traced :=
  mkTraced (mkMachine someClient (mkScript now script)) [].

(* ------------------------------------------------------------------ *)
(** ** Further library functions: file status, time, paths, decoding    *)
(* ------------------------------------------------------------------ *)

(** What the program reads of an [os.FileInfo]; [ModTime] is an instant. *)
Module FileInfo.
Record t : Type := mk {
  ModTime : Z;
  IsDir   : bool
}.
End FileInfo.

(** The part of the Go standard library used by the sync helpers and by
    the token cache, beside [Runtime]: [os.Stat] (which reads the file
    system and changes nothing), [time.Now().AddDate(y, m, d)] as an
    instant, [time.Now().Format(layout)], and the decoding of the two
    token documents. *)
Class Storage (World : Type) : Type := {
  osStat         : string -> World -> result FileInfo.t;
  timeNowAddDate : Z -> Z -> Z -> World -> Z * World;
  timeNowFormat  : string -> World -> string * World;
  jsonUnmarshal1 : string -> result OAuth1Token.t;
  jsonUnmarshal2 : string -> result OAuth2Token.t
}.

(** [filepath.Ext] with [/] as the separator: the suffix of the path that
    starts at the last dot of its last element, empty without such a
    dot.  [rs] is the path read from its end, [acc] what was read. *)
Fixpoint extFrom (rs acc : list ascii) : list ascii :=
  match rs with
  | [] => []
  | c :: rest =>
      if isSep c then []
      else if Ascii.eqb c "." then c :: acc
      else extFrom rest (c :: acc)
  end.

Definition Ext (path : string) : string :=
  string_of_list_ascii (extFrom (rev (list_ascii_of_string path)) []).

(** [strings.HasSuffix] and [strings.TrimSuffix]. *)
Definition HasSuffix (s suffix : string) : bool :=
  (String.length suffix <=? String.length s)%nat &&
  String.eqb (substring (String.length s - String.length suffix)
                        (String.length suffix) s) suffix.

Definition TrimSuffix (s suffix : string) : string :=
  if HasSuffix s suffix
  then substring 0 (String.length s - String.length suffix) s
  else s.

(* ------------------------------------------------------------------ *)
(** ** fitfix.go: output name and sync helpers                          *)
(* ------------------------------------------------------------------ *)

Section SyncHelpers.

Context {World : Type} {RT : Runtime World} {SG : Storage World}.

(** [generateOutputFilename]. *)
Definition generateOutputFilename (inputPath : string)
  : World -> string * World :=
  fun w =>
    let name := TrimSuffix (Base inputPath) (Ext inputPath) in
    let '(ts, w1) := timeNowFormat "2006-01-02_150405" w in
    ((name ++ "_" ++ ts ++ ".fit")%string, w1).

(** [isDir]. *)
Definition isDir (path : string) (w : World) : bool :=
  match osStat path w with
  | Ok info => FileInfo.IsDir info
  | Err _ => false
  end.

(** [isSynced]: a [.synced] marker exists next to the FIT file. *)
Definition isSynced (fitPath : string) (w : World) : bool :=
  match osStat (fitPath ++ ".synced") w with
  | Ok _ => true
  | Err _ => false
  end.

Definition RFC3339 : string := "2006-01-02T15:04:05Z07:00".

(** [markSynced]: writes the marker, holding the current time. *)
Definition markSynced (fitPath : string) : World -> option error * World :=
  fun w =>
    let '(stamp, w1) := timeNowFormat RFC3339 w in
    osWriteFile (fitPath ++ ".synced") stamp w1.

(** The loop of [findUnsyncedFitFiles] over the remaining matches;
    [result] is the slice built so far. *)
Fixpoint unsyncedLoop (cutoff : Z) (w : World) (matches result : list string)
  : list string :=
  match matches with
  | [] => result
  | path :: rest =>
      match osStat path w with
      | Err _ => unsyncedLoop cutoff w rest result
      | Ok info =>
          if FileInfo.ModTime info <? cutoff
          then unsyncedLoop cutoff w rest result
          else if isSynced path w
          then unsyncedLoop cutoff w rest result
          else unsyncedLoop cutoff w rest (result ++ [path])
      end
  end.

(** The [less] closure of [findUnsyncedFitFiles], on the elements
    compared.  It discards the error of [os.Stat]; every element of the
    slice has been read with [os.Stat] before, on the same file system,
    so the case of an error is not reached from the loop. *)
Definition olderFirst (w : World) (x y : string) : bool :=
  match osStat x w, osStat y w with
  | Ok ii, Ok jj => FileInfo.ModTime ii <? FileInfo.ModTime jj
  | _, _ => false
  end.

(** [findUnsyncedFitFiles]; [globbed] is what [filepath.Glob] returned
    for the pattern [dir/*.fit]. *)
Definition findUnsyncedFitFiles
  (sortSlice : (string -> string -> bool) -> list string -> list string)
  (dir : string) (globbed : result (list string))
  : World -> result (list string) * World :=
  fun w =>
    match globbed with
    | Err e => (Err e, w)
    | Ok matches =>
        let '(cutoff, w1) := timeNowAddDate 0 0 (-30) w in
        let result := unsyncedLoop cutoff w1 matches [] in
        (Ok (sortSlice (olderFirst w1) result), w1)
    end.

(* ------------------------------------------------------------------ *)
(** ** package garmin: the token cache and the resumed session          *)
(* ------------------------------------------------------------------ *)

(** [NewClient]. *)
Definition NewClient (tokenDir : string) : Client.t :=
  Client.mk None None "garmin.com" tokenDir.

(** [LoadTokens]. *)
Definition LoadTokens (dir : string)
  : ST (@Machine World) (result (OAuth1Token.t * OAuth2Token.t)) :=
  r1 <- liftW (osReadFile (filepathJoin dir "oauth1_token.json")) ;;
  match r1 with
  | Err e => ret (Err ("load oauth1: " ++ e)%string)
  | Ok oauth1Data =>
      match jsonUnmarshal1 oauth1Data with
      | Err e => ret (Err ("parse oauth1: " ++ e)%string)
      | Ok oauth1 =>
          r2 <- liftW (osReadFile (filepathJoin dir "oauth2_token.json")) ;;
          match r2 with
          | Err e => ret (Err ("load oauth2: " ++ e)%string)
          | Ok oauth2Data =>
              match jsonUnmarshal2 oauth2Data with
              | Err e => ret (Err ("parse oauth2: " ++ e)%string)
              | Ok oauth2 => ret (Ok (oauth1, oauth2))
              end
          end
      end
  end.

(** The assignments of [Resume] after a successful load: both tokens,
    and the domain of the OAuth1 token when it has one. *)
Definition adoptTokens (oauth1 : OAuth1Token.t) (oauth2 : OAuth2Token.t)
  : ST (@Machine World) unit :=
  fun st =>
    let c := client st in
    Some (tt, mkMachine
                (Client.mk (Some oauth1) (Some oauth2)
                   (if negb (isEmpty (OAuth1Token.Domain oauth1))
                    then OAuth1Token.Domain oauth1 else Client.Domain c)
                   (Client.TokenDir c))
                (world st)).

(** [(c *Client) Resume]. *)
Definition Resume : ST (@Traced World) (option error) :=
  c <- step getClient ;;
  if isEmpty (Client.TokenDir c)
  then ret (Some "no token directory configured"%string)
  else
    r <- step (LoadTokens (Client.TokenDir c)) ;;
    match r with
    | Err e => ret (Some ("no cached session: " ++ e)%string)
    | Ok (oauth1, oauth2) =>
        step (adoptTokens oauth1 oauth2) ;;;
        expired <- step (Expired oauth2) ;;
        if negb expired then ret None
        else
          step (liftW (fun w =>
            (tt, fmtPrintln "  session expired, refreshing..." w))) ;;;
          e <- call CallRefresh refreshOAuth2 ;;
          match e with
          | Some e => ret (Some ("refresh failed: " ++ e)%string)
          | None => ret None
          end
    end.

(* ------------------------------------------------------------------ *)
(** ** Reference notions for the sync helpers and the token cache       *)
(* ------------------------------------------------------------------ *)

(** The test a match passes to be reported as unsynced: it can be read
    with [os.Stat], was not modified before [cutoff], and has no marker. *)
Definition unsyncedRecent (cutoff : Z) (w : World) (path : string) : bool :=
  match osStat path w with
  | Err _ => false
  | Ok info => negb (FileInfo.ModTime info <? cutoff) && negb (isSynced path w)
  end.

(** [x] was not modified after [y]. *)
Definition notNewer (w : World) (x y : string) : Prop :=
  forall ii jj, osStat x w = Ok ii -> osStat y w = Ok jj ->
                FileInfo.ModTime ii <= FileInfo.ModTime jj.

(** What is assumed of the file system for the statements on markers:
    a file that was written can be read with [os.Stat], writing a file
    and reading the clock leave the status of every other path as it
    was. *)
Definition markersPersist : Prop :=
  (forall p d w w1, osWriteFile p d w = (None, w1) ->
                    exists info, osStat p w1 = Ok info) /\
  (forall p d w e w1 q, osWriteFile p d w = (e, w1) -> q <> p ->
                        osStat q w1 = osStat q w) /\
  (forall layout w s w1 q, timeNowFormat layout w = (s, w1) ->
                           osStat q w1 = osStat q w) /\
  (forall y m d w t w1 q, timeNowAddDate y m d w = (t, w1) ->
                          osStat q w1 = osStat q w).

(** What is assumed of the file system for the statements on the token
    cache: a file that was written is read back with what was written,
    and neither writing another file, nor reading any file, nor making a
    directory changes what a path is read as. *)
Definition filesPersist : Prop :=
  (forall p d w w1, osWriteFile p d w = (None, w1) ->
                    fst (osReadFile p w1) = Ok d) /\
  (forall p d w e w1 q, osWriteFile p d w = (e, w1) -> q <> p ->
                        fst (osReadFile q w1) = fst (osReadFile q w)) /\
  (forall p w r w1 q, osReadFile p w = (r, w1) ->
                      fst (osReadFile q w1) = fst (osReadFile q w)) /\
  (forall dir w e w1 q, osMkdirAll dir w = (e, w1) ->
                        fst (osReadFile q w1) = fst (osReadFile q w)).

End SyncHelpers.

(** The part of the client that a refresh never writes. *)
Definition sameIdentity (c c' : Client.t) : Prop :=
  Client.OAuth1 c' = Client.OAuth1 c /\
  Client.Domain c' = Client.Domain c /\
  Client.TokenDir c' = Client.TokenDir c.

Definition isUpload (c : Call) : bool :=
  match c with
  | CallUpload _ => true
  | CallRefresh _ => false
  end.

Definition countUploads (cs : list Call) : nat :=
  List.length (filter isUpload cs).

Definition countRefreshes (cs : list Call) : nat :=
  List.length (filter (fun c => negb (isUpload c)) cs).

(** A part of a version on which [strconv.Atoi] is exact: a numeral that
    fits a Go [int]. *)
Definition fitsPart (part : string) : Prop :=
  isNumeral part /\ numberOf part <= maxInt64.

(** The activity [a] with [recs] in the place of its records. *)
Definition setsRecords (recs : list RecordMesg.t) (a : Activity.t)
  : Activity.t :=
  Activity.mk (Activity.FileId a) (Activity.DeviceInfos a) recs
              (Activity.Laps a) (Activity.Sessions a).

(* ------------------------------------------------------------------ *)
(** ** A world with files                                               *)
(* ------------------------------------------------------------------ *)

(** A world whose file system is a list of files, the most recently
    written first, each with its content and the instant it was written;
    its clock is fixed and its network answers from a script. *)
Record Drive : Type := mkDrive {
  instant : Z;
  files   : list (string * (string * Z));
  wire    : list (result Response.t)
}.

Fixpoint fileAt (fs : list (string * (string * Z))) (path : string)
  : option (string * Z) :=
  match fs with
  | [] => None
  | (p, f) :: rest => if String.eqb p path then Some f else fileAt rest path
  end.

#[global] Instance onDrive : Runtime Drive | 100 := {
  timeNowUnix w := (instant w, w);
  httpNewRequest _ _ := None;
  httpDo _ w :=
    match wire w with
    | r :: rest => (r, mkDrive (instant w) (files w) rest)
    | [] => (Err "dial tcp: network is unreachable"%string, w)
    end;
  osReadFile path w :=
    match fileAt (files w) path with
    | Some (content, _) => (Ok content, w)
    | None => (Err "no such file or directory"%string, w)
    end;
  osMkdirAll _ w := (None, w);
  osWriteFile path content w :=
    (None, mkDrive (instant w) ((path, (content, instant w)) :: files w)
                   (wire w));
  fmtPrintln _ w := w;
  filepathJoin dir name := (dir ++ "/" ++ name)%string;
  urlQueryEscape s := s;
  jsonConsumer body :=
    if String.eqb body "consumer"%string
    then Ok (Consumer.mk "key" "secret")%string
    else Err "invalid character"%string;
  jsonOAuth2 body :=
    if String.eqb body "hour"%string
    then Ok (RawOAuth2.mk "CONNECT_WRITE"%string "jti"%string "Bearer"%string
                          "access"%string "refresh"%string 3600 7200)
    else Err "unexpected end of JSON input"%string;
  jsonMarshal1 t := Ok ("1:" ++ OAuth1Token.OAuthToken t)%string;
  jsonMarshal2 t := Ok ("2:" ++ OAuth2Token.AccessToken t)%string;
  jsonFailures _ := Ok []
}.

Definition someOAuth2At (expiresAt : Z) (access : string) : OAuth2Token.t :=
  OAuth2Token.mk "CONNECT_WRITE"%string "jti"%string "Bearer"%string
                 access "refresh"%string 3600 expiresAt 7200
                 (expiresAt + 3600).

#[global] Instance driveStorage : Storage Drive | 100 := {
  osStat path w :=
    match fileAt (files w) path with
    | Some (_, modTime) => Ok (FileInfo.mk modTime false)
    | None => Err "no such file or directory"%string
    end;
  timeNowAddDate _ _ d w := (instant w + d * 86400, w);
  timeNowFormat _ w := (itoa (instant w), w);
  jsonUnmarshal1 data :=
    if String.eqb data "1:token"%string then Ok someOAuth1
    else Err "invalid character"%string;
  jsonUnmarshal2 data :=
    if String.eqb data "2:old"%string then Ok someOAuth2
    else if String.eqb data "2:access"%string
    then Ok (someOAuth2At 4600 "access")
    else Err "invalid character"%string
}.

Definition drive (now : Z) (fs : list (string * (string * Z)))
  (script : list (result Response.t)) : @Traced Drive :=
  mkTraced (mkMachine (NewClient "/home/u/.tokens") (mkDrive now fs script)) [].

(** A token cache as [SaveTokens] leaves it, written at instant 0. *)
Definition cachedTokens : list (string * (string * Z)) :=
  [("/home/u/.tokens/oauth2_token.json", ("2:old", 0));
   ("/home/u/.tokens/oauth1_token.json", ("1:token", 0))]%string.

(* ================================================================== *)
(** * Properties of the correction pass                                 *)
(* ================================================================== *)

Section MachineArithmetic.

Lemma wrap_small bits x : 0 <= x < 2 ^ bits -> wrap bits x = x.
Proof. intros H. unfold wrap. apply Z.mod_small. exact H. Qed.

Lemma wrap_range bits x : 0 <= bits -> 0 <= wrap bits x < 2 ^ bits.
Proof.
  intros Hb. unfold wrap. apply Z.mod_pos_bound.
  apply Z.pow_pos_nonneg; lia.
Qed.

Lemma wrap_le bits x : 0 <= bits -> 0 <= x -> wrap bits x <= x.
Proof.
  intros Hb Hx. unfold wrap. apply Z.mod_le; [exact Hx|].
  apply Z.pow_pos_nonneg; lia.
Qed.

Lemma wrapS_small x : minInt64 <= x <= maxInt64 -> wrapS 64 x = x.
Proof.
  unfold minInt64, maxInt64, wrapS. intros H.
  change (2 ^ (64 - 1)) with (2 ^ 63).
  rewrite Z.mod_small; [lia|]. change (2 ^ 64) with (2 * 2 ^ 63). lia.
Qed.

Lemma wrap_add_l bits x y : wrap bits (wrap bits x + y) = wrap bits (x + y).
Proof. unfold wrap. apply Zplus_mod_idemp_l. Qed.

Lemma wrap_add_r bits x y : wrap bits (x + wrap bits y) = wrap bits (x + y).
Proof. unfold wrap. apply Zplus_mod_idemp_r. Qed.

Lemma len_nonneg {A} (l : list A) : 0 <= len l.
Proof. unfold len. lia. Qed.

Lemma len_zero_iff {A} (l : list A) : len l = 0 <-> l = [].
Proof.
  unfold len. destruct l; simpl; split; intros H;
    try reflexivity; try discriminate; lia.
Qed.

Lemma len_cons {A} (x : A) l : len (x :: l) = 1 + len l.
Proof. unfold len. simpl List.length. lia. Qed.

End MachineArithmetic.

Section Averaging.

(** The accumulator holds the exact sum modulo 2^64. *)
Lemma sumU64_wrap vals : forall sum,
  wrap 64 (sumU64 vals sum) = wrap 64 (sum + total vals).
Proof.
  induction vals as [|v rest IH]; intros sum; simpl.
  - now rewrite Z.add_0_r.
  - rewrite IH, wrap_add_l.
    replace (sum + wrap 64 v + total rest)
      with (sum + total rest + wrap 64 v) by lia.
    rewrite wrap_add_r. f_equal. lia.
Qed.

Lemma sumU64_uint vals : forall sum,
  is_uint 64 sum -> is_uint 64 (sumU64 vals sum).
Proof.
  induction vals as [|v rest IH]; intros sum Hs; simpl.
  - exact Hs.
  - apply IH. apply wrap_range. lia.
Qed.

Lemma sumU64_total vals : sumU64 vals 0 = wrap 64 (total vals).
Proof.
  rewrite <- (wrap_small 64 (sumU64 vals 0)).
  - now rewrite sumU64_wrap.
  - apply sumU64_uint. unfold is_uint. lia.
Qed.

Lemma total_bounds hi vals :
  Forall (fun v => 0 <= v <= hi) vals ->
  0 <= total vals <= hi * len vals.
Proof.
  induction 1 as [|v rest Hv _ IH]; simpl.
  - unfold len. simpl. lia.
  - rewrite len_cons. lia.
Qed.

(** The quotient computed by the helpers never exceeds the largest
    sample, whether or not the accumulator wrapped. *)
Lemma quotient_le hi vals :
  vals <> [] -> 0 <= hi ->
  Forall (fun v => 0 <= v <= hi) vals ->
  0 <= sumU64 vals 0 / len vals <= hi.
Proof.
  intros Hne Hhi Hall.
  assert (Hlen : 0 < len vals).
  { pose proof (len_nonneg vals). pose proof (len_zero_iff vals). 
    destruct (Z.eq_dec (len vals) 0); [tauto | lia]. }
  pose proof (total_bounds hi vals Hall) as [Ht0 Ht1].
  rewrite sumU64_total.
  pose proof (wrap_range 64 (total vals) ltac:(lia)) as [Hw0 _].
  pose proof (wrap_le 64 (total vals) ltac:(lia) Ht0) as Hw1.
  split.
  - apply Z.div_pos; lia.
  - apply Z.div_le_upper_bound; lia.
Qed.

(** Without a wrap of the accumulator the quotient is the exact mean. *)
Lemma quotient_exact hi vals :
  0 <= hi -> hi * len vals < 2 ^ 64 ->
  Forall (fun v => 0 <= v <= hi) vals ->
  sumU64 vals 0 / len vals = truncMean vals.
Proof.
  intros Hhi Hlen Hall.
  pose proof (total_bounds hi vals Hall) as [Ht0 Ht1].
  rewrite sumU64_total, wrap_small by lia. reflexivity.
Qed.

Lemma divU64_len {A} (vals : list A) q :
  len vals <= maxInt64 ->
  divU64 q (wrap 64 (len vals)) =
  if len vals =? 0 then None else Some (q / len vals).
Proof.
  intros Hmax. pose proof (len_nonneg vals).
  rewrite wrap_small by (unfold maxInt64 in Hmax; lia).
  reflexivity.
Qed.

End Averaging.

Section RecordLoop.

Lemma realSamples_cons sentinel field rec recs :
  realSamples sentinel field (rec :: recs) =
  (if negb (field rec =? sentinel) then [field rec] else [])
    ++ realSamples sentinel field recs.
Proof.
  unfold realSamples. simpl.
  destruct (negb (field rec =? sentinel)); reflexivity.
Qed.

Lemma realSamples_no_sentinel sentinel field recs :
  Forall (fun v => v <> sentinel) (realSamples sentinel field recs).
Proof.
  unfold realSamples. apply Forall_forall. intros v Hin.
  apply filter_In in Hin. destruct Hin as [_ Hv].
  apply negb_true_iff, Z.eqb_neq in Hv. exact Hv.
Qed.

Lemma realSamples_len sentinel field recs :
  len (realSamples sentinel field recs) <= len recs.
Proof.
  unfold realSamples, len.
  pose proof (filter_length_le (fun v => negb (v =? sentinel))
                (map field recs)) as H.
  rewrite length_map in H. lia.
Qed.

Lemma realSamples_Forall (P : Z -> Prop) sentinel field recs :
  Forall (fun r => P (field r)) recs ->
  Forall P (realSamples sentinel field recs).
Proof.
  intros H. unfold realSamples. apply Forall_forall. intros v Hin.
  apply filter_In in Hin. destruct Hin as [Hin _].
  apply in_map_iff in Hin. destruct Hin as [r [<- Hr]].
  rewrite Forall_forall in H. now apply H.
Qed.

(** The record loop appends, to each pool, the real samples of its
    field in record order, and strips every temperature. *)
Lemma recordsLoop_spec recs : forall p,
  recordsLoop recs p =
  (mkPools (powers p ++ realSamples uint16Invalid RecordMesg.Power recs)
           (heartRates p ++ realSamples uint8Invalid RecordMesg.HeartRate recs)
           (cadences p ++ realSamples uint8Invalid RecordMesg.Cadence recs),
   map stripTemperature recs).
Proof.
  induction recs as [|rec rest IH]; intros p.
  - simpl. unfold realSamples. simpl. rewrite !app_nil_r.
    destruct p; reflexivity.
  - cbn [recordsLoop]. unfold recordStep. rewrite IH.
    cbn [powers heartRates cadences map].
    rewrite !realSamples_cons.
    destruct (negb (RecordMesg.Power rec =? uint16Invalid));
      destruct (negb (RecordMesg.HeartRate rec =? uint8Invalid));
      destruct (negb (RecordMesg.Cadence rec =? uint8Invalid));
      rewrite <- ?app_assoc; reflexivity.
Qed.

Lemma recordsLoop_pools recs :
  recordsLoop recs noPools = (poolsOf recs, map stripTemperature recs).
Proof. now rewrite recordsLoop_spec. Qed.

End RecordLoop.

Section SessionLoop.

Lemma sessionStep_fields p s :
  sessionStep p s =
  (pw <-? fixedField shouldFixU16 avgU16 (Session.AvgPower s) (powers p) ;;
   hr <-? fixedField shouldFixU8 avgU8 (Session.AvgHeartRate s) (heartRates p) ;;
   cd <-? fixedField shouldFixU8 avgU8 (Session.AvgCadence s) (cadences p) ;;
   Some (Session.mk (Session.Timestamp s) (Session.StartTime s)
                    (Session.Sport s) pw hr cd)).
Proof.
  unfold sessionStep, fixedField. destruct s as [ts st sp pw hr cd]. cbn.
  destruct (shouldFixU16 pw && (len (powers p) >? 0));
    [destruct (avgU16 (powers p)); [|reflexivity]|]; cbn;
    (destruct (shouldFixU8 hr && (len (heartRates p) >? 0));
     [destruct (avgU8 (heartRates p)); [|reflexivity]|]); cbn;
    (destruct (shouldFixU8 cd && (len (cadences p) >? 0));
     [destruct (avgU8 (cadences p)); reflexivity|]); reflexivity.
Qed.

Lemma sessionsLoop_Forall2 p ss : forall ss',
  sessionsLoop p ss = Some ss' <->
  Forall2 (fun s s' => sessionStep p s = Some s') ss ss'.
Proof.
  induction ss as [|s rest IH]; intros ss'; simpl.
  - split.
    + intros H. injection H as <-. constructor.
    + intros H. inversion H. reflexivity.
  - split.
    + intros H. destruct (sessionStep p s) as [s1|] eqn:Es; [|discriminate].
      cbn in H. destruct (sessionsLoop p rest) as [rest1|] eqn:Er;
        [|discriminate].
      cbn in H. injection H as <-. constructor; [exact Es|].
      now apply IH.
    + intros H. inversion H as [|s0 s1 l0 rest1 Hs Hr]; subst.
      rewrite Hs. cbn. apply IH in Hr. rewrite Hr. reflexivity.
Qed.

Lemma sessionsLoop_total p ss :
  (forall s, exists s', sessionStep p s = Some s') ->
  exists ss', sessionsLoop p ss = Some ss'.
Proof.
  intros Hstep. induction ss as [|s rest [rest1 IH]]; simpl.
  - now exists [].
  - destruct (Hstep s) as [s1 Hs]. rewrite Hs, IH. cbn. now eexists.
Qed.

End SessionLoop.

Section Helpers.

Lemma avgU16_bits vals : avgU16 vals = avgBits 16 vals.
Proof. reflexivity. Qed.

Lemma avgU8_bits vals : avgU8 vals = avgBits 8 vals.
Proof. reflexivity. Qed.

Lemma nonempty_len {A} (l : list A) : l <> [] -> 0 < len l.
Proof.
  intros Hne. pose proof (len_nonneg l). pose proof (len_zero_iff l).
  destruct (Z.eq_dec (len l) 0); [tauto | lia].
Qed.

(** On a non-empty pool of samples below the sentinel [2^bits - 1] the
    helper returns the 64-bit quotient itself, and it is below the
    sentinel. *)
Lemma avgBits_below bits vals :
  0 < bits -> vals <> [] -> len vals <= maxInt64 ->
  Forall (fun v => 0 <= v < 2 ^ bits - 1) vals ->
  exists q, avgBits bits vals = Some q /\
            q = sumU64 vals 0 / len vals /\ 0 <= q < 2 ^ bits - 1.
Proof.
  intros Hb Hne Hmax Hall.
  pose proof (nonempty_len vals Hne) as Hlen.
  assert (Hpow : 2 ^ 1 <= 2 ^ bits) by (apply Z.pow_le_mono_r; lia).
  change (2 ^ 1) with 2 in Hpow.
  assert (Hq : 0 <= sumU64 vals 0 / len vals <= 2 ^ bits - 2).
  { apply quotient_le; [exact Hne | lia |].
    eapply Forall_impl; [|exact Hall]. cbn. intros; lia. }
  exists (sumU64 vals 0 / len vals).
  unfold avgBits. rewrite divU64_len by exact Hmax.
  destruct (len vals =? 0) eqn:E; [apply Z.eqb_eq in E; lia|].
  rewrite wrap_small by lia. repeat split; lia.
Qed.

(** On a non-empty pool of fewer than [maxSamples] values of the
    field's width the helper returns the exact truncating mean. *)
Lemma avgBits_mean bits vals :
  0 < bits <= 16 -> vals <> [] -> len vals < maxSamples ->
  Forall (is_uint bits) vals ->
  avgBits bits vals = Some (truncMean vals).
Proof.
  intros Hb Hne Hmax Hall.
  pose proof (nonempty_len vals Hne) as Hlen.
  assert (Hpow : 0 < 2 ^ bits <= 2 ^ 16).
  { split; [apply Z.pow_pos_nonneg; lia | apply Z.pow_le_mono_r; lia]. }
  assert (Hall' : Forall (fun v => 0 <= v <= 2 ^ bits - 1) vals).
  { eapply Forall_impl; [|exact Hall]. unfold is_uint. cbn. intros; lia. }
  unfold maxSamples in Hmax.
  assert (Hprod : (2 ^ bits - 1) * len vals < 2 ^ 64).
  { change (2 ^ 64) with (2 ^ 16 * 2 ^ 48). nia. }
  pose proof (quotient_le (2 ^ bits - 1) vals Hne ltac:(lia) Hall') as Hq.
  rewrite (quotient_exact (2 ^ bits - 1) vals ltac:(lia) Hprod Hall') in Hq.
  unfold avgBits. rewrite divU64_len by (unfold maxInt64; lia).
  destruct (len vals =? 0) eqn:E; [apply Z.eqb_eq in E; lia|].
  rewrite (quotient_exact (2 ^ bits - 1) vals ltac:(lia) Hprod Hall').
  rewrite wrap_small by lia. reflexivity.
Qed.

Lemma avgBits_total bits vals :
  vals <> [] -> len vals <= maxInt64 ->
  exists q, avgBits bits vals = Some q.
Proof.
  intros Hne Hmax. pose proof (nonempty_len vals Hne) as Hlen.
  unfold avgBits. rewrite divU64_len by exact Hmax.
  destruct (len vals =? 0) eqn:E; [apply Z.eqb_eq in E; lia|].
  now eexists.
Qed.

Lemma gtb_len_nonempty {A} (l : list A) :
  (len l >? 0) = true -> l <> [].
Proof.
  intros H Hnil. subst l. discriminate H.
Qed.

Lemma fixedField_total sf bits cur pool :
  len pool <= maxInt64 ->
  exists v, fixedField sf (avgBits bits) cur pool = Some v.
Proof.
  intros Hmax. unfold fixedField.
  destruct (sf cur && (len pool >? 0)) eqn:E; [|now eexists].
  apply andb_true_iff in E. destruct E as [_ E].
  apply avgBits_total; [now apply gtb_len_nonempty | exact Hmax].
Qed.

Lemma fixedField_idem sf avg cur pool v :
  fixedField sf avg cur pool = Some v ->
  fixedField sf avg v pool = Some v.
Proof.
  unfold fixedField. intros H.
  destruct (sf cur && (len pool >? 0)) eqn:E.
  - destruct (sf v && (len pool >? 0)); [exact H | reflexivity].
  - injection H as <-. rewrite E. reflexivity.
Qed.

Lemma fixedField_keep sf avg cur pool :
  sf cur = false \/ pool = [] ->
  fixedField sf avg cur pool = Some cur.
Proof.
  unfold fixedField. intros [H | H].
  - rewrite H. reflexivity.
  - subst pool. rewrite andb_false_r. reflexivity.
Qed.

Lemma poolsOf_strip recs : poolsOf (map stripTemperature recs) = poolsOf recs.
Proof.
  unfold poolsOf, realSamples. rewrite !map_map. reflexivity.
Qed.

Lemma spoofDeviceInfos_idem dis :
  spoofDeviceInfos (spoofDeviceInfos dis) = spoofDeviceInfos dis.
Proof.
  induction dis as [|d rest IH]; simpl; [reflexivity|].
  rewrite IH. reflexivity.
Qed.

Lemma poolsOf_len recs :
  len recs <= maxInt64 ->
  len (powers (poolsOf recs)) <= maxInt64 /\
  len (heartRates (poolsOf recs)) <= maxInt64 /\
  len (cadences (poolsOf recs)) <= maxInt64.
Proof.
  intros H. unfold poolsOf; cbn [powers heartRates cadences].
  pose proof (realSamples_len uint16Invalid RecordMesg.Power recs).
  pose proof (realSamples_len uint8Invalid RecordMesg.HeartRate recs).
  pose proof (realSamples_len uint8Invalid RecordMesg.Cadence recs).
  lia.
Qed.

Lemma sessionStep_total recs s :
  len recs <= maxInt64 ->
  exists s', sessionStep (poolsOf recs) s = Some s'.
Proof.
  intros Hmax. destruct (poolsOf_len recs Hmax) as [Hp [Hh Hc]].
  rewrite sessionStep_fields.
  change avgU16 with (avgBits 16). change avgU8 with (avgBits 8).
  destruct (fixedField_total shouldFixU16 16 (Session.AvgPower s) _ Hp)
    as [pw ->].
  destruct (fixedField_total shouldFixU8 8 (Session.AvgHeartRate s) _ Hh)
    as [hr Ehr].
  destruct (fixedField_total shouldFixU8 8 (Session.AvgCadence s) _ Hc)
    as [cd Ecd].
  cbn [bindP]. rewrite Ehr. cbn [bindP]. rewrite Ecd. cbn [bindP].
  now eexists.
Qed.

Lemma sessionStep_idem p s s' :
  sessionStep p s = Some s' -> sessionStep p s' = Some s'.
Proof.
  rewrite !sessionStep_fields. intros H.
  destruct (fixedField shouldFixU16 avgU16 (Session.AvgPower s) (powers p))
    as [pw|] eqn:Epw; [|discriminate]. cbn in H.
  destruct (fixedField shouldFixU8 avgU8 (Session.AvgHeartRate s) (heartRates p))
    as [hr|] eqn:Ehr; [|discriminate]. cbn in H.
  destruct (fixedField shouldFixU8 avgU8 (Session.AvgCadence s) (cadences p))
    as [cd|] eqn:Ecd; [|discriminate]. cbn in H.
  injection H as <-.
  cbn [Session.AvgPower Session.AvgHeartRate Session.AvgCadence].
  rewrite (fixedField_idem _ _ _ _ _ Epw). cbn [bindP].
  rewrite (fixedField_idem _ _ _ _ _ Ehr). cbn [bindP].
  rewrite (fixedField_idem _ _ _ _ _ Ecd). reflexivity.
Qed.

(** The correction pass in terms of the expected pools. *)
Lemma correct_spec a :
  correct a =
  (sess <-? sessionsLoop (poolsOf (Activity.Records a)) (Activity.Sessions a) ;;
   Some (Activity.mk (spoofFileId (Activity.FileId a))
                     (spoofDeviceInfos (Activity.DeviceInfos a))
                     (map stripTemperature (Activity.Records a))
                     (Activity.Laps a) sess)).
Proof. unfold correct. rewrite recordsLoop_pools. reflexivity. Qed.

(** The correction pass never panics, and relates every session to its
    corrected version through [sessionStep]. *)
Lemma correct_total a :
  wf_activity a ->
  exists sess,
    Forall2 (fun s s' => sessionStep (poolsOf (Activity.Records a)) s = Some s')
            (Activity.Sessions a) sess /\
    correct a =
    Some (Activity.mk (spoofFileId (Activity.FileId a))
                      (spoofDeviceInfos (Activity.DeviceInfos a))
                      (map stripTemperature (Activity.Records a))
                      (Activity.Laps a) sess).
Proof.
  intros [_ [_ Hmax]].
  destruct (sessionsLoop_total (poolsOf (Activity.Records a))
              (Activity.Sessions a)) as [sess Hs].
  { intros s. now apply sessionStep_total. }
  exists sess. split.
  - now apply sessionsLoop_Forall2.
  - rewrite correct_spec, Hs. reflexivity.
Qed.

End Helpers.

Section FieldFacts.

Lemma shouldFixU16_true v :
  shouldFixU16 v = true <-> v = uint16Invalid \/ v = 0.
Proof.
  unfold shouldFixU16. rewrite orb_true_iff, !Z.eqb_eq. reflexivity.
Qed.

Lemma shouldFixU8_true v :
  shouldFixU8 v = true <-> v = uint8Invalid \/ v = 0.
Proof.
  unfold shouldFixU8. rewrite orb_true_iff, !Z.eqb_eq. reflexivity.
Qed.

Lemma shouldFix_false (sf : Z -> bool) sentinel v :
  (forall x, sf x = true <-> x = sentinel \/ x = 0) ->
  v <> sentinel /\ v <> 0 -> sf v = false.
Proof.
  intros Hsf [H1 H2]. destruct (sf v) eqn:E; [|reflexivity].
  apply Hsf in E. tauto.
Qed.

Variable sf : Z -> bool.
Variable sentinel bits : Z.
Hypothesis sf_true : forall x, sf x = true <-> x = sentinel \/ x = 0.
Hypothesis sentinel_bits : sentinel = 2 ^ bits - 1.

Lemma fixedField_meanWritten cur pool v :
  0 < bits <= 16 -> Forall (is_uint bits) pool -> len pool < maxSamples ->
  fixedField sf (avgBits bits) cur pool = Some v ->
  meanWritten sentinel cur v pool.
Proof.
  intros Hb Hall Hmax Hv Hcur Hne. unfold fixedField in Hv.
  apply sf_true in Hcur. rewrite Hcur in Hv.
  pose proof (nonempty_len pool Hne) as Hlen.
  apply Z.gtb_lt in Hlen. rewrite Hlen in Hv. cbn [andb] in Hv.
  rewrite (avgBits_mean bits pool Hb Hne Hmax Hall) in Hv.
  now injection Hv as <-.
Qed.

Lemma fixedField_keptValid avg cur pool v :
  fixedField sf avg cur pool = Some v ->
  keptValid sentinel cur v pool.
Proof.
  intros Hv Hcase. rewrite fixedField_keep in Hv.
  - now injection Hv as <-.
  - destruct Hcase as [Hvalid | Hnil]; [left | now right].
    now apply (shouldFix_false sf sentinel).
Qed.

Lemma fixedField_noSentinel cur pool v :
  0 < bits -> len pool <= maxInt64 ->
  Forall (fun x => is_uint bits x /\ x <> sentinel) pool ->
  fixedField sf (avgBits bits) cur pool = Some v ->
  noSentinelWritten sentinel cur v.
Proof.
  intros Hb Hmax Hall Hv. unfold fixedField in Hv.
  destruct (sf cur && (len pool >? 0)) eqn:E.
  - right. apply andb_true_iff in E. destruct E as [_ E].
    apply gtb_len_nonempty in E.
    destruct (avgBits_below bits pool Hb E Hmax) as [q [Hq [_ Hrange]]].
    { eapply Forall_impl; [|exact Hall]. unfold is_uint. cbn.
      intros x [Hx Hs]. lia. }
    rewrite Hq in Hv. injection Hv as <-. lia.
  - left. now injection Hv as <-.
Qed.

End FieldFacts.

Section SessionFacts.

Lemma sessionStep_inv p s s' :
  sessionStep p s = Some s' ->
  fixedField shouldFixU16 (avgBits 16) (Session.AvgPower s) (powers p)
    = Some (Session.AvgPower s') /\
  fixedField shouldFixU8 (avgBits 8) (Session.AvgHeartRate s) (heartRates p)
    = Some (Session.AvgHeartRate s') /\
  fixedField shouldFixU8 (avgBits 8) (Session.AvgCadence s) (cadences p)
    = Some (Session.AvgCadence s') /\
  Session.Timestamp s' = Session.Timestamp s /\
  Session.StartTime s' = Session.StartTime s /\
  Session.Sport s' = Session.Sport s.
Proof.
  rewrite sessionStep_fields.
  change avgU16 with (avgBits 16). change avgU8 with (avgBits 8).
  intros H.
  destruct (fixedField shouldFixU16 (avgBits 16) _ _) as [pw|];
    [|discriminate]. cbn [bindP] in H.
  destruct (fixedField shouldFixU8 (avgBits 8) (Session.AvgHeartRate s) _)
    as [hr|]; [|discriminate]. cbn [bindP] in H.
  destruct (fixedField shouldFixU8 (avgBits 8) (Session.AvgCadence s) _)
    as [cd|]; [|discriminate]. cbn [bindP] in H.
  injection H as <-. cbn. repeat split; reflexivity.
Qed.

Lemma uint16Invalid_val : uint16Invalid = 2 ^ 16 - 1.
Proof. reflexivity. Qed.

Lemma uint8Invalid_val : uint8Invalid = 2 ^ 8 - 1.
Proof. reflexivity. Qed.

Variable a : Activity.t.
Hypothesis a_wf : wf_activity a.

Let recs := Activity.Records a.

Lemma pool_power_uint : Forall (is_uint 16) (powers (poolsOf recs)).
Proof.
  destruct a_wf as [Hr _]. apply realSamples_Forall.
  eapply Forall_impl; [|exact Hr]. intros r Hw. apply Hw.
Qed.

Lemma pool_heartRate_uint : Forall (is_uint 8) (heartRates (poolsOf recs)).
Proof.
  destruct a_wf as [Hr _]. apply realSamples_Forall.
  eapply Forall_impl; [|exact Hr]. intros r Hw. apply Hw.
Qed.

Lemma pool_cadence_uint : Forall (is_uint 8) (cadences (poolsOf recs)).
Proof.
  destruct a_wf as [Hr _]. apply realSamples_Forall.
  eapply Forall_impl; [|exact Hr]. intros r Hw. apply Hw.
Qed.

Lemma pool_power_real :
  Forall (fun x => is_uint 16 x /\ x <> uint16Invalid) (powers (poolsOf recs)).
Proof.
  apply Forall_and; [exact pool_power_uint|].
  apply realSamples_no_sentinel.
Qed.

Lemma pool_heartRate_real :
  Forall (fun x => is_uint 8 x /\ x <> uint8Invalid) (heartRates (poolsOf recs)).
Proof.
  apply Forall_and; [exact pool_heartRate_uint|].
  apply realSamples_no_sentinel.
Qed.

Lemma pool_cadence_real :
  Forall (fun x => is_uint 8 x /\ x <> uint8Invalid) (cadences (poolsOf recs)).
Proof.
  apply Forall_and; [exact pool_cadence_uint|].
  apply realSamples_no_sentinel.
Qed.

(** Whatever holds of every step of the session loop holds between the
    sessions before and after correction; the rest of the corrected
    activity is determined. *)
Lemma correct_sessions (Q : Session.t -> Session.t -> Prop) :
  (forall s s', sessionStep (poolsOf recs) s = Some s' -> Q s s') ->
  exists a',
    correct a = Some a' /\
    Forall2 Q (Activity.Sessions a) (Activity.Sessions a') /\
    Activity.Records a' = map stripTemperature recs /\
    Activity.FileId a' = spoofFileId (Activity.FileId a) /\
    Activity.DeviceInfos a' = spoofDeviceInfos (Activity.DeviceInfos a) /\
    Activity.Laps a' = Activity.Laps a.
Proof.
  intros HQ. destruct (correct_total a a_wf) as [sess [Hstep Hrun]].
  eexists. split; [exact Hrun|]. cbn.
  repeat split. eapply Forall2_impl; [|exact Hstep]. exact HQ.
Qed.

End SessionFacts.

Lemma Forall2_diag {A B} (R : A -> B -> Prop) (S : B -> B -> Prop) l l' :
  (forall x y, R x y -> S y y) -> Forall2 R l l' -> Forall2 S l' l'.
Proof.
  intros HRS H. induction H as [|x y l l' Hxy _ IH]; constructor; eauto.
Qed.

Lemma scenario_wf : wf_activity scenario.
Proof.
  unfold wf_activity, scenario, wf_record, wf_session, is_uint, is_sint.
  cbn -[Z.pow]. repeat split; repeat constructor; cbn; try lia;
    try discriminate.
Qed.

Lemma mixed_wf : wf_activity mixed.
Proof.
  unfold wf_activity, mixed, wf_record, wf_session, is_uint, is_sint.
  cbn -[Z.pow]. repeat split; repeat constructor; cbn; try lia;
    try discriminate.
Qed.

(** The end-to-end scenario of the design document. *)
Example scenario_corrected :
  correct scenario =
  Some (Activity.mk (FileId.mk 1 3288 3420897194 1000)
          [DeviceInfo.mk 1 3288 3420897194 0; DeviceInfo.mk 1 3288 3420897194 1]
          (map (fun i => RecordMesg.mk (1000 + i) 200 150 90 127)
               [0; 1; 2; 3; 4; 5; 6; 7; 8; 9])
          [Lap.mk 1010 1000]
          [Session.mk 1010 1000 2 200 150 90]).
Proof. vm_compute. reflexivity. Qed.

Example mixed_corrected :
  correct mixed =
  Some (Activity.mk (FileId.mk 1 3288 3420897194 1000)
          [DeviceInfo.mk 1 3288 3420897194 0]
          [RecordMesg.mk 1 100 255 80 127;
           RecordMesg.mk 2 65535 141 255 127;
           RecordMesg.mk 3 201 150 91 127]
          []
          [Session.mk 4 1 2 180 145 85;
           Session.mk 4 1 2 150 145 77]).
Proof. vm_compute. reflexivity. Qed.

(* ------------------------------------------------------------------ *)
(** ** Derived averages                                                 *)
(* ------------------------------------------------------------------ *)

(** C2.  For an activity whose records mix sentinel and real samples, the
    pools built by the record loop are exactly the non-sentinel samples of
    each field, in record order, and every session aggregate (average
    power, heart rate, cadence) that is the sentinel or exactly zero and
    whose pool is non-empty holds, after correction, the truncating
    integer mean (exact sum divided by count) of that pool.  The record
    count is below [maxSamples], so that the 64-bit accumulator holds the
    exact sum. *)
Theorem average_is_mean_of_real_samples (a : Activity.t) :
  wf_activity a ->
  len (Activity.Records a) < maxSamples ->
  let pools := fst (recordsLoop (Activity.Records a) noPools) in
  pools = poolsOf (Activity.Records a) /\
  (Forall (fun v => v <> uint16Invalid) (powers pools) /\
   Forall (fun v => v <> uint8Invalid) (heartRates pools) /\
   Forall (fun v => v <> uint8Invalid) (cadences pools)) /\
  exists a', correct a = Some a' /\ eachAggregate meanWritten a a'.
Proof.
  intros Hwf Hmax pools. subst pools. rewrite recordsLoop_pools. cbn [fst].
  split; [reflexivity|].
  split; [repeat split; apply realSamples_no_sentinel|].
  pose proof (realSamples_len uint16Invalid RecordMesg.Power
                (Activity.Records a)) as Lp.
  pose proof (realSamples_len uint8Invalid RecordMesg.HeartRate
                (Activity.Records a)) as Lh.
  pose proof (realSamples_len uint8Invalid RecordMesg.Cadence
                (Activity.Records a)) as Lc.
  destruct (correct_sessions a Hwf
              (fun s s' =>
         meanWritten uint16Invalid (Session.AvgPower s) (Session.AvgPower s')
           (realSamples uint16Invalid RecordMesg.Power (Activity.Records a)) /\
         meanWritten uint8Invalid
           (Session.AvgHeartRate s) (Session.AvgHeartRate s')
           (realSamples uint8Invalid RecordMesg.HeartRate (Activity.Records a)) /\
         meanWritten uint8Invalid
           (Session.AvgCadence s) (Session.AvgCadence s')
           (realSamples uint8Invalid RecordMesg.Cadence (Activity.Records a))))
    as [a' [Hrun [Hsess _]]].
  - intros s s' Hstep. apply sessionStep_inv in Hstep.
    destruct Hstep as [Hp [Hh [Hc _]]].
    split; [|split].
    + eapply (fixedField_meanWritten shouldFixU16 uint16Invalid 16);
        [exact shouldFixU16_true | lia | apply (pool_power_uint a Hwf)
        | cbn [powers poolsOf]; lia | exact Hp].
    + eapply (fixedField_meanWritten shouldFixU8 uint8Invalid 8);
        [exact shouldFixU8_true | lia | apply (pool_heartRate_uint a Hwf)
        | cbn [heartRates poolsOf]; lia | exact Hh].
    + eapply (fixedField_meanWritten shouldFixU8 uint8Invalid 8);
        [exact shouldFixU8_true | lia | apply (pool_cadence_uint a Hwf)
        | cbn [cadences poolsOf]; lia | exact Hc].
  - exists a'. split; [exact Hrun | exact Hsess].
Qed.

Lemma average_is_mean_of_real_samples_witness :
  let pools := fst (recordsLoop (Activity.Records mixed) noPools) in
  pools = poolsOf (Activity.Records mixed) /\
  (Forall (fun v => v <> uint16Invalid) (powers pools) /\
   Forall (fun v => v <> uint8Invalid) (heartRates pools) /\
   Forall (fun v => v <> uint8Invalid) (cadences pools)) /\
  exists a', correct mixed = Some a' /\ eachAggregate meanWritten mixed a'.
Proof.
  apply (average_is_mean_of_real_samples mixed).
  - exact mixed_wf.
  - vm_compute. reflexivity.
Defined.

(* ------------------------------------------------------------------ *)
(** ** Idempotence                                                      *)
(* ------------------------------------------------------------------ *)

(** C3.  The correction pass is idempotent: correcting a decoded activity
    succeeds, and correcting the result again returns that same result,
    with the same record fields, session aggregates and device
    identities; every record temperature of the result is the signed
    8-bit sentinel. *)
Theorem correction_idempotent (a : Activity.t) :
  wf_activity a ->
  exists a',
    correct a = Some a' /\
    correct a' = Some a' /\
    Forall (fun r => RecordMesg.Temperature r = sint8Invalid)
           (Activity.Records a').
Proof.
  intros Hwf. destruct (correct_total a Hwf) as [sess [Hstep Hrun]].
  eexists. split; [exact Hrun|]. split.
  - rewrite correct_spec. cbn [Activity.Records Activity.Sessions
      Activity.FileId Activity.DeviceInfos Activity.Laps].
    rewrite poolsOf_strip.
    assert (Hagain : sessionsLoop (poolsOf (Activity.Records a)) sess
                     = Some sess).
    { apply sessionsLoop_Forall2.
      eapply Forall2_diag; [|exact Hstep].
      intros s s' Hs. exact (sessionStep_idem _ _ _ Hs). }
    rewrite Hagain. cbn [bindP].
    rewrite spoofDeviceInfos_idem, map_map. reflexivity.
  - cbn [Activity.Records]. apply Forall_forall. intros r Hin.
    apply in_map_iff in Hin. destruct Hin as [r0 [<- _]]. reflexivity.
Qed.

Lemma correction_idempotent_witness :
  exists a',
    correct scenario = Some a' /\
    correct a' = Some a' /\
    Forall (fun r => RecordMesg.Temperature r = sint8Invalid)
           (Activity.Records a').
Proof.
  apply (correction_idempotent scenario). exact scenario_wf.
Defined.

(* ------------------------------------------------------------------ *)
(** ** Valid aggregates are kept                                        *)
(* ------------------------------------------------------------------ *)

(** C4.  A session aggregate (average power, heart rate, cadence) that is
    neither its field's sentinel nor zero is left unchanged by correction
    whatever the sample pools hold, and an aggregate whose pool is empty
    is left unchanged whatever its value. *)
Theorem valid_average_never_overwritten (a : Activity.t) :
  wf_activity a ->
  exists a', correct a = Some a' /\ eachAggregate keptValid a a'.
Proof.
  intros Hwf.
  destruct (correct_sessions a Hwf
    (fun s s' =>
       keptValid uint16Invalid (Session.AvgPower s) (Session.AvgPower s')
         (realSamples uint16Invalid RecordMesg.Power (Activity.Records a)) /\
       keptValid uint8Invalid (Session.AvgHeartRate s) (Session.AvgHeartRate s')
         (realSamples uint8Invalid RecordMesg.HeartRate (Activity.Records a)) /\
       keptValid uint8Invalid (Session.AvgCadence s) (Session.AvgCadence s')
         (realSamples uint8Invalid RecordMesg.Cadence (Activity.Records a))))
    as [a' [Hrun [Hsess _]]].
  - intros s s' Hstep. apply sessionStep_inv in Hstep.
    destruct Hstep as [Hp [Hh [Hc _]]].
    split; [|split].
    + exact (fixedField_keptValid _ _ shouldFixU16_true _ _ _ _ Hp).
    + exact (fixedField_keptValid _ _ shouldFixU8_true _ _ _ _ Hh).
    + exact (fixedField_keptValid _ _ shouldFixU8_true _ _ _ _ Hc).
  - exists a'. split; [exact Hrun | exact Hsess].
Qed.

Lemma valid_average_never_overwritten_witness :
  exists a', correct mixed = Some a' /\ eachAggregate keptValid mixed a'.
Proof.
  apply (valid_average_never_overwritten mixed). exact mixed_wf.
Defined.

(* ------------------------------------------------------------------ *)
(** ** Device identity                                                  *)
(* ------------------------------------------------------------------ *)

Lemma spoofDeviceInfos_identity dis :
  Forall (fun d => deviceIdentity d = spoofTriple) (spoofDeviceInfos dis) /\
  List.length (spoofDeviceInfos dis) = List.length dis /\
  map DeviceInfo.DeviceIndex (spoofDeviceInfos dis)
    = map DeviceInfo.DeviceIndex dis.
Proof.
  induction dis as [|d rest [IH1 [IH2 IH3]]]; simpl.
  - repeat split. constructor.
  - repeat split.
    + constructor; [reflexivity | exact IH1].
    + now rewrite IH2.
    + now rewrite IH3.
Qed.

(** C5.  After correction of an activity the file-level identity and
    every device-identity entry hold the same fixed triple (manufacturer
    1, product 3288, serial number 3420897194), whatever they held before;
    there are as many device entries as before. *)
Theorem spoofed_identity_everywhere (a : Activity.t) :
  wf_activity a ->
  exists a',
    correct a = Some a' /\
    fileIdentity (Activity.FileId a') = spoofTriple /\
    Forall (fun d => deviceIdentity d = spoofTriple)
           (Activity.DeviceInfos a') /\
    List.length (Activity.DeviceInfos a')
      = List.length (Activity.DeviceInfos a) /\
    spoofTriple = (1, 3288, 3420897194).
Proof.
  intros Hwf. destruct (correct_total a Hwf) as [sess [_ Hrun]].
  eexists. split; [exact Hrun|].
  cbn [Activity.FileId Activity.DeviceInfos].
  destruct (spoofDeviceInfos_identity (Activity.DeviceInfos a))
    as [Hall [Hlen _]].
  repeat split; try assumption.
Qed.

Lemma spoofed_identity_everywhere_witness :
  exists a',
    correct scenario = Some a' /\
    fileIdentity (Activity.FileId a') = spoofTriple /\
    Forall (fun d => deviceIdentity d = spoofTriple)
           (Activity.DeviceInfos a') /\
    List.length (Activity.DeviceInfos a')
      = List.length (Activity.DeviceInfos scenario) /\
    spoofTriple = (1, 3288, 3420897194).
Proof.
  apply (spoofed_identity_everywhere scenario). exact scenario_wf.
Defined.

(* ------------------------------------------------------------------ *)
(** ** The division in the averaging helpers                            *)
(* ------------------------------------------------------------------ *)

(** C9.  The averaging helpers divide the accumulated sum by the pool
    length: on an empty pool the division panics, and on every non-empty
    pool (of fewer than [maxSamples] values of the field's width) they
    return the truncating mean.  The correction pass calls a helper only
    when its pool is non-empty: it never panics, and with empty pools it
    returns every session as it was. *)
Theorem averaging_division_guarded :
  (avgU16 [] = None /\ avgU8 [] = None) /\
  (forall a, wf_activity a ->
             exists a', correct a = Some a' /\
                        fixFitFile (Ok (FileActivity a)) = Some (Ok a')) /\
  (forall s, sessionStep noPools s = Some s) /\
  (forall vals, vals <> [] -> len vals < maxSamples ->
                Forall (is_uint 16) vals ->
                avgU16 vals = Some (truncMean vals)) /\
  (forall vals, vals <> [] -> len vals < maxSamples ->
                Forall (is_uint 8) vals ->
                avgU8 vals = Some (truncMean vals)).
Proof.
  split; [split; reflexivity|]. split; [|split; [|split]].
  - intros a Hwf. destruct (correct_total a Hwf) as [sess [_ Hrun]].
    eexists. split; [exact Hrun|].
    cbn [fixFitFile]. rewrite Hrun. reflexivity.
  - intros s. rewrite sessionStep_fields.
    rewrite !fixedField_keep by (now right). destruct s; reflexivity.
  - intros vals Hne Hmax Hall. rewrite avgU16_bits.
    apply avgBits_mean; [lia | exact Hne | exact Hmax | exact Hall].
  - intros vals Hne Hmax Hall. rewrite avgU8_bits.
    apply avgBits_mean; [lia | exact Hne | exact Hmax | exact Hall].
Qed.

Lemma averaging_division_guarded_witness :
  (exists a', correct mixed = Some a' /\
              fixFitFile (Ok (FileActivity mixed)) = Some (Ok a')) /\
  avgU16 [100; 201] = Some (truncMean [100; 201]) /\
  avgU8 [141; 150] = Some (truncMean [141; 150]).
Proof.
  destruct averaging_division_guarded as [_ [Htotal [_ [H16 H8]]]].
  split; [apply (Htotal mixed), mixed_wf|]. split.
  - apply H16; [discriminate | vm_compute; reflexivity |].
    repeat constructor; unfold is_uint; cbn; lia.
  - apply H8; [discriminate | vm_compute; reflexivity |].
    repeat constructor; unfold is_uint; cbn; lia.
Defined.

(* ------------------------------------------------------------------ *)
(** ** No sentinel is written                                            *)
(* ------------------------------------------------------------------ *)

Lemma truncMean_le hi pool :
  pool <> [] -> Forall (fun v => 0 <= v <= hi) pool ->
  0 <= truncMean pool <= hi.
Proof.
  intros Hne Hall. pose proof (nonempty_len pool Hne) as Hlen.
  pose proof (total_bounds hi pool Hall) as [Ht0 Ht1].
  unfold truncMean. split.
  - apply Z.div_pos; lia.
  - apply Z.div_le_upper_bound; lia.
Qed.

Lemma real_pool_narrows bits avg pool :
  0 < bits -> (forall vals, avg vals = avgBits bits vals) ->
  len pool <= maxInt64 ->
  Forall (fun x => is_uint bits x /\ x <> 2 ^ bits - 1) pool ->
  belowSentinel (2 ^ bits - 1) pool /\
  narrowsExactly avg (2 ^ bits - 1) pool.
Proof.
  intros Hb Havg Hmax Hall.
  assert (Hbelow : belowSentinel (2 ^ bits - 1) pool).
  { unfold belowSentinel. eapply Forall_impl; [|exact Hall].
    unfold is_uint. cbv beta. intros x [Hx Hs]. lia. }
  split; [exact Hbelow|]. intros Hne.
  destruct (avgBits_below bits pool Hb Hne Hmax Hbelow) as [q [Hq [Eq Hr]]].
  exists q. rewrite Havg. split; [exact Hq|]. split; [exact Eq|].
  split; [exact Hr|].
  assert (Hle : 0 <= truncMean pool <= 2 ^ bits - 2).
  { apply truncMean_le; [exact Hne|].
    eapply Forall_impl; [|exact Hbelow]. cbv beta. intros; lia. }
  lia.
Qed.

(** C10.  Correction never writes a sentinel into a session aggregate.
    Every sample collected by the record loop is below its field's
    sentinel (0xFFFF for the 16-bit field, 0xFF for the 8-bit fields), so
    on a non-empty pool the truncating mean and the 64-bit quotient
    computed by the helper are below the sentinel, the narrowing
    conversion returns the quotient unchanged, and each aggregate of a
    corrected session is either untouched or below the sentinel. *)
Theorem no_sentinel_written (a : Activity.t) :
  wf_activity a ->
  let pools := fst (recordsLoop (Activity.Records a) noPools) in
  (belowSentinel uint16Invalid (powers pools) /\
   belowSentinel uint8Invalid (heartRates pools) /\
   belowSentinel uint8Invalid (cadences pools)) /\
  (narrowsExactly avgU16 uint16Invalid (powers pools) /\
   narrowsExactly avgU8 uint8Invalid (heartRates pools) /\
   narrowsExactly avgU8 uint8Invalid (cadences pools)) /\
  exists a',
    correct a = Some a' /\
    eachAggregate (fun sentinel cur new _ => noSentinelWritten sentinel cur new)
                  a a'.
Proof.
  intros Hwf pools. subst pools. rewrite recordsLoop_pools. cbn [fst].
  pose proof (pool_power_real a Hwf) as Rp.
  pose proof (pool_heartRate_real a Hwf) as Rh.
  pose proof (pool_cadence_real a Hwf) as Rc.
  destruct (poolsOf_len (Activity.Records a)) as [Lp [Lh Lc]];
    [apply Hwf|].
  destruct (real_pool_narrows 16 avgU16 _ ltac:(lia) avgU16_bits Lp Rp)
    as [Bp Np].
  destruct (real_pool_narrows 8 avgU8 _ ltac:(lia) avgU8_bits Lh Rh)
    as [Bh Nh].
  destruct (real_pool_narrows 8 avgU8 _ ltac:(lia) avgU8_bits Lc Rc)
    as [Bc Nc].
  split; [now repeat split|]. split; [now repeat split|].
  destruct (correct_sessions a Hwf
    (fun s s' =>
       noSentinelWritten uint16Invalid
         (Session.AvgPower s) (Session.AvgPower s') /\
       noSentinelWritten uint8Invalid
         (Session.AvgHeartRate s) (Session.AvgHeartRate s') /\
       noSentinelWritten uint8Invalid
         (Session.AvgCadence s) (Session.AvgCadence s')))
    as [a' [Hrun [Hsess _]]].
  - intros s s' Hstep. apply sessionStep_inv in Hstep.
    destruct Hstep as [Hp [Hh [Hc _]]].
    split; [|split].
    + eapply (fixedField_noSentinel shouldFixU16 uint16Invalid 16);
        [exact uint16Invalid_val | lia | exact Lp | exact Rp | exact Hp].
    + eapply (fixedField_noSentinel shouldFixU8 uint8Invalid 8);
        [exact uint8Invalid_val | lia | exact Lh | exact Rh | exact Hh].
    + eapply (fixedField_noSentinel shouldFixU8 uint8Invalid 8);
        [exact uint8Invalid_val | lia | exact Lc | exact Rc | exact Hc].
  - exists a'. split; [exact Hrun | exact Hsess].
Qed.

(* ================================================================== *)
(** * Properties of the file discovery                                  *)
(* ================================================================== *)

Example base_test :
  Base "/tmp/t/MyNewActivity-3.8.5.fit"%string = "MyNewActivity-3.8.5.fit"%string
  /\ Base "a/b//"%string = "b"%string /\ Base "///"%string = "/"%string
  /\ Base ""%string = "."%string /\ Base "x.fit"%string = "x.fit"%string.
Proof. repeat split. Qed.

Example runs_test :
  FindAllString "MyNewActivity-3.08.15.fit"%string
  = ["3"; "08"; "15"]%string
  /\ FindAllString "no digits"%string = []
  /\ FindAllString "7a"%string = ["7"%string].
Proof. repeat split. Qed.

Example atoi_test :
  Atoi "08"%string = (8, None) /\ Atoi "-12"%string = (-12, None) /\
  Atoi "+"%string = (0, Some ErrSyntax) /\ Atoi "1x"%string = (0, Some ErrSyntax) /\
  Atoi "9223372036854775807"%string = (9223372036854775807, None) /\
  Atoi "9223372036854775808"%string = (9223372036854775807, Some ErrRange) /\
  Atoi "-9223372036854775809"%string = (-9223372036854775808, Some ErrRange).
Proof. repeat split. Qed.

Example most_recent_test :
  findMostRecentFitFile insertionSort "/tmp/t"%string (Ok testFiles)
  = Some (Ok "/tmp/t/MyNewActivity-3.8.5.fit"%string).
Proof. vm_compute. reflexivity. Qed.

Section DigitRuns.

Lemma allDigits_snoc run c :
  allDigits run = true -> isDigit c = true ->
  allDigits (run ++ String c EmptyString) = true.
Proof.
  intros Hrun Hc. induction run as [|d run IH]; simpl in *.
  - now rewrite Hc.
  - apply andb_true_iff in Hrun. destruct Hrun as [Hd Hrun].
    rewrite Hd, IH by exact Hrun. reflexivity.
Qed.

Lemma isEmpty_snoc run c : isEmpty (run ++ String c EmptyString) = false.
Proof. destruct run; reflexivity. Qed.

(** Every match of the pattern is a non-empty run of digits. *)
Lemma findAllDigits_numerals s : forall run,
  allDigits run = true ->
  Forall isNumeral (findAllDigits s run).
Proof.
  induction s as [|c rest IH]; intros run Hrun; simpl.
  - destruct (isEmpty run) eqn:E; repeat constructor; assumption.
  - destruct (isDigit c) eqn:Hc.
    + apply IH. now apply allDigits_snoc.
    + apply Forall_app. split; [|now apply IH].
      destruct (isEmpty run) eqn:E; repeat constructor; assumption.
Qed.

Lemma FindAllString_numerals s : Forall isNumeral (FindAllString s).
Proof. now apply findAllDigits_numerals. Qed.

(** There are no more matches than characters. *)
Lemma findAllDigits_length s : forall run,
  (List.length (findAllDigits s run)
   <= String.length s + (if isEmpty run then 0 else 1))%nat.
Proof.
  induction s as [|c rest IH]; intros run; simpl.
  - destruct (isEmpty run); simpl; lia.
  - destruct (isDigit c).
    + specialize (IH (run ++ String c EmptyString)%string).
      rewrite isEmpty_snoc in IH. destruct (isEmpty run); lia.
    + rewrite length_app. specialize (IH EmptyString). simpl in IH.
      destruct (isEmpty run); simpl; lia.
Qed.

Lemma FindAllString_length s :
  (List.length (FindAllString s) <= String.length s)%nat.
Proof.
  unfold FindAllString. pose proof (findAllDigits_length s EmptyString) as H.
  simpl in H. lia.
Qed.

Lemma dropLeadingSeps_length cs :
  (List.length (dropLeadingSeps cs) <= List.length cs)%nat.
Proof.
  induction cs as [|c rest IH]; simpl; [lia|].
  destruct (isSep c); simpl; lia.
Qed.

Lemma takeToSep_length cs :
  (List.length (takeToSep cs) <= List.length cs)%nat.
Proof.
  induction cs as [|c rest IH]; simpl; [lia|].
  destruct (isSep c); simpl; lia.
Qed.

Lemma string_length_of_list cs :
  String.length (string_of_list_ascii cs) = List.length cs.
Proof. induction cs as [|c rest IH]; simpl; congruence. Qed.

Lemma list_length_of_string s :
  List.length (list_ascii_of_string s) = String.length s.
Proof. induction s as [|c rest IH]; simpl; congruence. Qed.

(** A name has no more numeric components than characters. *)
Lemma version_length path :
  (List.length (FindAllString (Base path)) <= String.length path)%nat.
Proof.
  unfold Base. destruct (isEmpty path) eqn:E.
  - cbn. lia.
  - pose proof (takeToSep_length
                  (dropLeadingSeps (rev (list_ascii_of_string path)))) as H1.
    pose proof (dropLeadingSeps_length (rev (list_ascii_of_string path)))
      as H2.
    rewrite length_rev, list_length_of_string in H2.
    destruct (rev (takeToSep _)) as [|c last] eqn:El.
    + cbn. lia.
    + rewrite <- El.
      pose proof (FindAllString_length
        (string_of_list_ascii
           (rev (takeToSep
                   (dropLeadingSeps (rev (list_ascii_of_string path)))))))
        as H3.
      rewrite string_length_of_list, length_rev in H3. lia.
Qed.

End DigitRuns.

Section Parsing.

Lemma digitVal_range c : isDigit c = true -> 0 <= digitVal c <= 9.
Proof.
  unfold isDigit, digitVal. intros H. apply andb_true_iff in H.
  destruct H as [H1 H2]. apply N.leb_le in H1, H2. lia.
Qed.

Lemma digitsValue_numeral s : forall acc,
  allDigits s = true -> 0 <= acc ->
  exists v, digitsValue s acc = Some v /\ 0 <= v.
Proof.
  induction s as [|c rest IH]; intros acc Hs Hacc;
    cbn [digitsValue allDigits] in *.
  - now exists acc.
  - apply andb_true_iff in Hs. destruct Hs as [Hc Hrest]. rewrite Hc.
    pose proof (digitVal_range c Hc). apply IH; [exact Hrest | lia].
Qed.

Lemma digit_not_sign c :
  isDigit c = true -> Ascii.eqb c "+" = false /\ Ascii.eqb c "-" = false.
Proof.
  intros Hc. split.
  - destruct (Ascii.eqb c "+") eqn:E; [|reflexivity].
    apply Ascii.eqb_eq in E. subst c. discriminate Hc.
  - destruct (Ascii.eqb c "-") eqn:E; [|reflexivity].
    apply Ascii.eqb_eq in E. subst c. discriminate Hc.
Qed.

(** On a numeral [strconv.Atoi] returns the number it denotes, cut at
    the largest [int]. *)
Lemma Atoi_numeral s :
  isNumeral s ->
  0 <= numberOf s /\ fst (Atoi s) = Z.min (numberOf s) maxInt64.
Proof.
  intros [Hne Hall]. destruct s as [|c rest]; [discriminate Hne|].
  pose proof Hall as Hall'. simpl in Hall'.
  apply andb_true_iff in Hall'. destruct Hall' as [Hc _].
  destruct (digit_not_sign c Hc) as [Hplus Hminus].
  destruct (digitsValue_numeral (String c rest) 0 Hall ltac:(lia))
    as [v [Hv Hpos]].
  unfold numberOf, Atoi. rewrite Hplus, Hminus, Hv.
  cbn [isEmpty]. split; [exact Hpos|].
  destruct (v >? maxInt64) eqn:E; cbn [fst].
  - apply Z.gtb_lt in E. lia.
  - rewrite Z.gtb_ltb in E. apply Z.ltb_ge in E. lia.
Qed.

End Parsing.

Section VersionOrder.

(** A part on which [strconv.Atoi] returns the number denoted. *)
Let exact (r : string) : Prop :=
  fst (Atoi r) = numberOf r /\ 0 <= numberOf r <= maxInt64.

(** The sign of the loop's result is the component-wise comparison of
    the remaining parts. *)
Lemma cmpVersionLoop_lex a b ra : forall rb,
  Forall exact ra -> Forall exact rb ->
  len a - len b = len ra - len rb ->
  len ra <= maxInt64 -> len rb <= maxInt64 ->
  (cmpVersionLoop a b ra rb >? 0)
  = isGt (lexCompare (map numberOf ra) (map numberOf rb)).
Proof.
  induction ra as [|x ra1 IH]; intros rb Ha Hb Hlen La Lb.
  - cbn [cmpVersionLoop]. rewrite Hlen.
    change (len (@nil string)) with 0.
    pose proof (len_nonneg rb) as Hrb.
    rewrite wrapS_small by (unfold minInt64, maxInt64 in *; lia).
    destruct rb as [|y rb1]; cbn [map lexCompare isGt].
    + reflexivity.
    + rewrite len_cons in *. pose proof (len_nonneg rb1).
      rewrite Z.gtb_ltb. apply Z.ltb_ge. lia.
  - destruct rb as [|y rb1].
    + cbn [cmpVersionLoop map lexCompare isGt]. rewrite Hlen.
      change (len (@nil string)) with 0.
      rewrite len_cons in *. pose proof (len_nonneg ra1).
      rewrite wrapS_small by (unfold minInt64, maxInt64 in *; lia).
      apply Z.gtb_lt. lia.
    + cbn [cmpVersionLoop map lexCompare].
      inversion Ha as [|? ? [Ex Rx] Ha1]; subst.
      inversion Hb as [|? ? [Ey Ry] Hb1]; subst.
      rewrite Ex, Ey. rewrite !len_cons in *.
      destruct (numberOf x ?= numberOf y) eqn:C.
      * apply Z.compare_eq in C. rewrite C, Z.eqb_refl. cbn [negb].
        apply IH; try assumption; lia.
      * rewrite Z.compare_lt_iff in C.
        replace (numberOf x =? numberOf y) with false
          by (symmetry; apply Z.eqb_neq; lia).
        cbn [negb isGt].
        rewrite wrapS_small by (unfold minInt64, maxInt64 in *; lia).
        rewrite Z.gtb_ltb. apply Z.ltb_ge. lia.
      * rewrite Z.compare_gt_iff in C.
        replace (numberOf x =? numberOf y) with false
          by (symmetry; apply Z.eqb_neq; lia).
        cbn [negb isGt].
        rewrite wrapS_small by (unfold minInt64, maxInt64 in *; lia).
        apply Z.gtb_lt. lia.
Qed.

Lemma fitsInt_exact path :
  fitsInt path ->
  Forall exact (FindAllString (Base path)) /\
  len (FindAllString (Base path)) <= maxInt64.
Proof.
  intros [Hfit Hlen]. split.
  - unfold versionOf in Hfit. rewrite Forall_map in Hfit.
    pose proof (FindAllString_numerals (Base path)) as Hnum.
    pose proof (Forall_and Hfit Hnum) as H.
    eapply Forall_impl; [|exact H]. cbv beta. intros r [Hr Hn].
    destruct (Atoi_numeral r Hn) as [Hpos Hval]. unfold exact.
    rewrite Hval. lia.
  - pose proof (version_length path). unfold len. lia.
Qed.

(** On names that fit, the comparison handed to the sort is the
    component-wise comparison of the versions. *)
Lemma versionLess_lex m m' :
  fitsInt m -> fitsInt m' ->
  versionLess m m' = isGt (lexCompare (versionOf m) (versionOf m')).
Proof.
  intros Hm Hm'. destruct (fitsInt_exact m Hm) as [Em Lm].
  destruct (fitsInt_exact m' Hm') as [Em' Lm'].
  unfold versionLess, cmpVersionParts, versionOf.
  apply cmpVersionLoop_lex; try assumption. reflexivity.
Qed.

Lemma lexCompare_flip u : forall v,
  lexCompare v u = CompOpp (lexCompare u v).
Proof.
  induction u as [|x u1 IH]; intros [|y v1]; cbn [lexCompare];
    try reflexivity.
  rewrite (Z.compare_antisym x y).
  destruct (x ?= y); cbn [CompOpp]; [apply IH | reflexivity | reflexivity].
Qed.

Lemma lexCompare_trans u : forall v w,
  lexCompare u v <> Gt -> lexCompare v w <> Gt -> lexCompare u w <> Gt.
Proof.
  induction u as [|x u1 IH]; intros [|y v1] [|z w1]; cbn [lexCompare];
    try congruence.
  destruct (x ?= y) eqn:Cxy; destruct (y ?= z) eqn:Cyz;
    try congruence; intros H1 H2.
  - apply Z.compare_eq in Cxy, Cyz. subst. rewrite Z.compare_refl.
    now apply (IH v1 w1).
  - apply Z.compare_eq in Cxy. subst. now rewrite Cyz.
  - apply Z.compare_eq in Cyz. subst. now rewrite Cxy.
  - rewrite Z.compare_lt_iff in Cxy, Cyz.
    assert (C : (x ?= z) = Lt) by (apply Z.compare_lt_iff; lia).
    now rewrite C.
Qed.

Lemma isGt_false c : isGt c = false <-> c <> Gt.
Proof. destruct c; cbn; split; congruence. Qed.

Lemma versionLess_weakOrder l :
  Forall fitsInt l -> weakOrderOn l versionLess.
Proof.
  intros Hfit. rewrite Forall_forall in Hfit. split.
  - intros x y Hx Hy. rewrite !versionLess_lex by auto.
    rewrite (lexCompare_flip (versionOf x) (versionOf y)).
    destruct (lexCompare (versionOf x) (versionOf y)); cbn; congruence.
  - intros x y z Hx Hy Hz. rewrite !versionLess_lex by auto.
    rewrite !isGt_false. intros Hyx Hzy.
    now apply (lexCompare_trans _ (versionOf y)).
Qed.

End VersionOrder.

Section Sorting.

Context {A : Type}.
Variable less : A -> A -> bool.

(** In a sorted slice no element is less than the first one. *)
Lemma sorted_first h : forall t,
  (forall x y z, In x (h :: t) -> In y (h :: t) -> In z (h :: t) ->
                 less y x = false -> less z y = false -> less z x = false) ->
  Sorted (fun x y => less y x = false) (h :: t) ->
  forall m, In m t -> less m h = false.
Proof.
  intros t. revert h. induction t as [|m1 t1 IH]; intros h Htrans Hs m Hin.
  - destruct Hin.
  - apply Sorted_inv in Hs. destruct Hs as [Hs Hd].
    apply HdRel_inv in Hd. destruct Hin as [<- | Hin]; [exact Hd|].
    assert (Hm : less m m1 = false).
    { apply IH; [|exact Hs | exact Hin].
      intros x y z Hx Hy Hz. apply Htrans; now right. }
    apply (Htrans h m1 m); simpl; auto.
Qed.

Let before (x y : A) : Prop := less y x = false.
Let after (x y : A) : Prop := less x y = false.

Lemma insertBack_perm x front :
  Permutation (x :: front) (insertBack less x front).
Proof.
  induction front as [|y rest IH]; simpl; [reflexivity|].
  destruct (less x y); [|reflexivity].
  rewrite perm_swap. now constructor.
Qed.

Lemma insertBack_head x front :
  exists h t, insertBack less x front = h :: t /\
              (h = x \/ exists t0, front = h :: t0).
Proof.
  destruct front as [|y rest]; simpl.
  - exists x, []. auto.
  - destruct (less x y).
    + exists y, (insertBack less x rest). split; [reflexivity|].
      right. now exists rest.
    + exists x, (y :: rest). auto.
Qed.

Lemma insertBack_sorted x front :
  (forall y, In y front -> less x y = true -> less y x = false) ->
  Sorted after front -> Sorted after (insertBack less x front).
Proof.
  intros Hasym Hs. induction front as [|y rest IH]; simpl.
  - repeat constructor.
  - apply Sorted_inv in Hs. destruct Hs as [Hs Hd].
    destruct (less x y) eqn:E.
    + constructor.
      * apply IH; [|exact Hs]. intros z Hz. apply Hasym. now right.
      * destruct (insertBack_head x rest) as [h [t [Eq Hh]]]. rewrite Eq.
        constructor. destruct Hh as [-> | [t0 ->]].
        -- unfold after. apply Hasym; [now left | exact E].
        -- now apply HdRel_inv in Hd.
    + constructor; [now constructor | constructor; exact E].
Qed.

Lemma fold_insertBack_perm l : forall front,
  Permutation (front ++ l)
    (fold_left (fun front x => insertBack less x front) l front).
Proof.
  induction l as [|x rest IH]; intros front; simpl.
  - now rewrite app_nil_r.
  - rewrite <- IH, <- insertBack_perm. simpl.
    symmetry. apply Permutation_middle.
Qed.

Lemma fold_insertBack_sorted l : forall front,
  (forall x y, In x (front ++ l) -> In y (front ++ l) ->
               less x y = true -> less y x = false) ->
  Sorted after front ->
  Sorted after (fold_left (fun front x => insertBack less x front) l front).
Proof.
  induction l as [|x rest IH]; intros front Hasym Hs; simpl; [exact Hs|].
  apply IH.
  - intros u v Hu Hv. apply Hasym.
    + apply in_app_or in Hu. destruct Hu as [Hu | Hu].
      * apply (Permutation_in _ (Permutation_sym (insertBack_perm x front)))
          in Hu.
        destruct Hu as [<- | Hu]; apply in_or_app; simpl; auto.
      * apply in_or_app; simpl; auto.
    + apply in_app_or in Hv. destruct Hv as [Hv | Hv].
      * apply (Permutation_in _ (Permutation_sym (insertBack_perm x front)))
          in Hv.
        destruct Hv as [<- | Hv]; apply in_or_app; simpl; auto.
      * apply in_or_app; simpl; auto.
  - apply insertBack_sorted; [|exact Hs].
    intros y Hy. apply Hasym; apply in_or_app; simpl; auto.
Qed.

Lemma sorted_snoc (R : A -> A -> Prop) m b a :
  Sorted R (m ++ [b]) -> R b a -> Sorted R ((m ++ [b]) ++ [a]).
Proof.
  intros Hs Hba. induction m as [|c m1 IH]; simpl in *.
  - repeat constructor. exact Hba.
  - apply Sorted_inv in Hs. destruct Hs as [Hs Hd].
    constructor; [now apply IH|].
    destruct m1 as [|d m2]; simpl in *; apply HdRel_inv in Hd;
      now constructor.
Qed.

Lemma sorted_rev (R : A -> A -> Prop) l :
  Sorted R l -> Sorted (fun x y => R y x) (rev l).
Proof.
  induction 1 as [|a l1 Hs IH Hd]; simpl; [constructor|].
  destruct l1 as [|b l2]; simpl in *.
  - repeat constructor.
  - apply sorted_snoc; [exact IH|]. now apply HdRel_inv in Hd.
Qed.

Lemma insertionSort_perm l : Permutation l (insertionSort less l).
Proof.
  unfold insertionSort. rewrite <- Permutation_rev.
  exact (fold_insertBack_perm l []).
Qed.

Lemma insertionSort_sorted l :
  weakOrderOn l less -> Sorted before (insertionSort less l).
Proof.
  intros [Hasym _]. unfold insertionSort.
  apply (sorted_rev after). apply fold_insertBack_sorted.
  - exact Hasym.
  - constructor.
Qed.

End Sorting.

Lemma insertionSort_sortsSlices : sortsSlices insertionSort.
Proof.
  intros less l. split.
  - apply insertionSort_perm.
  - apply insertionSort_sorted.
Qed.

Lemma versionLess_irrefl m : fitsInt m -> versionLess m m = false.
Proof.
  intros Hm. destruct (versionLess m m) eqn:E; [|reflexivity].
  destruct (versionLess_weakOrder [m]) as [Hasym _];
    [constructor; [exact Hm | constructor]|].
  rewrite (Hasym m m) in E; simpl; auto.
Qed.

Lemma testFiles_fit : Forall fitsInt testFiles.
Proof.
  repeat constructor; vm_compute; intros H; discriminate H.
Qed.

(** C6 (as amended).  For every non-empty set of candidate file names
    whose numeric components each fit a signed 64-bit integer, the file
    discovery returns a candidate whose sequence of numeric components
    is greatest under the component-wise comparison from left to right
    as integers (of two sequences that agree on the shorter one's length
    the longer is the greater); among "3.7.0", "3.8.5" and "3.8.1" this
    is "3.8.5". *)
Theorem most_recent_has_greatest_version
  (sortSlice : (string -> string -> bool) -> list string -> list string)
  (dir : string) (matches : list string) :
  sortsSlices sortSlice ->
  matches <> [] ->
  Forall fitsInt matches ->
  exists best,
    findMostRecentFitFile sortSlice dir (Ok matches) = Some (Ok best) /\
    greatestVersion matches best.
Proof.
  intros Hsort Hne Hfit.
  destruct (Hsort versionLess matches) as [Hperm Hs].
  specialize (Hs (versionLess_weakOrder matches Hfit)).
  unfold findMostRecentFitFile.
  pose proof (nonempty_len matches Hne) as Hlen.
  destruct (len matches =? 0) eqn:E; [apply Z.eqb_eq in E; lia|].
  destruct (sortSlice versionLess matches) as [|first rest] eqn:Es.
  - apply Permutation_sym, Permutation_nil in Hperm. contradiction.
  - exists first. split; [reflexivity|].
    assert (Hin : forall m, In m (first :: rest) -> In m matches).
    { intros m. apply Permutation_in. now apply Permutation_sym. }
    rewrite Forall_forall in Hfit.
    split; [apply Hin; now left|].
    intros m Hm. apply (Permutation_in _ Hperm) in Hm.
    assert (Hless : versionLess m first = false).
    { destruct Hm as [<- | Hm].
      - apply versionLess_irrefl, Hfit, Hin. now left.
      - apply (sorted_first versionLess first rest); [|exact Hs | exact Hm].
        destruct (versionLess_weakOrder matches) as [_ Htrans];
          [now apply Forall_forall|].
        intros x y z Hx Hy Hz. apply Htrans; now apply Hin. }
    rewrite versionLess_lex in Hless.
    + now apply isGt_false.
    + apply Hfit, Hin. destruct Hm as [<- | Hm]; [now left | now right].
    + apply Hfit, Hin. now left.
Qed.

Lemma most_recent_has_greatest_version_witness :
  exists best,
    findMostRecentFitFile insertionSort "/tmp/t"%string (Ok testFiles)
      = Some (Ok best) /\
    greatestVersion testFiles best.
Proof.
  apply (most_recent_has_greatest_version insertionSort "/tmp/t"%string
           testFiles).
  - exact insertionSort_sortsSlices.
  - discriminate.
  - exact testFiles_fit.
Defined.

(** C6 as stated fails on a name with a component beyond 2^63 - 1:
    [strconv.Atoi] returns 2^63 - 1 for both "9223372036854775807" and
    "9223372036854775808", so the file with version 9223372036854775807.1
    is selected although 9223372036854775808.0 is greater. *)
Lemma most_recent_misses_huge_component :
  exists best,
    findMostRecentFitFile insertionSort "/tmp/t"%string (Ok hugeFiles)
      = Some (Ok best) /\
    ~ greatestVersion hugeFiles best.
Proof.
  exists "/tmp/t/MyNewActivity-9223372036854775807.1.fit"%string.
  split; [vm_compute; reflexivity|].
  intros [_ Hmax].
  apply (Hmax "/tmp/t/MyNewActivity-9223372036854775808.0.fit"%string).
  - right. now left.
  - vm_compute. reflexivity.
Qed.

(* ================================================================== *)
(** * Properties of the token exchange and of the upload                *)
(* ================================================================== *)

Example upload_after_rejection :
  UploadFIT "/tmp/a.fit"
    (start 1000 [answer 401 ""; answer 200 "consumer"; answer 200 "hour";
                 answer 200 "{}"]%string)
  = Some (None,
          mkTraced
            (mkMachine
               (Client.mk (Some someOAuth1)
                  (Some (OAuth2Token.mk "CONNECT_WRITE" "jti" "Bearer"
                           "access" "refresh" 3600 4600 7200 8200))
                  "garmin.com" "/home/u/.tokens")
               (mkScript 1000 []))
            [CallUpload (Ok (401, "")); CallRefresh None;
             CallUpload (Ok (200, "{}"))])%string.
Proof. vm_compute. reflexivity. Qed.

Example upload_with_expired_token :
  UploadFIT "/tmp/a.fit"
    (start 6000 [answer 200 "consumer"; answer 200 "hour";
                 answer 500 "oops"]%string)
  = Some (Some "upload failed (HTTP 500): oops",
          mkTraced
            (mkMachine
               (Client.mk (Some someOAuth1)
                  (Some (OAuth2Token.mk "CONNECT_WRITE" "jti" "Bearer"
                           "access" "refresh" 3600 9600 7200 13200))
                  "garmin.com" "/home/u/.tokens")
               (mkScript 6000 []))
            [CallRefresh None; CallUpload (Ok (500, "oops"))])%string.
Proof. vm_compute. reflexivity. Qed.

Section Exchange.

Context {World : Type} {RT : Runtime World}.

Lemma Expired_at (tok : OAuth2Token.t) (m : Machine) now w :
  timeNowUnix (world m) = (now, w) ->
  Expired tok m
  = Some (OAuth2Token.ExpiresAt tok <? now, mkMachine (client m) w).
Proof.
  intros H. unfold Expired, bind, liftW, ret. rewrite H. reflexivity.
Qed.

Lemma Expired_runs (tok : OAuth2Token.t) (m : Machine) :
  exists b w, Expired tok m = Some (b, mkMachine (client m) w).
Proof.
  destruct (timeNowUnix (world m)) as [now w] eqn:E.
  rewrite (Expired_at tok m now w E). now eexists; eexists.
Qed.

(** A successful exchange stamps the token with the time read after the
    response, plus the durations of the response. *)
Lemma exchangeOAuth2_stamps consumer oauth1 domain (m : Machine)
  resp body raw w1 now w2 :
  httpNewRequest "POST" (exchangeURL domain) = None ->
  httpDo (exchangeRequest consumer oauth1 domain) (world m) = (Ok resp, w1) ->
  Response.StatusCode resp = 200 ->
  Response.Body resp = Ok body ->
  jsonOAuth2 body = Ok raw ->
  timeNowUnix w1 = (now, w2) ->
  exists tok,
    exchangeOAuth2 consumer oauth1 domain m
      = Some (Ok tok, mkMachine (client m) w2) /\
    OAuth2Token.ExpiresIn tok = RawOAuth2.ExpiresIn raw /\
    OAuth2Token.ExpiresAt tok = wrapS 64 (now + RawOAuth2.ExpiresIn raw) /\
    OAuth2Token.RefreshTokenExpiresAt tok
      = wrapS 64 (now + RawOAuth2.RefreshTokenExpiresIn raw).
Proof.
  intros Hreq Hdo Hstatus Hbody Hjson Hnow.
  unfold exchangeOAuth2, bind, liftW, ret. rewrite Hreq, Hdo.
  cbn [world client]. rewrite Hbody, Hstatus. cbn [Z.eqb Pos.eqb negb].
  rewrite Hjson. cbv beta. cbn [world client]. rewrite Hnow.
  eexists. split; [reflexivity|].
  cbn. repeat split.
Qed.

End Exchange.

(** C1 (as amended).  A credential minted by the exchanger at timestamp
    [T] from a response with [expires_in = 3600] stores the absolute
    expiry [T + 3600] ([T + 3600] being a signed 64-bit value), and the
    expiry check returns false at every time at or before [T + 3600] and
    true at every time strictly after [T + 3600]. *)
Theorem expiry_is_receipt_plus_duration
  {World : Type} {RT : Runtime World}
  (consumer : Consumer.t) (oauth1 : OAuth1Token.t) (domain : string)
  (m : Machine) (resp : Response.t) (body : string) (raw : RawOAuth2.t)
  (w1 w2 : World) (T : Z) :
  httpNewRequest "POST" (exchangeURL domain) = None ->
  httpDo (exchangeRequest consumer oauth1 domain) (world m) = (Ok resp, w1) ->
  Response.StatusCode resp = 200 ->
  Response.Body resp = Ok body ->
  jsonOAuth2 body = Ok raw ->
  RawOAuth2.ExpiresIn raw = 3600 ->
  timeNowUnix w1 = (T, w2) ->
  minInt64 <= T <= maxInt64 - 3600 ->
  exists tok,
    exchangeOAuth2 consumer oauth1 domain m
      = Some (Ok tok, mkMachine (client m) w2) /\
    OAuth2Token.ExpiresAt tok = T + 3600 /\
    forall (m1 : Machine) (now : Z) (w : World),
      timeNowUnix (world m1) = (now, w) ->
      exists expired,
        Expired tok m1 = Some (expired, mkMachine (client m1) w) /\
        (now <= T + 3600 -> expired = false) /\
        (T + 3600 < now -> expired = true).
Proof.
  intros Hreq Hdo Hstatus Hbody Hjson Hin Hnow HT.
  destruct (exchangeOAuth2_stamps consumer oauth1 domain m resp body raw
              w1 T w2 Hreq Hdo Hstatus Hbody Hjson Hnow)
    as [tok [Hrun [_ [Hat _]]]].
  rewrite Hin, wrapS_small in Hat by (unfold minInt64, maxInt64 in *; lia).
  exists tok. split; [exact Hrun|]. split; [exact Hat|].
  intros m1 now w Hclock. rewrite (Expired_at tok m1 now w Hclock), Hat.
  eexists. split; [reflexivity|]. split; intros H.
  - apply Z.ltb_ge. exact H.
  - apply Z.ltb_lt. exact H.
Qed.

Lemma expiry_is_receipt_plus_duration_witness :
  exists tok,
    exchangeOAuth2 someConsumer someOAuth1 "garmin.com"
      (mkMachine someClient (mkScript 1000 [answer 200 "hour"]))
      = Some (Ok tok, mkMachine someClient (mkScript 1000 [])) /\
    OAuth2Token.ExpiresAt tok = 1000 + 3600 /\
    forall (m1 : Machine) (now : Z) (w : Script),
      timeNowUnix (world m1) = (now, w) ->
      exists expired,
        Expired tok m1 = Some (expired, mkMachine (client m1) w) /\
        (now <= 1000 + 3600 -> expired = false) /\
        (1000 + 3600 < now -> expired = true).
Proof.
  apply (expiry_is_receipt_plus_duration someConsumer someOAuth1 "garmin.com"
           (mkMachine someClient (mkScript 1000 [answer 200 "hour"]))
           (Response.mk 200 (Ok "hour"%string)) "hour"
           (RawOAuth2.mk "CONNECT_WRITE" "jti" "Bearer" "access" "refresh"
                         3600 7200)
           (mkScript 1000 []) (mkScript 1000 []) 1000);
    try reflexivity.
  vm_compute. split; intros H; discriminate H.
Defined.

(** C1 as stated fails at the instant of expiry: a token minted at time
    1000 with [expires_in = 3600] is not reported expired at time 4600;
    the check compares with a strict [<]. *)
Lemma token_not_expired_at_expiry_instant :
  exists tok,
    exchangeOAuth2 someConsumer someOAuth1 "garmin.com"
      (mkMachine someClient (mkScript 1000 [answer 200 "hour"]))
      = Some (Ok tok, mkMachine someClient (mkScript 1000 [])) /\
    OAuth2Token.ExpiresAt tok = 1000 + 3600 /\
    Expired tok (mkMachine someClient (mkScript (1000 + 3600) []))
      = Some (false, mkMachine someClient (mkScript (1000 + 3600) [])).
Proof.
  eexists. split; [vm_compute; reflexivity|]. split; reflexivity.
Qed.

Section Upload.

Context {World : Type} {RT : Runtime World}.

(** Case analysis on every answer of the world, then on every test. *)
Ltac crunch :=
  repeat
    (cbv beta iota;
     cbn [client world Client.OAuth1 Client.OAuth2 Client.Domain
          Client.TokenDir];
     match goal with
     | |- context [osReadFile ?p ?w] => destruct (osReadFile p w) as [? ?]
     | |- context [httpDo ?r ?w] => destruct (httpDo r w) as [? ?]
     | |- context [timeNowUnix ?w] => destruct (timeNowUnix w) as [? ?]
     | |- context [osMkdirAll ?d ?w] => destruct (osMkdirAll d w) as [? ?]
     | |- context [osWriteFile ?f ?d ?w] =>
         destruct (osWriteFile f d w) as [? ?]
     | |- context [match ?x with _ => _ end] =>
         lazymatch x with
         | context [match _ with _ => _ end] => fail
         | _ => destruct x
         end
     end).

(** [doUpload] leaves the client as it is, and does not panic on a
    client that holds an OAuth2 token. *)
Lemma doUpload_runs path (m : Machine) :
  Client.OAuth2 (client m) <> None ->
  exists r m1, doUpload path m = Some (r, m1) /\ client m1 = client m.
Proof.
  intros Hauth. destruct m as [[o1 [tok|] dom dir] w];
    cbn [client Client.OAuth2] in Hauth; [|contradiction].
  unfold doUpload, bind, liftW, getClient, ret, panic.
  cbv beta. cbn [client world Client.OAuth2 Client.Domain].
  crunch; eexists; eexists; split; reflexivity.
Qed.

(** [refreshOAuth2] keeps the OAuth1 token, leaves an OAuth2 token in
    place, and does not panic on a client that holds an OAuth1 token. *)
Lemma refreshOAuth2_runs (m : Machine) :
  Client.OAuth1 (client m) <> None ->
  exists r m1,
    refreshOAuth2 m = Some (r, m1) /\
    Client.OAuth1 (client m1) = Client.OAuth1 (client m) /\
    (Client.OAuth2 (client m) <> None -> Client.OAuth2 (client m1) <> None).
Proof.
  intros Hauth.
  unfold refreshOAuth2, ExchangeForOAuth2, fetchConsumer, exchangeOAuth2,
    SaveTokens, saveOne, setOAuth2, bind, liftW, getClient, ret, panic.
  destruct m as [[[o1|] o2 dom dir] w];
    cbn [client Client.OAuth1] in Hauth; [|contradiction].
  cbv beta.
  cbn [client world Client.OAuth1 Client.OAuth2 Client.Domain
       Client.TokenDir].
  crunch; eexists; eexists; (split; [reflexivity|]);
    cbn [client Client.OAuth1 Client.OAuth2]; split; congruence.
Qed.

Lemma bind_eq {S A B : Type} (m : ST S A) (k : A -> ST S B) s a s1 :
  m s = Some (a, s1) -> bind m k s = k a s1.
Proof. intros H. unfold bind. rewrite H. reflexivity. Qed.

Lemma call_eq {A : Type} (record : A -> Call) (f : ST (@Machine World) A)
  (m : Machine) cs a m1 :
  f m = Some (a, m1) ->
  call record f (mkTraced m cs) = Some (a, mkTraced m1 (cs ++ [record a])).
Proof. intros H. unfold call. cbn [machine calls]. rewrite H. reflexivity. Qed.

Lemma step_eq {A : Type} (f : ST (@Machine World) A) (m : Machine)
  cs a m1 :
  f m = Some (a, m1) ->
  step f (mkTraced m cs) = Some (a, mkTraced m1 cs).
Proof. intros H. unfold step. cbn [machine calls]. rewrite H. reflexivity. Qed.

Lemma UploadFIT_attempts filePath :
  UploadFIT filePath =
  (c <- step getClient ;;
   match Client.OAuth2 c with
   | None => ret (Some "not authenticated"%string)
   | Some tok =>
       expired <- step (Expired tok) ;;
       e0 <- (if expired then call CallRefresh refreshOAuth2 else ret None) ;;
       match e0 with
       | Some e => ret (Some ("token refresh: " ++ e)%string)
       | None => uploadAttempts filePath
       end
   end).
Proof. reflexivity. Qed.

(** From the first attempt on, an upload by an authenticated client
    returns, and its calls have one of the four shapes. *)
Lemma uploadAttempts_shape path (m : Machine) cs :
  authenticated (client m) ->
  exists res st1 att,
    uploadAttempts path (mkTraced m cs) = Some (res, st1) /\
    calls st1 = cs ++ att /\
    attemptShape att res.
Proof.
  intros [Ho1 Ho2]. unfold uploadAttempts.
  destruct (doUpload_runs path m Ho2) as [r1 [m1 [Hup1 Hc1]]].
  rewrite (bind_eq _ _ _ _ _ (call_eq CallUpload _ _ cs _ _ Hup1)).
  destruct r1 as [[status body]|e].
  2: { eexists; eexists; exists [CallUpload (Err e)].
       split; [reflexivity|]. split; [reflexivity | constructor]. }
  destruct (status =? 401) eqn:E401.
  2: { eexists; eexists; exists [CallUpload (Ok (status, body))].
       split; [reflexivity|]. split; [reflexivity|].
       constructor. now apply Z.eqb_neq. }
  apply Z.eqb_eq in E401. subst status.
  erewrite bind_eq by (apply step_eq; unfold liftW; reflexivity).
  cbn [client world].
  destruct (refreshOAuth2_runs
              (mkMachine (client m1)
                 (fmtPrintln "  token rejected, refreshing..." (world m1))))
    as [e1 [m2 [Href [Hk1 Hk2]]]].
  { cbn [client]. now rewrite Hc1. }
  rewrite (bind_eq _ _ _ _ _ (call_eq CallRefresh _ _ _ _ _ Href)).
  destruct e1 as [e|].
  { eexists; eexists;
      exists [CallUpload (Ok (401, body)); CallRefresh (Some e)].
    split; [reflexivity|]. split; [|constructor].
    cbn [calls]. now rewrite <- app_assoc. }
  destruct (doUpload_runs path m2) as [r2 [m3 [Hup2 Hc3]]].
  { apply Hk2. cbn [client]. now rewrite Hc1. }
  rewrite (bind_eq _ _ _ _ _ (call_eq CallUpload _ _ _ _ _ Hup2)).
  exists (outcome r2). eexists.
  exists [CallUpload (Ok (401, body)); CallRefresh None; CallUpload r2].
  split; [|split; [|constructor]].
  - destruct r2 as [[status2 body2]|e]; reflexivity.
  - destruct r2 as [[status2 body2]|e]; cbn [calls ret];
      now rewrite <- !app_assoc.
Qed.

(** An upload by a client that holds an OAuth1 token returns, and its
    calls have one of the shapes of [uploadShape]. *)
Lemma UploadFIT_shape path (st : Traced) :
  Client.OAuth1 (client (machine st)) <> None ->
  exists res st1 new,
    UploadFIT path st = Some (res, st1) /\
    calls st1 = calls st ++ new /\
    uploadShape new res.
Proof.
  intros Ho1. destruct st as [m cs]. cbn [machine calls] in *.
  rewrite UploadFIT_attempts.
  erewrite bind_eq by (apply step_eq; reflexivity).
  destruct (Client.OAuth2 (client m)) as [tok|] eqn:Etok.
  2: { eexists; eexists; exists []. split; [reflexivity|].
       split; [now rewrite app_nil_r | constructor]. }
  destruct (Expired_runs tok m) as [expired [w1 Hexp]].
  erewrite bind_eq by (apply step_eq; exact Hexp).
  destruct expired.
  - destruct (refreshOAuth2_runs (mkMachine (client m) w1))
      as [e0 [m2 [Href [Hk1 Hk2]]]]; [exact Ho1|].
    rewrite (bind_eq _ _ _ _ _ (call_eq CallRefresh _ _ _ _ _ Href)).
    destruct e0 as [e|].
    + eexists; eexists; exists [CallRefresh (Some e)].
      split; [reflexivity|]. split; [reflexivity | constructor].
    + destruct (uploadAttempts_shape path m2 (cs ++ [CallRefresh None]))
        as [res [st1 [att [Hrun [Hcalls Hshape]]]]].
      { split; [now rewrite Hk1 | apply Hk2; cbn [client]; congruence]. }
      exists res, st1, ([CallRefresh None] ++ att).
      split; [exact Hrun|]. split.
      * now rewrite Hcalls, <- app_assoc.
      * apply Attempted; [now right | exact Hshape].
  - erewrite bind_eq by reflexivity.
    destruct (uploadAttempts_shape path (mkMachine (client m) w1) cs)
      as [res [st1 [att [Hrun [Hcalls Hshape]]]]].
    { split; [exact Ho1 | cbn [client]; congruence]. }
    exists res, st1, ([] ++ att).
    split; [exact Hrun|]. split; [exact Hcalls|].
    apply Attempted; [now left | exact Hshape].
Qed.

End Upload.

Section UploadClaims.

Context {World : Type} {RT : Runtime World}.

Lemma firstAttempt_early early att :
  early = [] \/ early = [CallRefresh None] ->
  firstAttempt (early ++ att) = firstAttempt att.
Proof. intros [-> | ->]; reflexivity. Qed.

Lemma attemptShape_retries att res :
  attemptShape att res -> retriesOnceOn401 att res.
Proof.
  intros Hshape first rest Hfirst.
  destruct Hshape as [e | status body Hne | body e | body r2];
    cbn [firstAttempt] in Hfirst; injection Hfirst as <- <-.
  - now split.
  - apply Z.eqb_neq in Hne. rewrite Hne. now split.
  - cbn. left. now exists e.
  - cbn. right. now exists r2.
Qed.

Lemma uploadShape_retries new res :
  uploadShape new res -> retriesOnceOn401 new res.
Proof.
  intros [|e|early att res0 Hearly Hatt].
  - intros first rest Hfirst. discriminate Hfirst.
  - intros first rest Hfirst. discriminate Hfirst.
  - intros first rest Hfirst. rewrite firstAttempt_early in Hfirst by assumption.
    now apply (attemptShape_retries att res0 Hatt).
Qed.

Lemma parseUploadResult_409 body :
  parseUploadResult 409 body = Some duplicateError.
Proof. reflexivity. Qed.

Lemma parseUploadResult_401 body :
  parseUploadResult 401 body
  = Some ("upload failed (HTTP 401): " ++ preview body)%string.
Proof. reflexivity. Qed.

Lemma attemptShape_409 att res :
  attemptShape att res ->
  nothingAfter409 att /\
  forall body, In (CallUpload (Ok (409, body))) att ->
               res = Some duplicateError.
Proof.
  intros [e | status body0 Hne | body0 e | body0 r2]; split;
    cbn [nothingAfter409 In].
  - exact I.
  - intros body [H | []]. discriminate H.
  - now split.
  - intros body [H | []]. injection H as -> ->.
    apply parseUploadResult_409.
  - split; [intros H; discriminate H | exact I].
  - intros body [H | [H | []]]; discriminate H.
  - split; [intros H; discriminate H|].
    destruct r2 as [[status2 body2]|e]; [now split | exact I].
  - intros body [H | [H | [H | []]]]; try discriminate H.
    injection H as ->. apply parseUploadResult_409.
Qed.

Lemma uploadShape_409 new res :
  uploadShape new res ->
  nothingAfter409 new /\
  forall body, In (CallUpload (Ok (409, body))) new ->
               res = Some duplicateError.
Proof.
  intros [|e|early att res0 Hearly Hatt].
  - split; [exact I | intros body []].
  - split; [exact I | intros body [H | []]; discriminate H].
  - destruct (attemptShape_409 att res0 Hatt) as [Hafter Hdup].
    destruct Hearly as [-> | ->]; cbn [app nothingAfter409 In].
    + now split.
    + split; [exact Hafter|].
      intros body [H | H]; [discriminate H | now apply (Hdup body)].
Qed.

End UploadClaims.

(** C7 (as amended).  An upload by a client holding its OAuth1 token
    returns.  When its first attempt is answered with HTTP 401 the client
    performs exactly one credential refresh; if that refresh succeeds it
    performs exactly one retry, whose outcome (a transport error, or what
    the response amounts to, a second 401 included) is the result, with
    no further refresh or retry; if the refresh fails, its failure is the
    result and there is no retry.  When the first attempt returns
    anything else, no call follows it. *)
Theorem one_refresh_one_retry_on_401
  {World : Type} {RT : Runtime World} (path : string) (st : Traced) :
  Client.OAuth1 (client (machine st)) <> None ->
  exists res st1 new,
    UploadFIT path st = Some (res, st1) /\
    calls st1 = calls st ++ new /\
    retriesOnceOn401 new res /\
    forall body, outcome (Ok (401, body))
                 = Some ("upload failed (HTTP 401): " ++ preview body)%string.
Proof.
  intros Hauth.
  destruct (UploadFIT_shape path st Hauth) as [res [st1 [new [Hrun [Hc Hs]]]]].
  exists res, st1, new. split; [exact Hrun|]. split; [exact Hc|].
  split; [now apply uploadShape_retries | exact parseUploadResult_401].
Qed.

Lemma one_refresh_one_retry_on_401_witness :
  exists res st1 new,
    UploadFIT "/tmp/a.fit"
      (start 1000 [answer 401 ""; answer 200 "consumer"; answer 200 "hour";
                   answer 200 "{}"]%string)
      = Some (res, st1) /\
    calls st1 = [] ++ new /\
    retriesOnceOn401 new res /\
    forall body, outcome (Ok (401, body))
                 = Some ("upload failed (HTTP 401): " ++ preview body)%string.
Proof.
  apply (one_refresh_one_retry_on_401 "/tmp/a.fit"
           (start 1000 [answer 401 ""; answer 200 "consumer";
                        answer 200 "hour"; answer 200 "{}"]%string)).
  discriminate.
Defined.

(** C7 as stated fails when the refresh fails: the first attempt is
    answered with 401, the refresh cannot fetch the consumer key, and the
    upload returns the refresh failure without any retry. *)
Lemma no_retry_when_refresh_fails :
  exists res st1,
    UploadFIT "/tmp/a.fit"
      (start 1000 [answer 401 "rejected"; Err "timeout"]%string)
      = Some (res, st1) /\
    calls st1 = [CallUpload (Ok (401, "rejected"));
                 CallRefresh (Some "fetch consumer: timeout")]%string /\
    res = Some "token refresh: fetch consumer: timeout"%string.
Proof.
  eexists. eexists. split; [vm_compute; reflexivity|]. split; reflexivity.
Qed.

(** C8.  An upload response with HTTP status 409 amounts to the duplicate
    outcome, the error "duplicate activity (already uploaded to Garmin)"
    that the caller recognises as a duplicate; in an upload, no refresh
    and no retry follows an attempt answered with 409, and the duplicate
    error is the result of the upload. *)
Theorem conflict_is_duplicate_without_retry
  {World : Type} {RT : Runtime World} (path : string) (st : Traced) :
  Client.OAuth1 (client (machine st)) <> None ->
  (forall body, parseUploadResult 409 body = Some duplicateError) /\
  isDuplicate duplicateError = true /\
  exists res st1 new,
    UploadFIT path st = Some (res, st1) /\
    calls st1 = calls st ++ new /\
    nothingAfter409 new /\
    forall body, In (CallUpload (Ok (409, body))) new ->
                 res = Some duplicateError.
Proof.
  intros Hauth. split; [exact parseUploadResult_409|].
  split; [vm_compute; reflexivity|].
  destruct (UploadFIT_shape path st Hauth) as [res [st1 [new [Hrun [Hc Hs]]]]].
  exists res, st1, new. split; [exact Hrun|]. split; [exact Hc|].
  now apply uploadShape_409.
Qed.

Lemma conflict_is_duplicate_without_retry_witness :
  (forall body, parseUploadResult 409 body = Some duplicateError) /\
  isDuplicate duplicateError = true /\
  exists res st1 new,
    UploadFIT "/tmp/a.fit" (start 1000 [answer 409 "conflict"]%string)
      = Some (res, st1) /\
    calls st1 = [] ++ new /\
    nothingAfter409 new /\
    forall body, In (CallUpload (Ok (409, body))) new ->
                 res = Some duplicateError.
Proof.
  apply (conflict_is_duplicate_without_retry "/tmp/a.fit"
           (start 1000 [answer 409 "conflict"]%string)).
  discriminate.
Defined.

Example conflict_run :
  UploadFIT "/tmp/a.fit" (start 1000 [answer 409 "conflict"]%string)
  = Some (Some duplicateError,
          mkTraced (mkMachine someClient (mkScript 1000 []))
                   [CallUpload (Ok (409, "conflict"%string))]).
Proof. vm_compute. reflexivity. Qed.

Lemma no_sentinel_written_witness :
  let pools := fst (recordsLoop (Activity.Records mixed) noPools) in
  (belowSentinel uint16Invalid (powers pools) /\
   belowSentinel uint8Invalid (heartRates pools) /\
   belowSentinel uint8Invalid (cadences pools)) /\
  (narrowsExactly avgU16 uint16Invalid (powers pools) /\
   narrowsExactly avgU8 uint8Invalid (heartRates pools) /\
   narrowsExactly avgU8 uint8Invalid (cadences pools)) /\
  exists a',
    correct mixed = Some a' /\
    eachAggregate (fun sentinel cur new _ => noSentinelWritten sentinel cur new)
                  mixed a'.
Proof.
  apply (no_sentinel_written mixed). exact mixed_wf.
Defined.

(* ================================================================== *)
(** * Further properties of the correction pass                         *)
(* ================================================================== *)

Section AveragingOrder.

Lemma total_perm l l' : Permutation l l' -> total l = total l'.
Proof.
  induction 1 as [|x l l' _ IH|x y l|l l' l'' _ IH1 _ IH2]; simpl; lia.
Qed.

Lemma len_perm {A} (l l' : list A) : Permutation l l' -> len l = len l'.
Proof. intros H. unfold len. now rewrite (Permutation_length H). Qed.

Lemma avgBits_perm bits l l' :
  Permutation l l' -> avgBits bits l = avgBits bits l'.
Proof.
  intros H. unfold avgBits.
  now rewrite !sumU64_total, (total_perm l l' H), (len_perm l l' H).
Qed.

Lemma filter_perm {A} (f : A -> bool) l l' :
  Permutation l l' -> Permutation (filter f l) (filter f l').
Proof.
  induction 1 as [|x l l' _ IH|x y l|l l' l'' _ IH1 _ IH2]; simpl.
  - constructor.
  - destruct (f x); [now constructor | exact IH].
  - destruct (f x), (f y); try reflexivity. apply perm_swap.
  - now transitivity (filter f l').
Qed.

Lemma realSamples_perm sentinel field recs recs' :
  Permutation recs recs' ->
  Permutation (realSamples sentinel field recs)
              (realSamples sentinel field recs').
Proof.
  intros H. unfold realSamples. apply filter_perm.
  now apply Permutation_map.
Qed.

Lemma fixedField_perm sf bits cur pool pool' :
  Permutation pool pool' ->
  fixedField sf (avgBits bits) cur pool
  = fixedField sf (avgBits bits) cur pool'.
Proof.
  intros H. unfold fixedField.
  now rewrite (len_perm pool pool' H), (avgBits_perm bits pool pool' H).
Qed.

Lemma sessionsLoop_perm recs recs' ss :
  Permutation recs recs' ->
  sessionsLoop (poolsOf recs) ss = sessionsLoop (poolsOf recs') ss.
Proof.
  intros H. induction ss as [|s rest IH]; [reflexivity|].
  cbn [sessionsLoop]. rewrite IH. f_equal.
  rewrite !sessionStep_fields.
  change avgU16 with (avgBits 16). change avgU8 with (avgBits 8).
  unfold poolsOf. cbn [powers heartRates cadences].
  rewrite (fixedField_perm shouldFixU16 16 _ _ _
             (realSamples_perm uint16Invalid RecordMesg.Power _ _ H)).
  rewrite (fixedField_perm shouldFixU8 8 (Session.AvgHeartRate s) _ _
             (realSamples_perm uint8Invalid RecordMesg.HeartRate _ _ H)).
  rewrite (fixedField_perm shouldFixU8 8 (Session.AvgCadence s) _ _
             (realSamples_perm uint8Invalid RecordMesg.Cadence _ _ H)).
  reflexivity.
Qed.

End AveragingOrder.

(** The averaging helpers do not depend on the order of the samples: two
    pools that are rearrangements of each other get the same result
    (the same mean, or the same panic when they are empty). *)
Theorem average_ignores_order (vals vals' : list Z) :
  Permutation vals vals' ->
  avgU16 vals = avgU16 vals' /\ avgU8 vals = avgU8 vals'.
Proof.
  intros H. rewrite !avgU16_bits, !avgU8_bits.
  split; now apply avgBits_perm.
Qed.

Lemma average_ignores_order_witness :
  avgU16 [100; 201; 7] = avgU16 [201; 100; 7] /\
  avgU8 [100; 201; 7] = avgU8 [201; 100; 7].
Proof.
  apply (average_ignores_order [100; 201; 7] [201; 100; 7]).
  apply perm_swap.
Defined.

Lemma total_lower lo vals :
  Forall (fun v => lo <= v) vals -> lo * len vals <= total vals.
Proof.
  induction 1 as [|v rest Hv _ IH]; simpl.
  - unfold len. simpl. lia.
  - rewrite len_cons. lia.
Qed.

Lemma avgBits_between bits lo hi vals :
  0 < bits <= 16 -> vals <> [] -> len vals < maxSamples ->
  0 <= lo -> hi < 2 ^ bits ->
  Forall (fun v => lo <= v <= hi) vals ->
  exists q, avgBits bits vals = Some q /\ lo <= q <= hi.
Proof.
  intros Hb Hne Hmax Hlo Hhi Hall.
  pose proof (nonempty_len vals Hne) as Hlen.
  rewrite (avgBits_mean bits vals Hb Hne Hmax).
  - exists (truncMean vals). split; [reflexivity|].
    assert (Hl : lo * len vals <= total vals).
    { apply total_lower. eapply Forall_impl; [|exact Hall].
      cbv beta. intros; lia. }
    assert (Hu : 0 <= total vals <= hi * len vals).
    { apply total_bounds. eapply Forall_impl; [|exact Hall].
      cbv beta. intros; lia. }
    unfold truncMean. split.
    + apply Z.div_le_lower_bound; lia.
    + apply Z.div_le_upper_bound; lia.
  - eapply Forall_impl; [|exact Hall]. unfold is_uint. cbv beta.
    intros; lia.
Qed.

(** On a non-empty pool of fewer than [maxSamples] samples the mean
    returned by a helper lies between the smallest and the largest
    sample; in particular the mean of equal samples is that sample. *)
Theorem average_between_extremes (lo hi : Z) (vals : list Z) :
  vals <> [] -> len vals < maxSamples -> 0 <= lo ->
  Forall (fun v => lo <= v <= hi) vals ->
  (hi < 2 ^ 16 -> exists q, avgU16 vals = Some q /\ lo <= q <= hi) /\
  (hi < 2 ^ 8 -> exists q, avgU8 vals = Some q /\ lo <= q <= hi).
Proof.
  intros Hne Hmax Hlo Hall. split; intros Hhi.
  - rewrite avgU16_bits. now apply (avgBits_between 16 lo hi); try lia.
  - rewrite avgU8_bits. now apply (avgBits_between 8 lo hi); try lia.
Qed.

Lemma average_between_extremes_witness :
  (150 < 2 ^ 16 -> exists q, avgU16 [150; 150; 150] = Some q /\ 150 <= q <= 150) /\
  (150 < 2 ^ 8 -> exists q, avgU8 [150; 150; 150] = Some q /\ 150 <= q <= 150).
Proof.
  apply (average_between_extremes 150 150 [150; 150; 150]).
  - discriminate.
  - vm_compute. reflexivity.
  - lia.
  - repeat constructor; lia.
Defined.

(** Correction writes nothing but the session averages, the record
    temperatures and the identity triples: laps, record timestamps and
    samples, session times and sport, device indexes and the creation
    time of the file id are those of the input, in the same order. *)
Theorem correction_keeps_the_rest (a : Activity.t) :
  wf_activity a ->
  exists a',
    correct a = Some a' /\
    Activity.Laps a' = Activity.Laps a /\
    FileId.TimeCreated (Activity.FileId a')
      = FileId.TimeCreated (Activity.FileId a) /\
    map DeviceInfo.DeviceIndex (Activity.DeviceInfos a')
      = map DeviceInfo.DeviceIndex (Activity.DeviceInfos a) /\
    map (fun r => (RecordMesg.Timestamp r, RecordMesg.Power r,
                   RecordMesg.HeartRate r, RecordMesg.Cadence r))
        (Activity.Records a')
      = map (fun r => (RecordMesg.Timestamp r, RecordMesg.Power r,
                       RecordMesg.HeartRate r, RecordMesg.Cadence r))
            (Activity.Records a) /\
    map (fun s => (Session.Timestamp s, Session.StartTime s, Session.Sport s))
        (Activity.Sessions a')
      = map (fun s => (Session.Timestamp s, Session.StartTime s,
                       Session.Sport s))
            (Activity.Sessions a).
Proof.
  intros Hwf. destruct (correct_total a Hwf) as [sess [Hstep Hrun]].
  eexists. split; [exact Hrun|].
  cbn [Activity.Laps Activity.FileId Activity.DeviceInfos Activity.Records
       Activity.Sessions spoofFileId FileId.TimeCreated].
  split; [reflexivity|]. split; [reflexivity|]. split; [|split].
  - apply (spoofDeviceInfos_identity (Activity.DeviceInfos a)).
  - rewrite map_map. reflexivity.
  - clear Hrun. induction Hstep as [|s s' l l' Hs _ IH]; [reflexivity|].
    cbn [map]. rewrite IH. f_equal.
    apply sessionStep_inv in Hs. destruct Hs as [_ [_ [_ [H1 [H2 H3]]]]].
    now rewrite H1, H2, H3.
Qed.

Lemma correction_keeps_the_rest_witness :
  exists a',
    correct mixed = Some a' /\
    Activity.Laps a' = Activity.Laps mixed /\
    FileId.TimeCreated (Activity.FileId a')
      = FileId.TimeCreated (Activity.FileId mixed) /\
    map DeviceInfo.DeviceIndex (Activity.DeviceInfos a')
      = map DeviceInfo.DeviceIndex (Activity.DeviceInfos mixed) /\
    map (fun r => (RecordMesg.Timestamp r, RecordMesg.Power r,
                   RecordMesg.HeartRate r, RecordMesg.Cadence r))
        (Activity.Records a')
      = map (fun r => (RecordMesg.Timestamp r, RecordMesg.Power r,
                       RecordMesg.HeartRate r, RecordMesg.Cadence r))
            (Activity.Records mixed) /\
    map (fun s => (Session.Timestamp s, Session.StartTime s, Session.Sport s))
        (Activity.Sessions a')
      = map (fun s => (Session.Timestamp s, Session.StartTime s,
                       Session.Sport s))
            (Activity.Sessions mixed).
Proof.
  apply (correction_keeps_the_rest mixed). exact mixed_wf.
Defined.

(** The corrected sessions do not depend on the order of the records:
    correcting an activity whose records have been rearranged gives the
    same sessions, file id and device entries (and panics on neither or
    on both). *)
Theorem correction_ignores_record_order (a : Activity.t)
  (recs' : list RecordMesg.t) :
  Permutation (Activity.Records a) recs' ->
  option_map (fun a' => (Activity.Sessions a', Activity.FileId a',
                         Activity.DeviceInfos a'))
             (correct (setsRecords recs' a))
  = option_map (fun a' => (Activity.Sessions a', Activity.FileId a',
                           Activity.DeviceInfos a'))
               (correct a).
Proof.
  intros H. rewrite !correct_spec. unfold setsRecords.
  cbn [Activity.Records Activity.Sessions Activity.FileId
       Activity.DeviceInfos Activity.Laps].
  rewrite <- (sessionsLoop_perm _ _ (Activity.Sessions a) H).
  destruct (sessionsLoop (poolsOf (Activity.Records a)) (Activity.Sessions a));
    reflexivity.
Qed.

Lemma correction_ignores_record_order_witness :
  option_map (fun a' => (Activity.Sessions a', Activity.FileId a',
                         Activity.DeviceInfos a'))
             (correct (setsRecords
                         [RecordMesg.mk 2 uint16Invalid 141 uint8Invalid 21;
                          RecordMesg.mk 1 100 uint8Invalid 80 20;
                          RecordMesg.mk 3 201 150 91 sint8Invalid] mixed))
  = option_map (fun a' => (Activity.Sessions a', Activity.FileId a',
                           Activity.DeviceInfos a'))
               (correct mixed).
Proof.
  apply (correction_ignores_record_order mixed). apply perm_swap.
Defined.





(* ================================================================== *)
(** * Further properties of the file discovery                          *)
(* ================================================================== *)

Section VersionSign.

Lemma fitsPart_exact part :
  fitsPart part ->
  fst (Atoi part) = numberOf part /\ 0 <= numberOf part <= maxInt64.
Proof.
  intros [Hnum Hfit]. destruct (Atoi_numeral part Hnum) as [Hpos Hval].
  rewrite Hval. lia.
Qed.

(** The sign of the loop's result is the component-wise comparison of
    the remaining parts. *)
Lemma cmpVersionLoop_sign a b ra : forall rb,
  Forall fitsPart ra -> Forall fitsPart rb ->
  len a - len b = len ra - len rb ->
  len ra <= maxInt64 -> len rb <= maxInt64 ->
  (cmpVersionLoop a b ra rb ?= 0)
  = lexCompare (map numberOf ra) (map numberOf rb).
Proof.
  induction ra as [|x ra1 IH]; intros rb Ha Hb Hlen La Lb.
  - cbn [cmpVersionLoop]. rewrite Hlen.
    change (len (@nil string)) with 0.
    pose proof (len_nonneg rb) as Hrb.
    rewrite wrapS_small by (unfold minInt64, maxInt64 in *; lia).
    destruct rb as [|y rb1]; cbn [map lexCompare]; [reflexivity|].
    rewrite len_cons in *. pose proof (len_nonneg rb1).
    apply Z.compare_lt_iff. lia.
  - destruct rb as [|y rb1].
    + cbn [cmpVersionLoop map lexCompare]. rewrite Hlen.
      change (len (@nil string)) with 0.
      rewrite len_cons in *. pose proof (len_nonneg ra1).
      rewrite wrapS_small by (unfold minInt64, maxInt64 in *; lia).
      apply Z.compare_gt_iff. lia.
    + cbn [cmpVersionLoop map lexCompare].
      inversion Ha as [|? ? Fx Ha1]; subst.
      inversion Hb as [|? ? Fy Hb1]; subst.
      destruct (fitsPart_exact x Fx) as [Ex Rx].
      destruct (fitsPart_exact y Fy) as [Ey Ry].
      rewrite Ex, Ey. rewrite !len_cons in *.
      destruct (numberOf x ?= numberOf y) eqn:C.
      * apply Z.compare_eq in C. rewrite C, Z.eqb_refl. cbn [negb].
        apply IH; try assumption; lia.
      * rewrite Z.compare_lt_iff in C.
        replace (numberOf x =? numberOf y) with false
          by (symmetry; apply Z.eqb_neq; lia).
        cbn [negb].
        rewrite wrapS_small by (unfold minInt64, maxInt64 in *; lia).
        apply Z.compare_lt_iff. lia.
      * rewrite Z.compare_gt_iff in C.
        replace (numberOf x =? numberOf y) with false
          by (symmetry; apply Z.eqb_neq; lia).
        cbn [negb].
        rewrite wrapS_small by (unfold minInt64, maxInt64 in *; lia).
        apply Z.compare_gt_iff. lia.
Qed.

Lemma lexCompare_eq u : forall v, lexCompare u v = Eq <-> u = v.
Proof.
  induction u as [|x u1 IH]; intros [|y v1]; cbn [lexCompare];
    try (split; [discriminate | discriminate]); [now split|].
  destruct (x ?= y) eqn:C.
  - apply Z.compare_eq in C. subst y. rewrite IH.
    split; [now intros -> | now intros [= ->]].
  - split; [discriminate|]. intros [= -> _].
    rewrite Z.compare_refl in C. discriminate C.
  - split; [discriminate|]. intros [= -> _].
    rewrite Z.compare_refl in C. discriminate C.
Qed.

End VersionSign.

(** On version parts that are numerals fitting an [int],
    [cmpVersionParts] is a comparison: its sign is that of the
    component-wise comparison of the numbers from left to right (the
    shorter sequence being the smaller on a tie), exchanging the
    arguments reverses the sign, and the result is 0 exactly when the
    two sequences denote the same numbers, whatever their leading
    zeros. *)
Theorem cmpVersionParts_is_a_comparison (a b : list string) :
  Forall fitsPart a -> Forall fitsPart b ->
  len a <= maxInt64 -> len b <= maxInt64 ->
  (cmpVersionParts a b ?= 0)
    = lexCompare (map numberOf a) (map numberOf b) /\
  (cmpVersionParts b a ?= 0) = CompOpp (cmpVersionParts a b ?= 0) /\
  (cmpVersionParts a b = 0 <-> map numberOf a = map numberOf b).
Proof.
  intros Fa Fb La Lb.
  assert (Hab : (cmpVersionParts a b ?= 0)
                = lexCompare (map numberOf a) (map numberOf b)).
  { unfold cmpVersionParts. now apply cmpVersionLoop_sign. }
  assert (Hba : (cmpVersionParts b a ?= 0)
                = lexCompare (map numberOf b) (map numberOf a)).
  { unfold cmpVersionParts. now apply cmpVersionLoop_sign. }
  split; [exact Hab|]. split.
  - rewrite Hba, Hab. apply lexCompare_flip.
  - rewrite <- lexCompare_eq, <- Hab. symmetry. apply Z.compare_eq_iff.
Qed.

Lemma cmpVersionParts_is_a_comparison_witness :
  (cmpVersionParts ["3"; "08"]%string ["3"; "8"]%string ?= 0)
    = lexCompare (map numberOf ["3"; "08"]%string)
                 (map numberOf ["3"; "8"]%string) /\
  (cmpVersionParts ["3"; "8"]%string ["3"; "08"]%string ?= 0)
    = CompOpp (cmpVersionParts ["3"; "08"]%string ["3"; "8"]%string ?= 0) /\
  (cmpVersionParts ["3"; "08"]%string ["3"; "8"]%string = 0
   <-> map numberOf ["3"; "08"]%string = map numberOf ["3"; "8"]%string).
Proof.
  apply (cmpVersionParts_is_a_comparison ["3"; "08"]%string ["3"; "8"]%string).
  - repeat constructor; vm_compute; intros H; discriminate H.
  - repeat constructor; vm_compute; intros H; discriminate H.
  - vm_compute. intros H; discriminate H.
  - vm_compute. intros H; discriminate H.
Defined.

(** The file discovery returns the error of the pattern match as it is
    and reports an error when nothing matches; on a non-empty set of
    matches, whatever their names, it returns one of them and does not
    panic. *)
Theorem most_recent_is_a_candidate
  (sortSlice : (string -> string -> bool) -> list string -> list string)
  (dir : string) (matches : list string) :
  sortsSlices sortSlice ->
  (forall e, findMostRecentFitFile sortSlice dir (Err e) = Some (Err e)) /\
  findMostRecentFitFile sortSlice dir (Ok [])
    = Some (Err ("no MyNewActivity-*.fit files in " ++ dir)%string) /\
  (matches <> [] ->
   exists best,
     findMostRecentFitFile sortSlice dir (Ok matches) = Some (Ok best) /\
     In best matches).
Proof.
  intros Hsort. split; [reflexivity|]. split; [reflexivity|].
  intros Hne. destruct (Hsort versionLess matches) as [Hperm _].
  unfold findMostRecentFitFile.
  pose proof (nonempty_len matches Hne) as Hlen.
  destruct (len matches =? 0) eqn:E; [apply Z.eqb_eq in E; lia|].
  destruct (sortSlice versionLess matches) as [|first rest].
  - apply Permutation_sym, Permutation_nil in Hperm. contradiction.
  - exists first. split; [reflexivity|].
    apply (Permutation_in first (Permutation_sym Hperm)). now left.
Qed.

Lemma most_recent_is_a_candidate_witness :
  (forall e, findMostRecentFitFile insertionSort "/tmp/t" (Err e)
             = Some (Err e)) /\
  findMostRecentFitFile insertionSort "/tmp/t" (Ok [])
    = Some (Err ("no MyNewActivity-*.fit files in " ++ "/tmp/t")%string) /\
  (hugeFiles <> [] ->
   exists best,
     findMostRecentFitFile insertionSort "/tmp/t" (Ok hugeFiles)
       = Some (Ok best) /\
     In best hugeFiles).
Proof.
  apply (most_recent_is_a_candidate insertionSort "/tmp/t" hugeFiles).
  exact insertionSort_sortsSlices.
Defined.

(* ================================================================== *)
(** * Properties of the sync helpers                                    *)
(* ================================================================== *)

Section SyncFacts.

Context {World : Type} {RT : Runtime World} {SG : Storage World}.

Lemma unsyncedLoop_filter cutoff (w : World) matches : forall result,
  unsyncedLoop cutoff w matches result
  = result ++ filter (unsyncedRecent cutoff w) matches.
Proof.
  induction matches as [|path rest IH]; intros result;
    cbn [unsyncedLoop filter].
  - now rewrite app_nil_r.
  - unfold unsyncedRecent at 1.
    destruct (osStat path w) as [info|e]; [|apply IH].
    destruct (FileInfo.ModTime info <? cutoff); cbn [negb andb];
      [apply IH|].
    destruct (isSynced path w); cbn [negb]; [apply IH|].
    rewrite IH, <- app_assoc. reflexivity.
Qed.

Lemma unsyncedRecent_stat cutoff (w : World) path :
  unsyncedRecent cutoff w path = true ->
  exists info, osStat path w = Ok info /\
               cutoff <= FileInfo.ModTime info /\
               isSynced path w = false.
Proof.
  unfold unsyncedRecent. destruct (osStat path w) as [info|e];
    [|discriminate].
  intros H. apply andb_true_iff in H. destruct H as [H1 H2].
  apply negb_true_iff in H1, H2. apply Z.ltb_ge in H1.
  exists info. now repeat split.
Qed.

Lemma olderFirst_weakOrder (w : World) l :
  Forall (fun p => exists info, osStat p w = Ok info) l ->
  weakOrderOn l (olderFirst w).
Proof.
  intros Hall. rewrite Forall_forall in Hall. split.
  - intros x y Hx Hy. unfold olderFirst.
    destruct (Hall x Hx) as [ix ->]. destruct (Hall y Hy) as [iy ->].
    intros H. apply Z.ltb_lt in H. apply Z.ltb_ge. lia.
  - intros x y z Hx Hy Hz. unfold olderFirst.
    destruct (Hall x Hx) as [ix ->]. destruct (Hall y Hy) as [iy ->].
    destruct (Hall z Hz) as [iz ->].
    intros H1 H2. apply Z.ltb_ge in H1, H2. apply Z.ltb_ge. lia.
Qed.

Lemma olderFirst_notNewer (w : World) x y :
  olderFirst w y x = false -> notNewer w x y.
Proof.
  unfold olderFirst, notNewer. intros H ii jj Hx Hy.
  rewrite Hx, Hy in H. now apply Z.ltb_ge in H.
Qed.

Lemma sorted_weaken {A} (R S : A -> A -> Prop) l :
  (forall x y, R x y -> S x y) -> Sorted R l -> Sorted S l.
Proof.
  intros HRS. induction 1 as [|a l _ IH Hd]; constructor; [exact IH|].
  destruct Hd; constructor. now apply HRS.
Qed.

Lemma string_length_app (s t : string) :
  String.length (s ++ t) = (String.length s + String.length t)%nat.
Proof. induction s as [|c s IH]; simpl; [reflexivity | now rewrite IH]. Qed.

Lemma string_app_cancel (p q s : string) :
  (p ++ s)%string = (q ++ s)%string -> p = q.
Proof.
  revert q. induction p as [|c p IH]; intros [|d q] H; simpl in H.
  - reflexivity.
  - apply (f_equal String.length) in H. simpl in H.
    rewrite string_length_app in H. lia.
  - apply (f_equal String.length) in H. simpl in H.
    rewrite string_length_app in H. lia.
  - injection H as -> H. f_equal. now apply IH.
Qed.

Lemma isSynced_frame (w w1 : World) p q :
  (forall r, r <> (p ++ ".synced")%string -> osStat r w1 = osStat r w) ->
  q <> p -> isSynced q w1 = isSynced q w.
Proof.
  intros Hframe Hne. unfold isSynced. rewrite Hframe; [reflexivity|].
  intros H. apply Hne. now apply (string_app_cancel q p ".synced").
Qed.

Lemma markSynced_then_isSynced p (w w1 : World) :
  markersPersist -> markSynced p w = (None, w1) ->
  match osStat (p ++ ".synced") w1 with
  | Ok _ => true
  | Err _ => false
  end = true.
Proof.
  intros [Hstat _] Hmark. unfold markSynced in Hmark.
  destruct (timeNowFormat RFC3339 w) as [stamp w0].
  destruct (Hstat _ _ _ _ Hmark) as [info ->]. reflexivity.
Qed.

End SyncFacts.

(** The scan for unsynced files returns exactly the matches that can be
    read with [os.Stat], were not modified before the cutoff of thirty
    days and have no [.synced] marker, each as often as it was matched,
    and in an order in which no file is newer than the next. *)
Theorem unsynced_scan_is_exact
  {World : Type} {RT : Runtime World} {SG : Storage World}
  (sortSlice : (string -> string -> bool) -> list string -> list string)
  (dir : string) (matches : list string) (w w1 : World) (cutoff : Z) :
  sortsSlices sortSlice ->
  timeNowAddDate 0 0 (-30) w = (cutoff, w1) ->
  exists result,
    findUnsyncedFitFiles sortSlice dir (Ok matches) w = (Ok result, w1) /\
    Permutation (filter (unsyncedRecent cutoff w1) matches) result /\
    (forall p, In p result <->
               In p matches /\ unsyncedRecent cutoff w1 p = true) /\
    Sorted (notNewer w1) result.
Proof.
  intros Hsort Hcut. unfold findUnsyncedFitFiles. rewrite Hcut.
  rewrite unsyncedLoop_filter. cbn [app].
  set (kept := filter (unsyncedRecent cutoff w1) matches).
  destruct (Hsort (olderFirst w1) kept) as [Hperm Hs].
  eexists. split; [reflexivity|]. split; [exact Hperm|]. split.
  - intros p. rewrite <- filter_In. fold kept. split.
    + apply Permutation_in. now apply Permutation_sym.
    + now apply Permutation_in.
  - apply (sorted_weaken (fun x y => olderFirst w1 y x = false)).
    + intros x y. apply olderFirst_notNewer.
    + apply Hs. apply olderFirst_weakOrder. apply Forall_forall.
      intros p Hp. apply filter_In in Hp. destruct Hp as [_ Hp].
      destruct (unsyncedRecent_stat cutoff w1 p Hp) as [info [Hi _]].
      now exists info.
Qed.

Lemma unsynced_scan_is_exact_witness :
  exists result,
    findUnsyncedFitFiles insertionSort "/d"
      (Ok ["/d/a.fit"; "/d/b.fit"; "/d/c.fit"; "/d/gone.fit"]%string)
      (mkDrive 5000000
         [("/d/a.fit", ("A", 4900000)); ("/d/b.fit", ("B", 100));
          ("/d/c.fit", ("C", 4800000));
          ("/d/a.fit.synced", ("x", 4950000))]%string [])
    = (Ok result,
       mkDrive 5000000
         [("/d/a.fit", ("A", 4900000)); ("/d/b.fit", ("B", 100));
          ("/d/c.fit", ("C", 4800000));
          ("/d/a.fit.synced", ("x", 4950000))]%string []) /\
    Permutation
      (filter (unsyncedRecent (5000000 + -30 * 86400)
                 (mkDrive 5000000
                    [("/d/a.fit", ("A", 4900000)); ("/d/b.fit", ("B", 100));
                     ("/d/c.fit", ("C", 4800000));
                     ("/d/a.fit.synced", ("x", 4950000))]%string []))
              ["/d/a.fit"; "/d/b.fit"; "/d/c.fit"; "/d/gone.fit"]%string)
      result /\
    (forall p, In p result <->
               In p ["/d/a.fit"; "/d/b.fit"; "/d/c.fit"; "/d/gone.fit"]%string /\
               unsyncedRecent (5000000 + -30 * 86400)
                 (mkDrive 5000000
                    [("/d/a.fit", ("A", 4900000)); ("/d/b.fit", ("B", 100));
                     ("/d/c.fit", ("C", 4800000));
                     ("/d/a.fit.synced", ("x", 4950000))]%string []) p
               = true) /\
    Sorted
      (notNewer
         (mkDrive 5000000
            [("/d/a.fit", ("A", 4900000)); ("/d/b.fit", ("B", 100));
             ("/d/c.fit", ("C", 4800000));
             ("/d/a.fit.synced", ("x", 4950000))]%string []))
      result.
Proof.
  apply (unsynced_scan_is_exact insertionSort "/d"
           ["/d/a.fit"; "/d/b.fit"; "/d/c.fit"; "/d/gone.fit"]%string).
  - exact insertionSort_sortsSlices.
  - reflexivity.
Defined.

Example unsynced_scan_run :
  fst (findUnsyncedFitFiles insertionSort "/d"
         (Ok ["/d/a.fit"; "/d/b.fit"; "/d/c.fit"; "/d/d.fit"; "/d/gone.fit"]%string)
         (mkDrive 5000000
            [("/d/a.fit", ("A", 4900000)); ("/d/b.fit", ("B", 100));
             ("/d/c.fit", ("C", 4800000)); ("/d/d.fit", ("D", 4700000));
             ("/d/a.fit.synced", ("x", 4950000))]%string []))
  = Ok ["/d/d.fit"; "/d/c.fit"]%string.
Proof. vm_compute. reflexivity. Qed.

Lemma drive_markersPersist : @markersPersist Drive onDrive driveStorage.
Proof.
  unfold markersPersist. cbn. split; [|split; [|split]].
  - intros p d w w1 H. injection H as <-. cbn.
    rewrite String.eqb_refl. now eexists.
  - intros p d w e w1 q H Hne. injection H as _ <-. cbn.
    replace (String.eqb p q) with false; [reflexivity|].
    symmetry. apply String.eqb_neq. congruence.
  - intros layout w s w1 q H. now injection H as _ <-.
  - intros y m d w t w1 q H. now injection H as _ <-.
Qed.

(** Once [markSynced] has written the marker of a file, [isSynced]
    reports that file as synced; whether the write succeeded or not, the
    files other than that one are reported as before. *)
Theorem marked_file_is_synced
  {World : Type} {RT : Runtime World} {SG : Storage World}
  (p : string) (w w1 : World) (e : option error) :
  markersPersist ->
  markSynced p w = (e, w1) ->
  (e = None -> isSynced p w1 = true) /\
  (forall q, q <> p -> isSynced q w1 = isSynced q w).
Proof.
  intros [Hstat [Hframe [Hclock _]]] Hmark. unfold markSynced in Hmark.
  destruct (timeNowFormat RFC3339 w) as [stamp w0] eqn:Hfmt.
  split.
  - intros ->. unfold isSynced.
    destruct (Hstat _ _ _ _ Hmark) as [info ->]. reflexivity.
  - intros q Hne. apply (isSynced_frame w w1 p q); [|exact Hne].
    intros r Hr. rewrite (Hframe _ _ _ _ _ r Hmark Hr).
    apply (Hclock _ _ _ _ r Hfmt).
Qed.

Lemma marked_file_is_synced_witness :
  (@None error = None ->
   isSynced "/d/a.fit"
     (mkDrive 7 [("/d/a.fit.synced", (itoa 7, 7)); ("/d/a.fit", ("A", 3))]%string [])
   = true) /\
  (forall q, q <> "/d/a.fit"%string ->
     isSynced q
       (mkDrive 7 [("/d/a.fit.synced", (itoa 7, 7)); ("/d/a.fit", ("A", 3))]%string [])
     = isSynced q (mkDrive 7 [("/d/a.fit", ("A", 3))]%string [])).
Proof.
  apply (marked_file_is_synced "/d/a.fit"
           (mkDrive 7 [("/d/a.fit", ("A", 3))]%string [])).
  - exact drive_markersPersist.
  - reflexivity.
Defined.

(** A file whose marker has been written is not returned by a later scan
    for unsynced files, whatever is matched. *)
Theorem marked_file_is_not_rescanned
  {World : Type} {RT : Runtime World} {SG : Storage World}
  (sortSlice : (string -> string -> bool) -> list string -> list string)
  (p dir : string) (matches : list string) (w w1 : World) :
  markersPersist ->
  sortsSlices sortSlice ->
  markSynced p w = (None, w1) ->
  exists result w2,
    findUnsyncedFitFiles sortSlice dir (Ok matches) w1 = (Ok result, w2) /\
    ~ In p result.
Proof.
  intros Hlaws Hsort Hmark.
  pose proof (markSynced_then_isSynced p w w1 Hlaws Hmark) as Hsynced.
  destruct Hlaws as [_ [_ [_ Hdate]]].
  unfold findUnsyncedFitFiles.
  destruct (timeNowAddDate 0 0 (-30) w1) as [cutoff w2] eqn:Hcut.
  rewrite unsyncedLoop_filter. cbn [app].
  eexists. eexists. split; [reflexivity|].
  intros Hin.
  destruct (Hsort (olderFirst w2)
              (filter (unsyncedRecent cutoff w2) matches)) as [Hperm _].
  apply (Permutation_in p (Permutation_sym Hperm)) in Hin.
  apply filter_In in Hin. destruct Hin as [_ Hin].
  destruct (unsyncedRecent_stat cutoff w2 p Hin) as [info [_ [_ Hno]]].
  unfold isSynced in Hno, Hsynced.
  rewrite (Hdate _ _ _ _ _ _ (p ++ ".synced")%string Hcut) in Hno.
  rewrite Hsynced in Hno. discriminate Hno.
Qed.

Lemma marked_file_is_not_rescanned_witness :
  exists result w2,
    findUnsyncedFitFiles insertionSort "/d"
      (Ok ["/d/a.fit"; "/d/c.fit"]%string)
      (mkDrive 7 [("/d/a.fit.synced", (itoa 7, 7)); ("/d/a.fit", ("A", 3));
                  ("/d/c.fit", ("C", 5))]%string [])
    = (Ok result, w2) /\
    ~ In "/d/a.fit"%string result.
Proof.
  apply (marked_file_is_not_rescanned insertionSort "/d/a.fit" "/d"
           ["/d/a.fit"; "/d/c.fit"]%string
           (mkDrive 7 [("/d/a.fit", ("A", 3)); ("/d/c.fit", ("C", 5))]%string [])).
  - exact drive_markersPersist.
  - exact insertionSort_sortsSlices.
  - reflexivity.
Defined.

Example ext_test :
  Ext "/some/path/MyNewActivity-3.8.5.fit" = ".fit"%string /\
  Ext "a.b/c" = ""%string /\ Ext "a.b/" = ""%string /\
  Ext "x." = "."%string /\ Ext "" = ""%string /\
  TrimSuffix "MyNewActivity-3.8.5.fit" ".fit" = "MyNewActivity-3.8.5"%string /\
  TrimSuffix "abc" "x" = "abc"%string /\ TrimSuffix "abc" "" = "abc"%string /\
  TrimSuffix "c" "abc" = "c"%string.
Proof. repeat split. Qed.

Section OutputName.

Lemma substring_prefix (a e : string) :
  substring 0 (String.length a) (a ++ e) = a.
Proof.
  induction a as [|c a IH]; simpl.
  - destruct e; reflexivity.
  - now rewrite IH.
Qed.

Lemma string_app_empty (s : string) : (s ++ "")%string = s.
Proof. induction s as [|c s IH]; simpl; [reflexivity | now rewrite IH]. Qed.

Lemma substring_whole (e : string) : substring 0 (String.length e) e = e.
Proof. induction e as [|c e IH]; simpl; [reflexivity | now rewrite IH]. Qed.

Lemma substring_suffix (a e : string) :
  substring (String.length a) (String.length e) (a ++ e) = e.
Proof.
  induction a as [|c a IH]; simpl; [apply substring_whole | exact IH].
Qed.

(** Trimming a suffix that is there leaves what precedes it. *)
Lemma TrimSuffix_app (a e : string) : TrimSuffix (a ++ e) e = a.
Proof.
  unfold TrimSuffix, HasSuffix. rewrite string_length_app.
  replace (String.length a + String.length e - String.length e)%nat
    with (String.length a) by lia.
  rewrite substring_suffix, String.eqb_refl, substring_prefix.
  replace (String.length e <=? String.length a + String.length e)%nat
    with true by (symmetry; apply Nat.leb_le; lia).
  reflexivity.
Qed.

Lemma string_of_list_app (l1 l2 : list ascii) :
  string_of_list_ascii (l1 ++ l2)
  = (string_of_list_ascii l1 ++ string_of_list_ascii l2)%string.
Proof. induction l1 as [|c l1 IH]; simpl; [reflexivity | now rewrite IH]. Qed.

(** The extension is the end of the last element: read from the end of
    the path, the element up to the separator is the extension preceded
    by something. *)
Lemma extFrom_suffix rs : forall acc,
  exists front, rev (takeToSep rs) ++ acc = front ++ extFrom rs acc.
Proof.
  induction rs as [|c rest IH]; intros acc; cbn [takeToSep extFrom].
  - exists acc. now rewrite app_nil_r.
  - destruct (isSep c).
    + exists acc. now rewrite app_nil_r.
    + destruct (Ascii.eqb c ".").
      * exists (rev (takeToSep rest)). cbn [rev].
        now rewrite <- app_assoc.
      * destruct (IH (c :: acc)) as [front Hfront]. exists front.
        cbn [rev]. now rewrite <- app_assoc.
Qed.

Lemma Base_Ext path : exists stem, Base path = (stem ++ Ext path)%string.
Proof.
  unfold Base, Ext. destruct path as [|c0 path0] eqn:Epath.
  - exists "."%string. reflexivity.
  - cbn [isEmpty]. rewrite <- Epath.
    set (rs := rev (list_ascii_of_string path)).
    destruct rs as [|c rest] eqn:Ers.
    + exists "/"%string. reflexivity.
    + cbn [dropLeadingSeps extFrom]. destruct (isSep c) eqn:Esep.
      * cbn [string_of_list_ascii]. eexists. now rewrite string_app_empty.
      * destruct (extFrom_suffix (c :: rest) []) as [front Hfront].
        rewrite app_nil_r in Hfront. cbn [extFrom] in Hfront.
        rewrite Esep in Hfront.
        destruct (rev (takeToSep (c :: rest))) as [|d last] eqn:Elast.
        -- cbn [takeToSep] in Elast. rewrite Esep in Elast.
           cbn [rev] in Elast. destruct (rev (takeToSep rest)); discriminate.
        -- exists (string_of_list_ascii front).
           rewrite <- string_of_list_app, <- Hfront. reflexivity.
Qed.

End OutputName.

(** The output name is the base name of the input without its
    extension, an underscore, the time of the call and [.fit]: what was
    cut from the base name is exactly the extension of the input path. *)
Theorem output_name_keeps_the_stem
  {World : Type} {RT : Runtime World} {SG : Storage World}
  (inputPath : string) (w : World) :
  exists stem ts w1,
    generateOutputFilename inputPath w
      = ((stem ++ "_" ++ ts ++ ".fit")%string, w1) /\
    timeNowFormat "2006-01-02_150405" w = (ts, w1) /\
    Base inputPath = (stem ++ Ext inputPath)%string.
Proof.
  destruct (Base_Ext inputPath) as [stem Hstem].
  destruct (timeNowFormat "2006-01-02_150405" w) as [ts w1] eqn:Hts.
  exists stem, ts, w1. unfold generateOutputFilename.
  rewrite Hts, Hstem, TrimSuffix_app. now repeat split.
Qed.

Example output_name_run :
  fst (generateOutputFilename "/some/path/MyNewActivity-3.8.5.fit"
         (mkDrive 20240102 [] []))
  = "MyNewActivity-3.8.5_20240102.fit"%string.
Proof. vm_compute. reflexivity. Qed.

(* ================================================================== *)
(** * Further properties of the upload client                           *)
(* ================================================================== *)

Section UploadResult.

Context {World : Type} {RT : Runtime World}.

Lemma substring_length n (s : string) :
  (String.length (substring 0 n s) <= n)%nat.
Proof.
  revert s. induction n as [|n IH]; intros [|c s]; simpl; try lia.
  specialize (IH s). lia.
Qed.

Lemma substring_all n : forall s : string,
  (String.length s <= n)%nat -> substring 0 n s = s.
Proof.
  induction n as [|n IH]; intros [|c s] Hlen; cbn [String.length] in Hlen;
    try reflexivity; [lia|].
  cbn [substring]. rewrite IH; [reflexivity | lia].
Qed.

Lemma substring_is_prefix n (s : string) :
  String.prefix (substring 0 n s) s = true.
Proof.
  revert s. induction n as [|n IH]; intros [|c s]; simpl; try reflexivity.
  rewrite IH. destruct (ascii_dec c c); [reflexivity | contradiction].
Qed.

Lemma Contains_app (a b substr : string) :
  Contains b substr = true -> Contains (a ++ b) substr = true.
Proof.
  intros H. induction a as [|c a IH]; [exact H|].
  cbn [append Contains]. rewrite IH. apply orb_true_r.
Qed.

Lemma parseUploadResult_cases status body :
  (status = 409 /\ parseUploadResult status body = Some duplicateError) \/
  (status <> 409 /\ 400 <= status /\
   parseUploadResult status body
   = Some ("upload failed (HTTP " ++ itoa status ++ "): "
           ++ preview body)%string) \/
  (status <> 409 /\ status < 400 /\
   parseUploadResult status body
   = match jsonFailures body with
     | Ok (f :: fs) =>
         Some ("upload reported failures: " ++ fmtSlice (f :: fs))%string
     | _ => None
     end).
Proof.
  unfold parseUploadResult. destruct (status =? 409) eqn:E409.
  - left. apply Z.eqb_eq in E409. now split.
  - right. apply Z.eqb_neq in E409. destruct (status >=? 400) eqn:E400.
    + left. rewrite Z.geb_leb in E400. apply Z.leb_le in E400.
      now repeat split.
    + right. rewrite Z.geb_leb in E400. apply Z.leb_gt in E400.
      split; [exact E409|]. split; [exact E400|].
      destruct (jsonFailures body) as [[|f fs]|e]; reflexivity.
Qed.

End UploadResult.

(** [parseUploadResult] returns nil exactly when the status is below 400
    and the body reports no failure: a body that cannot be decoded, or
    whose list of failures is empty, counts as a success. *)
Theorem upload_result_is_nil_iff
  {World : Type} {RT : Runtime World} (status : Z) (body : string) :
  parseUploadResult status body = None <->
  status < 400 /\
  (forall failures, jsonFailures body = Ok failures -> failures = []).
Proof.
  destruct (parseUploadResult_cases status body)
    as [[H409 Hr] | [[Hne [H400 Hr]] | [Hne [H400 Hr]]]]; rewrite Hr.
  - split; [discriminate | intros [H _]; lia].
  - split; [discriminate | intros [H _]; lia].
  - destruct (jsonFailures body) as [[|f fs]|e].
    + split; [|reflexivity]. intros _. split; [exact H400|].
      intros failures H. now injection H as <-.
    + split; [discriminate|]. intros [_ H].
      specialize (H (f :: fs) eq_refl). discriminate H.
    + split; [|reflexivity]. intros _. split; [exact H400|].
      intros failures H. discriminate H.
Qed.

(** The error for a response with a status of 400 or more, other than
    409, names the status and quotes the start of the body, 300 bytes
    of it at most. *)
Theorem upload_failure_quotes_a_bounded_prefix
  {World : Type} {RT : Runtime World} (status : Z) (body : string) :
  400 <= status -> status <> 409 ->
  exists quoted,
    parseUploadResult status body
      = Some ("upload failed (HTTP " ++ itoa status ++ "): " ++ quoted)%string /\
    String.prefix quoted body = true /\
    (String.length quoted <= 300)%nat /\
    (String.length body <= 300 -> quoted = body)%nat.
Proof.
  intros H400 Hne. exists (preview body).
  destruct (parseUploadResult_cases status body)
    as [[H409 _] | [[_ [_ Hr]] | [_ [Hlt _]]]]; try lia.
  split; [exact Hr|]. unfold preview. split; [apply substring_is_prefix|].
  split; [apply substring_length|].
  apply substring_all.
Qed.

Lemma upload_failure_quotes_a_bounded_prefix_witness :
  exists quoted,
    parseUploadResult 500 "oops"
      = Some ("upload failed (HTTP " ++ itoa 500 ++ "): " ++ quoted)%string /\
    String.prefix quoted "oops" = true /\
    (String.length quoted <= 300)%nat /\
    (String.length "oops" <= 300 -> quoted = "oops"%string)%nat.
Proof.
  apply (upload_failure_quotes_a_bounded_prefix (RT := scripted) 500 "oops");
    [lia | discriminate].
Defined.

(** The caller takes an upload error for a duplicate whenever its text
    contains "duplicate": besides the answer 409, every answer with a
    status of 400 or more whose quoted body contains that word is taken
    for a duplicate. *)
Theorem failure_mentioning_duplicate_is_taken_for_one
  {World : Type} {RT : Runtime World} (status : Z) (body : string) :
  400 <= status ->
  Contains (preview body) "duplicate" = true ->
  exists e, parseUploadResult status body = Some e /\ isDuplicate e = true.
Proof.
  intros H400 Hword.
  destruct (parseUploadResult_cases status body)
    as [[H409 Hr] | [[_ [_ Hr]] | [_ [Hlt _]]]]; try lia.
  - exists duplicateError. split; [exact Hr | reflexivity].
  - eexists. split; [exact Hr|]. unfold isDuplicate.
    apply Contains_app, Contains_app, Contains_app. exact Hword.
Qed.

Lemma failure_mentioning_duplicate_is_taken_for_one_witness :
  exists e,
    parseUploadResult 500 "duplicate key value violates constraint" = Some e /\
    isDuplicate e = true.
Proof.
  apply (failure_mentioning_duplicate_is_taken_for_one (RT := scripted) 500
           "duplicate key value violates constraint");
    [lia | reflexivity].
Defined.

Section ClientState.

Context {World : Type} {RT : Runtime World} {SG : Storage World}.

(** Case analysis on every answer of the world, innermost first. *)
Ltac world_cases :=
  repeat
    (cbv beta iota;
     cbn [client world Client.OAuth1 Client.OAuth2 Client.Domain
          Client.TokenDir];
     match goal with
     | |- context [osReadFile ?p ?w] => destruct (osReadFile p w) as [? ?]
     | |- context [httpDo ?r ?w] => destruct (httpDo r w) as [? ?]
     | |- context [timeNowUnix ?w] => destruct (timeNowUnix w) as [? ?]
     | |- context [osMkdirAll ?d ?w] => destruct (osMkdirAll d w) as [? ?]
     | |- context [osWriteFile ?f ?d ?w] =>
         destruct (osWriteFile f d w) as [? ?]
     | |- context [match ?x with _ => _ end] =>
         lazymatch x with
         | context [match _ with _ => _ end] => fail
         | _ => destruct x
         end
     end).

Lemma bind_inv {S A B : Type} (m : ST S A) (k : A -> ST S B) s b s2 :
  bind m k s = Some (b, s2) ->
  exists a s1, m s = Some (a, s1) /\ k a s1 = Some (b, s2).
Proof.
  unfold bind. destruct (m s) as [[a s1]|]; [|discriminate].
  intros H. now exists a, s1.
Qed.

Lemma step_inv {A : Type} (f : ST (@Machine World) A) st a st1 :
  step f st = Some (a, st1) ->
  exists m1, f (machine st) = Some (a, m1) /\ st1 = mkTraced m1 (calls st).
Proof.
  unfold step. destruct (f (machine st)) as [[a0 m1]|]; [|discriminate].
  intros H. injection H as <- <-. now exists m1.
Qed.

Lemma call_inv {A : Type} (record : A -> Call) (f : ST (@Machine World) A)
  st a st1 :
  call record f st = Some (a, st1) ->
  exists m1, f (machine st) = Some (a, m1) /\
             st1 = mkTraced m1 (calls st ++ [record a]).
Proof.
  unfold call. destruct (f (machine st)) as [[a0 m1]|]; [|discriminate].
  intros H. injection H as <- <-. now exists m1.
Qed.

(** The exchange never panics and leaves the client alone; a token it
    returns carries two expiries computed from one reading of the
    clock. *)
Lemma exchangeOAuth2_effect consumer oauth1 domain (m : Machine) :
  exists r m1,
    exchangeOAuth2 consumer oauth1 domain m = Some (r, m1) /\
    client m1 = client m /\
    forall tok, r = Ok tok ->
      exists now,
        OAuth2Token.ExpiresAt tok
          = wrapS 64 (now + OAuth2Token.ExpiresIn tok) /\
        OAuth2Token.RefreshTokenExpiresAt tok
          = wrapS 64 (now + OAuth2Token.RefreshTokenExpiresIn tok).
Proof.
  unfold exchangeOAuth2, bind, liftW, ret. destruct m as [c w].
  world_cases; eexists; eexists; (split; [reflexivity|]);
    (split; [reflexivity|]); intros tok Htok;
    try discriminate Htok.
  injection Htok as <-. eexists. split; reflexivity.
Qed.

Lemma fetchConsumer_effect (m : Machine) :
  exists r m1, fetchConsumer m = Some (r, m1) /\ client m1 = client m.
Proof.
  unfold fetchConsumer, bind, liftW, ret. destruct m as [c w].
  world_cases; eexists; eexists; split; reflexivity.
Qed.

Lemma ExchangeForOAuth2_effect o1 (m : Machine) :
  exists r m1,
    ExchangeForOAuth2 (Some o1) m = Some (r, m1) /\
    client m1 = client m /\
    forall tok, r = Ok tok ->
      exists now,
        OAuth2Token.ExpiresAt tok
          = wrapS 64 (now + OAuth2Token.ExpiresIn tok) /\
        OAuth2Token.RefreshTokenExpiresAt tok
          = wrapS 64 (now + OAuth2Token.RefreshTokenExpiresIn tok).
Proof.
  unfold ExchangeForOAuth2.
  destruct (fetchConsumer_effect m) as [r [m1 [Hf Hc]]].
  rewrite (bind_eq _ _ _ _ _ Hf). destruct r as [consumer|e].
  - destruct (exchangeOAuth2_effect consumer o1
                (if isEmpty (OAuth1Token.Domain o1)
                 then "garmin.com"%string else OAuth1Token.Domain o1) m1)
      as [r2 [m2 [He [Hc2 Hstamp]]]].
    exists r2, m2. split; [exact He|]. split; [congruence | exact Hstamp].
  - eexists; eexists. split; [reflexivity|]. split; [exact Hc|].
    intros tok H. discriminate H.
Qed.

Lemma SaveTokens_effect dir o1 o2 (m : Machine) :
  exists e m1, SaveTokens dir o1 o2 m = Some (e, m1) /\ client m1 = client m.
Proof.
  unfold SaveTokens, saveOne, bind, liftW, ret. destruct m as [c w].
  world_cases; eexists; eexists; split; reflexivity.
Qed.

(** What a refresh does to the client: a failed one leaves it as it
    was, a successful one replaces the OAuth2 token by the exchanged one
    and nothing else, whether or not the token could be saved. *)
Lemma refreshOAuth2_effect (m : Machine) o1 :
  Client.OAuth1 (client m) = Some o1 ->
  exists r m1,
    refreshOAuth2 m = Some (r, m1) /\
    match r with
    | Some e =>
        ExchangeForOAuth2 (Some o1) m = Some (Err e, m1) /\
        client m1 = client m
    | None =>
        exists tok m0,
          ExchangeForOAuth2 (Some o1) m = Some (Ok tok, m0) /\
          client m1 = Client.mk (Client.OAuth1 (client m)) (Some tok)
                                (Client.Domain (client m))
                                (Client.TokenDir (client m))
    end.
Proof.
  intros Ho1.
  destruct (ExchangeForOAuth2_effect o1 m) as [r [m0 [Hx [Hc0 _]]]].
  exists (match r with Err e => Some e | Ok _ => None end).
  unfold refreshOAuth2.
  erewrite bind_eq by reflexivity. rewrite Ho1.
  rewrite (bind_eq _ _ _ _ _ Hx).
  destruct r as [tok|e].
  - destruct (SaveTokens_effect (Client.TokenDir (client m)) None (Some tok)
                (mkMachine (Client.mk (Client.OAuth1 (client m0)) (Some tok)
                              (Client.Domain (client m0))
                              (Client.TokenDir (client m0))) (world m0)))
      as [e [m2 [Hs Hc2]]].
    unfold setOAuth2. erewrite bind_eq by reflexivity.
    destruct (isEmpty (Client.TokenDir (client m))).
    + cbn [negb]. erewrite bind_eq by reflexivity.
      eexists. split; [reflexivity|].
      exists tok, m0. split; [exact Hx|]. cbn [client].
      now rewrite Hc0, Ho1.
    + cbn [negb]. erewrite bind_eq
        by (erewrite bind_eq by exact Hs; reflexivity).
      eexists. split; [reflexivity|].
      exists tok, m0. split; [exact Hx|]. rewrite Hc2. cbn [client].
      now rewrite Hc0, Ho1.
  - eexists. split; [reflexivity|].
    split; [exact Hx | exact Hc0].
Qed.

Lemma sameIdentity_refl c : sameIdentity c c.
Proof. now repeat split. Qed.

Lemma sameIdentity_trans c1 c2 c3 :
  sameIdentity c1 c2 -> sameIdentity c2 c3 -> sameIdentity c1 c3.
Proof.
  intros [H1 [H2 H3]] [K1 [K2 K3]]. repeat split; congruence.
Qed.

Lemma sameIdentity_eq c1 c2 : c2 = c1 -> sameIdentity c1 c2.
Proof. intros ->. apply sameIdentity_refl. Qed.

(** A refresh on a client that holds an OAuth1 token returns; it keeps
    the identity of the client, leaves the client as it was when it
    fails, and installs a freshly stamped token when it succeeds. *)
Lemma refreshOAuth2_identity (m : Machine) :
  Client.OAuth1 (client m) <> None ->
  exists r m1,
    refreshOAuth2 m = Some (r, m1) /\
    sameIdentity (client m) (client m1) /\
    match r with
    | Some _ => client m1 = client m
    | None =>
        exists tok now,
          Client.OAuth2 (client m1) = Some tok /\
          OAuth2Token.ExpiresAt tok
            = wrapS 64 (now + OAuth2Token.ExpiresIn tok) /\
          OAuth2Token.RefreshTokenExpiresAt tok
            = wrapS 64 (now + OAuth2Token.RefreshTokenExpiresIn tok)
    end.
Proof.
  intros Hauth.
  destruct (Client.OAuth1 (client m)) as [o1|] eqn:Eo1; [|contradiction].
  destruct (refreshOAuth2_effect m o1 Eo1) as [r [m1 [Hrun Hcase]]].
  exists r, m1. split; [exact Hrun|].
  destruct r as [e|].
  - destruct Hcase as [_ Hc]. split; [now apply sameIdentity_eq | exact Hc].
  - destruct Hcase as [tok [m0 [Hx Hc]]].
    split; [rewrite Hc; now repeat split|].
    destruct (ExchangeForOAuth2_effect o1 m) as [r' [m0' [Hx' [_ Hstamp]]]].
    rewrite Hx in Hx'. injection Hx' as <- <-.
    destruct (Hstamp tok eq_refl) as [now Hnow].
    exists tok, now. rewrite Hc. split; [reflexivity | exact Hnow].
Qed.

Lemma refreshOAuth2_keeps_auth (m : @Machine World) (r : option error)
  (m1 : @Machine World) :
  sameIdentity (client m) (client m1) ->
  match r with
  | Some _ => client m1 = client m
  | None =>
      exists tok now,
        Client.OAuth2 (client m1) = Some tok /\
        OAuth2Token.ExpiresAt tok
          = wrapS 64 (now + OAuth2Token.ExpiresIn tok) /\
        OAuth2Token.RefreshTokenExpiresAt tok
          = wrapS 64 (now + OAuth2Token.RefreshTokenExpiresIn tok)
  end ->
  authenticated (client m) -> authenticated (client m1).
Proof.
  intros [H1 _] Hcase [Ho1 Ho2]. split; [now rewrite H1|].
  destruct r as [e|].
  - now rewrite Hcase.
  - destruct Hcase as [tok [now [Htok _]]]. rewrite Htok. discriminate.
Qed.

(** From the first attempt on, an upload keeps the identity of an
    authenticated client and leaves it authenticated. *)
Lemma uploadAttempts_client path (m : Machine) cs :
  authenticated (client m) ->
  exists res st1,
    uploadAttempts path (mkTraced m cs) = Some (res, st1) /\
    sameIdentity (client m) (client (machine st1)) /\
    authenticated (client (machine st1)).
Proof.
  intros Hauth. pose proof Hauth as [Ho1 Ho2]. unfold uploadAttempts.
  destruct (doUpload_runs path m Ho2) as [r1 [m1 [Hup1 Hc1]]].
  rewrite (bind_eq _ _ _ _ _ (call_eq CallUpload _ _ cs _ _ Hup1)).
  destruct r1 as [[status body]|e].
  2: { eexists; eexists. split; [reflexivity|]. cbn [machine].
       rewrite Hc1. split; [apply sameIdentity_refl | exact Hauth]. }
  destruct (status =? 401) eqn:E401.
  2: { eexists; eexists. split; [reflexivity|]. cbn [machine].
       rewrite Hc1. split; [apply sameIdentity_refl | exact Hauth]. }
  erewrite bind_eq by (apply step_eq; unfold liftW; reflexivity).
  cbn [client world].
  destruct (refreshOAuth2_identity
              (mkMachine (client m1)
                 (fmtPrintln "  token rejected, refreshing..." (world m1))))
    as [e1 [m2 [Href [Hid Hcase]]]].
  { cbn [client]. now rewrite Hc1. }
  pose proof (refreshOAuth2_keeps_auth _ e1 m2 Hid Hcase) as Hauth2.
  cbn [client] in Hid, Hauth2. rewrite Hc1 in Hid, Hauth2.
  specialize (Hauth2 Hauth).
  rewrite (bind_eq _ _ _ _ _ (call_eq CallRefresh _ _ _ _ _ Href)).
  destruct e1 as [e|].
  { eexists; eexists. split; [reflexivity|]. cbn [machine].
    split; [exact Hid | exact Hauth2]. }
  destruct (doUpload_runs path m2 (proj2 Hauth2)) as [r2 [m3 [Hup2 Hc3]]].
  rewrite (bind_eq _ _ _ _ _ (call_eq CallUpload _ _ _ _ _ Hup2)).
  destruct r2 as [[status2 body2]|e]; eexists; eexists;
    (split; [reflexivity|]); cbn [machine]; rewrite Hc3;
    (split; [exact Hid | exact Hauth2]).
Qed.

(** An upload keeps the identity of the client; it leaves a client
    without an OAuth2 token as it is, and an authenticated client
    authenticated. *)
Lemma UploadFIT_client path (st : Traced) :
  Client.OAuth1 (client (machine st)) <> None ->
  exists res st1,
    UploadFIT path st = Some (res, st1) /\
    sameIdentity (client (machine st)) (client (machine st1)) /\
    (Client.OAuth2 (client (machine st)) <> None ->
     Client.OAuth2 (client (machine st1)) <> None) /\
    (Client.OAuth2 (client (machine st)) = None ->
     res = Some "not authenticated"%string /\ st1 = st).
Proof.
  intros Ho1. destruct st as [m cs]. cbn [machine calls] in *.
  rewrite UploadFIT_attempts.
  erewrite bind_eq by (apply step_eq; reflexivity).
  destruct (Client.OAuth2 (client m)) as [tok|] eqn:Etok.
  2: { eexists; eexists. split; [reflexivity|].
       split; [apply sameIdentity_refl|]. cbn [machine].
       split; [intros H; now contradiction H | now split]. }
  assert (Hauth : authenticated (client m)).
  { split; [exact Ho1 | rewrite Etok; discriminate]. }
  destruct (Expired_runs tok m) as [expired [w1 Hexp]].
  erewrite bind_eq by (apply step_eq; exact Hexp).
  destruct expired.
  - destruct (refreshOAuth2_identity (mkMachine (client m) w1))
      as [e0 [m2 [Href [Hid Hcase]]]]; [exact Ho1|].
    pose proof (refreshOAuth2_keeps_auth _ e0 m2 Hid Hcase Hauth) as Hauth2.
    cbn [client] in Hid.
    rewrite (bind_eq _ _ _ _ _ (call_eq CallRefresh _ _ _ _ _ Href)).
    destruct e0 as [e|].
    + eexists; eexists. split; [reflexivity|]. cbn [machine].
      split; [exact Hid|]. split; [intros _; exact (proj2 Hauth2)|].
      intros H; discriminate H.
    + destruct (uploadAttempts_client path m2 (cs ++ [CallRefresh None])
                  Hauth2) as [res [st1 [Hrun [Hid2 Hauth3]]]].
      exists res, st1. split; [exact Hrun|].
      split; [exact (sameIdentity_trans _ _ _ Hid Hid2)|].
      split; [intros _; exact (proj2 Hauth3) | intros H; discriminate H].
  - erewrite bind_eq by reflexivity.
    destruct (uploadAttempts_client path (mkMachine (client m) w1) cs Hauth)
      as [res [st1 [Hrun [Hid2 Hauth3]]]].
    exists res, st1. split; [exact Hrun|]. cbn [client] in Hid2.
    split; [exact Hid2|].
    split; [intros _; exact (proj2 Hauth3) | intros H; discriminate H].
Qed.

Lemma parseUploadResult_nil status body :
  parseUploadResult status body = None ->
  status < 400 /\
  (forall failures, jsonFailures body = Ok failures -> failures = []).
Proof.
  destruct (parseUploadResult_cases status body)
    as [[H409 Hr] | [[Hne [H400 Hr]] | [Hne [H400 Hr]]]]; rewrite Hr;
    try discriminate.
  destruct (jsonFailures body) as [[|f fs]|e]; try discriminate.
  - intros _. split; [exact H400|]. intros failures H. now injection H as <-.
  - intros _. split; [exact H400|]. intros failures H. discriminate H.
Qed.

Lemma outcome_nil r :
  outcome r = None ->
  exists status body,
    r = Ok (status, body) /\ status < 400 /\
    (forall failures, jsonFailures body = Ok failures -> failures = []).
Proof.
  destruct r as [[status body]|e]; cbn [outcome]; [|discriminate].
  intros H. exists status, body. split; [reflexivity|].
  now apply parseUploadResult_nil.
Qed.

(** The calls of an upload that returned nil end with an attempt that
    the server accepted. *)
Lemma uploadShape_accepted new :
  uploadShape new None ->
  exists earlier status body,
    new = earlier ++ [CallUpload (Ok (status, body))] /\
    status < 400 /\
    (forall failures, jsonFailures body = Ok failures -> failures = []).
Proof.
  intros Hshape. inversion Hshape as [| |early att res Hearly Hatt Hnew Hres].
  subst res.
  inversion Hatt as [e He Hr | status body Hne Ha Hr | body e Ha Hr
                    | body r2 Ha Hr].
  - destruct (parseUploadResult_nil status body Hr) as [Hlt Hf].
    exists early, status, body. subst. now repeat split.
  - destruct (outcome_nil r2 Hr) as [status [body2 [-> [Hlt Hf]]]].
    exists (early ++ [CallUpload (Ok (401, body)); CallRefresh None]),
      status, body2. subst. rewrite ?Hr.
    split; [now rewrite <- app_assoc | now split].
Qed.

Lemma attemptShape_counts att res :
  attemptShape att res ->
  (1 <= countUploads att <= 2)%nat /\ (countRefreshes att <= 1)%nat.
Proof.
  intros [e | status body Hne | body e | body r2];
    unfold countUploads, countRefreshes; cbn; lia.
Qed.

Lemma uploadShape_counts new res :
  uploadShape new res ->
  (countUploads new <= 2)%nat /\ (countRefreshes new <= 2)%nat /\
  (countUploads new = 0%nat -> res <> None).
Proof.
  intros [|e|early att res0 Hearly Hatt].
  - unfold countUploads, countRefreshes. cbn. repeat split; try lia.
    discriminate.
  - unfold countUploads, countRefreshes. cbn. repeat split; try lia.
    discriminate.
  - destruct (attemptShape_counts att res0 Hatt) as [Hu Hr].
    unfold countUploads, countRefreshes in *.
    rewrite !filter_app, !length_app.
    destruct Hearly as [-> | ->]; cbn [filter isUpload negb List.length];
      repeat split; lia.
Qed.

(** An upload by an authenticated client makes at least one call. *)
Lemma UploadFIT_calls path (st : Traced) :
  authenticated (client (machine st)) ->
  exists res st1 new,
    UploadFIT path st = Some (res, st1) /\
    calls st1 = calls st ++ new /\
    new <> [].
Proof.
  intros [Ho1 Ho2]. destruct st as [m cs]. cbn [machine calls] in *.
  rewrite UploadFIT_attempts.
  erewrite bind_eq by (apply step_eq; reflexivity).
  destruct (Client.OAuth2 (client m)) as [tok|] eqn:Etok; [|contradiction].
  assert (Hauth : authenticated (client m)).
  { split; [exact Ho1 | rewrite Etok; discriminate]. }
  destruct (Expired_runs tok m) as [expired [w1 Hexp]].
  erewrite bind_eq by (apply step_eq; exact Hexp).
  destruct expired.
  - destruct (refreshOAuth2_identity (mkMachine (client m) w1))
      as [e0 [m2 [Href [Hid Hcase]]]]; [exact Ho1|].
    pose proof (refreshOAuth2_keeps_auth _ e0 m2 Hid Hcase Hauth) as Hauth2.
    rewrite (bind_eq _ _ _ _ _ (call_eq CallRefresh _ _ _ _ _ Href)).
    destruct e0 as [e|].
    + eexists; eexists; exists [CallRefresh (Some e)].
      split; [reflexivity|]. split; [reflexivity | discriminate].
    + destruct (uploadAttempts_shape path m2 (cs ++ [CallRefresh None])
                  Hauth2) as [res [st1 [att [Hrun [Hcalls _]]]]].
      exists res, st1, ([CallRefresh None] ++ att).
      split; [exact Hrun|]. split; [|discriminate].
      now rewrite Hcalls, <- app_assoc.
  - erewrite bind_eq by reflexivity.
    destruct (uploadAttempts_shape path (mkMachine (client m) w1) cs Hauth)
      as [res [st1 [att [Hrun [Hcalls Hshape]]]]].
    exists res, st1, att. split; [exact Hrun|]. split; [exact Hcalls|].
    destruct Hshape; discriminate.
Qed.

Lemma LoadTokens_effect dir (m : Machine) :
  exists r m1, LoadTokens dir m = Some (r, m1) /\ client m1 = client m.
Proof.
  unfold LoadTokens, bind, liftW, ret. destruct m as [c w].
  world_cases; eexists; eexists; split; reflexivity.
Qed.

(** The four ways [Resume] ends: no directory, no readable cache, a
    token that is still valid, a refresh. *)
Lemma Resume_cases (st : Traced) :
  let c := client (machine st) in
  let dir := Client.TokenDir c in
  exists res st1,
    Resume st = Some (res, st1) /\
    ((isEmpty dir = true /\
      res = Some "no token directory configured"%string /\ st1 = st) \/
     (isEmpty dir = false /\
      exists e m1,
        LoadTokens dir (machine st) = Some (Err e, m1) /\
        res = Some ("no cached session: " ++ e)%string /\
        st1 = mkTraced m1 (calls st)) \/
     (isEmpty dir = false /\
      exists oauth1 oauth2 m1 now w,
        LoadTokens dir (machine st) = Some (Ok (oauth1, oauth2), m1) /\
        timeNowUnix (world m1) = (now, w) /\
        let adopted :=
          Client.mk (Some oauth1) (Some oauth2)
            (if negb (isEmpty (OAuth1Token.Domain oauth1))
             then OAuth1Token.Domain oauth1 else Client.Domain c) dir in
        (now <= OAuth2Token.ExpiresAt oauth2 /\
         res = None /\ st1 = mkTraced (mkMachine adopted w) (calls st)) \/
        (OAuth2Token.ExpiresAt oauth2 < now /\
         exists r,
           calls st1 = calls st ++ [CallRefresh r] /\
           sameIdentity adopted (client (machine st1)) /\
           match r with
           | Some e =>
               res = Some ("refresh failed: " ++ e)%string /\
               client (machine st1) = adopted
           | None =>
               res = None /\
               exists tok at_,
                 Client.OAuth2 (client (machine st1)) = Some tok /\
                 OAuth2Token.ExpiresAt tok
                   = wrapS 64 (at_ + OAuth2Token.ExpiresIn tok) /\
                 OAuth2Token.RefreshTokenExpiresAt tok
                   = wrapS 64 (at_ + OAuth2Token.RefreshTokenExpiresIn tok)
           end))).
Proof.
  destruct st as [m cs]. cbn [machine calls]. cbv zeta. unfold Resume.
  erewrite bind_eq by (apply step_eq; reflexivity).
  destruct (isEmpty (Client.TokenDir (client m))) eqn:Edir.
  { eexists; eexists. split; [reflexivity|]. left. now repeat split. }
  destruct (LoadTokens_effect (Client.TokenDir (client m)) m)
    as [r [m1 [Hload Hc1]]].
  erewrite bind_eq by (apply step_eq; exact Hload).
  destruct r as [[oauth1 oauth2]|e].
  2: { eexists; eexists. split; [reflexivity|]. right; left.
       split; [reflexivity|]. now exists e, m1. }
  erewrite bind_eq by (apply step_eq; reflexivity).
  destruct (timeNowUnix (world m1)) as [now w] eqn:Eclock.
  erewrite bind_eq
    by (apply step_eq; apply (Expired_at _ _ now w); exact Eclock).
  cbn [client]. rewrite Hc1.
  destruct (OAuth2Token.ExpiresAt oauth2 <? now) eqn:Eexp; cbn [negb].
  2: { eexists; eexists. split; [reflexivity|]. right; right.
       split; [reflexivity|]. exists oauth1, oauth2, m1, now, w.
       split; [exact Hload|]. split; [exact Eclock|]. left.
       apply Z.ltb_ge in Eexp. now repeat split. }
  apply Z.ltb_lt in Eexp.
  erewrite bind_eq by (apply step_eq; unfold liftW; reflexivity).
  cbn [client world].
  match goal with
  | |- context [bind (call CallRefresh refreshOAuth2) _ (mkTraced ?m0 _)] =>
      destruct (refreshOAuth2_identity m0) as [r [m2 [Href [Hid Hcase]]]];
        [cbn [client Client.OAuth1]; discriminate|]
  end.
  rewrite (bind_eq _ _ _ _ _ (call_eq CallRefresh _ _ _ _ _ Href)).
  cbn [client] in Hid, Hcase.
  destruct r as [e|]; eexists; eexists; (split; [reflexivity|]);
    right; right; (split; [reflexivity|]);
    exists oauth1, oauth2, m1, now, w;
    (split; [exact Hload|]); (split; [exact Eclock|]); right;
    (split; [exact Eexp|]).
  - exists (Some e). cbn [calls machine]. split; [reflexivity|].
    split; [exact Hid|]. split; [reflexivity | exact Hcase].
  - exists None. cbn [calls machine]. split; [reflexivity|].
    split; [exact Hid|]. split; [reflexivity | exact Hcase].
Qed.

(** The Go program relies on the file system keeping what was written;
    for the paths of the token cache this gives the following. *)
Lemma SaveTokens_both dir t1 t2 (m m1 : Machine) :
  SaveTokens dir (Some t1) (Some t2) m = Some (None, m1) ->
  exists w0 d1 w1 d2 w2,
    osMkdirAll dir (world m) = (None, w0) /\
    jsonMarshal1 t1 = Ok d1 /\
    osWriteFile (filepathJoin dir "oauth1_token.json") d1 w0 = (None, w1) /\
    jsonMarshal2 t2 = Ok d2 /\
    osWriteFile (filepathJoin dir "oauth2_token.json") d2 w1 = (None, w2) /\
    m1 = mkMachine (client m) w2.
Proof.
  unfold SaveTokens, saveOne, bind, liftW, ret. destruct m as [c w].
  cbn [client world].
  destruct (osMkdirAll dir w) as [[e|] w0]; [discriminate|].
  destruct (jsonMarshal1 t1) as [d1|e]; [|discriminate].
  cbn [client world].
  destruct (osWriteFile (filepathJoin dir "oauth1_token.json") d1 w0)
    as [[e|] w1] eqn:E1; [discriminate|].
  destruct (jsonMarshal2 t2) as [d2|e]; [|discriminate].
  cbn [client world].
  destruct (osWriteFile (filepathJoin dir "oauth2_token.json") d2 w1)
    as [[e|] w2] eqn:E2; [discriminate|].
  intros H. injection H as <-.
  exists w0, d1, w1, d2, w2. now repeat split.
Qed.

Lemma SaveTokens_second dir t2 (m m1 : Machine) :
  SaveTokens dir None (Some t2) m = Some (None, m1) ->
  exists w0 d2 w2,
    osMkdirAll dir (world m) = (None, w0) /\
    jsonMarshal2 t2 = Ok d2 /\
    osWriteFile (filepathJoin dir "oauth2_token.json") d2 w0 = (None, w2) /\
    m1 = mkMachine (client m) w2.
Proof.
  unfold SaveTokens, saveOne, bind, liftW, ret. destruct m as [c w].
  cbn [client world].
  destruct (osMkdirAll dir w) as [[e|] w0]; [discriminate|].
  destruct (jsonMarshal2 t2) as [d2|e]; [|discriminate].
  cbn [client world].
  destruct (osWriteFile (filepathJoin dir "oauth2_token.json") d2 w0)
    as [[e|] w2] eqn:E2; [discriminate|].
  intros H. injection H as <-.
  exists w0, d2, w2. now repeat split.
Qed.

Lemma LoadTokens_reads dir (m : Machine) d1 d2 t1 t2 :
  filesPersist ->
  fst (osReadFile (filepathJoin dir "oauth1_token.json") (world m)) = Ok d1 ->
  fst (osReadFile (filepathJoin dir "oauth2_token.json") (world m)) = Ok d2 ->
  jsonUnmarshal1 d1 = Ok t1 ->
  jsonUnmarshal2 d2 = Ok t2 ->
  exists m2, LoadTokens dir m = Some (Ok (t1, t2), m2) /\ client m2 = client m.
Proof.
  intros [_ [_ [Hread _]]] H1 H2 Hu1 Hu2.
  unfold LoadTokens, bind, liftW, ret. destruct m as [c w].
  cbn [client world] in *.
  destruct (osReadFile (filepathJoin dir "oauth1_token.json") w)
    as [r1 w1] eqn:E1.
  cbn [fst] in H1. subst r1. rewrite Hu1. cbn [client world].
  pose proof (Hread _ _ _ _ (filepathJoin dir "oauth2_token.json") E1) as Hr.
  rewrite H2 in Hr.
  destruct (osReadFile (filepathJoin dir "oauth2_token.json") w1)
    as [r2 w2] eqn:E2.
  cbn [fst] in Hr. subst r2. rewrite Hu2.
  eexists. split; reflexivity.
Qed.

Lemma LoadTokens_read dir (m m' : Machine) t1 t2 :
  filesPersist ->
  LoadTokens dir m = Some (Ok (t1, t2), m') ->
  exists d1 d2,
    fst (osReadFile (filepathJoin dir "oauth1_token.json") (world m)) = Ok d1 /\
    fst (osReadFile (filepathJoin dir "oauth2_token.json") (world m)) = Ok d2 /\
    jsonUnmarshal1 d1 = Ok t1 /\
    jsonUnmarshal2 d2 = Ok t2.
Proof.
  intros [_ [_ [Hread _]]].
  unfold LoadTokens, bind, liftW, ret. destruct m as [c w].
  cbn [client world].
  destruct (osReadFile (filepathJoin dir "oauth1_token.json") w)
    as [[d1|e] w1] eqn:E1; [|discriminate].
  destruct (jsonUnmarshal1 d1) as [o1|e] eqn:Eu1; [|discriminate].
  cbn [client world].
  pose proof (Hread _ _ _ _ (filepathJoin dir "oauth2_token.json") E1) as Hr.
  destruct (osReadFile (filepathJoin dir "oauth2_token.json") w1)
    as [[d2|e] w2] eqn:E2; [|discriminate].
  destruct (jsonUnmarshal2 d2) as [o2|e] eqn:Eu2; [|discriminate].
  intros H. injection H as <- <- <-.
  exists d1, d2. cbn [fst] in *. now repeat split.
Qed.

End ClientState.

(** A refresh by a client that holds an OAuth1 token returns.  It never
    writes the OAuth1 token, the domain or the token directory.  When it
    fails the client is left as it was, the old OAuth2 token included;
    when it succeeds the client holds a token whose two expiries were
    computed from one reading of the clock. *)
Theorem refresh_replaces_only_the_access_token
  {World : Type} {RT : Runtime World} (m : Machine) :
  Client.OAuth1 (client m) <> None ->
  exists r m1,
    refreshOAuth2 m = Some (r, m1) /\
    sameIdentity (client m) (client m1) /\
    match r with
    | Some _ => client m1 = client m
    | None =>
        exists tok now,
          Client.OAuth2 (client m1) = Some tok /\
          OAuth2Token.ExpiresAt tok
            = wrapS 64 (now + OAuth2Token.ExpiresIn tok) /\
          OAuth2Token.RefreshTokenExpiresAt tok
            = wrapS 64 (now + OAuth2Token.RefreshTokenExpiresIn tok)
    end.
Proof. exact (refreshOAuth2_identity m). Qed.

Lemma refresh_replaces_only_the_access_token_witness :
  exists r m1,
    refreshOAuth2
      (mkMachine someClient
         (mkScript 1000 [answer 200 "consumer"; answer 200 "hour"]))
      = Some (r, m1) /\
    sameIdentity someClient (client m1) /\
    match r with
    | Some _ => client m1 = someClient
    | None =>
        exists tok now,
          Client.OAuth2 (client m1) = Some tok /\
          OAuth2Token.ExpiresAt tok
            = wrapS 64 (now + OAuth2Token.ExpiresIn tok) /\
          OAuth2Token.RefreshTokenExpiresAt tok
            = wrapS 64 (now + OAuth2Token.RefreshTokenExpiresIn tok)
    end.
Proof.
  apply (refresh_replaces_only_the_access_token
           (mkMachine someClient
              (mkScript 1000 [answer 200 "consumer"; answer 200 "hour"]))).
  discriminate.
Defined.

Example refresh_run :
  refreshOAuth2
    (mkMachine someClient
       (mkScript 1000 [answer 200 "consumer"; answer 200 "hour"]))
  = Some (None,
          mkMachine
            (Client.mk (Some someOAuth1) (Some (someOAuth2At 4600 "access"))
                       "garmin.com" "/home/u/.tokens")
            (mkScript 1000 [])).
Proof. vm_compute. reflexivity. Qed.

(** An upload by a client that holds an OAuth1 token makes at most two
    upload attempts and at most two refreshes, and it returns an error
    whenever it made no upload attempt. *)
Theorem upload_makes_at_most_two_attempts
  {World : Type} {RT : Runtime World} (path : string) (st : Traced) :
  Client.OAuth1 (client (machine st)) <> None ->
  exists res st1 new,
    UploadFIT path st = Some (res, st1) /\
    calls st1 = calls st ++ new /\
    (countUploads new <= 2)%nat /\
    (countRefreshes new <= 2)%nat /\
    (countUploads new = 0%nat -> res <> None).
Proof.
  intros Hauth.
  destruct (UploadFIT_shape path st Hauth) as [res [st1 [new [Hrun [Hc Hs]]]]].
  exists res, st1, new. split; [exact Hrun|]. split; [exact Hc|].
  now apply uploadShape_counts.
Qed.

Lemma upload_makes_at_most_two_attempts_witness :
  exists res st1 new,
    UploadFIT "/tmp/a.fit"
      (start 6000 [answer 200 "consumer"; answer 200 "hour"; answer 401 "";
                   answer 200 "consumer"; answer 200 "hour";
                   answer 200 "{}"]%string)
      = Some (res, st1) /\
    calls st1 = [] ++ new /\
    (countUploads new <= 2)%nat /\
    (countRefreshes new <= 2)%nat /\
    (countUploads new = 0%nat -> res <> None).
Proof.
  apply (upload_makes_at_most_two_attempts "/tmp/a.fit"
           (start 6000 [answer 200 "consumer"; answer 200 "hour";
                        answer 401 ""; answer 200 "consumer";
                        answer 200 "hour"; answer 200 "{}"]%string)).
  discriminate.
Defined.

Example upload_two_refreshes :
  exists st1,
    UploadFIT "/tmp/a.fit"
      (start 6000 [answer 200 "consumer"; answer 200 "hour"; answer 401 "";
                   answer 200 "consumer"; answer 200 "hour";
                   answer 200 "{}"]%string)
      = Some (None, st1) /\
    calls st1 = [CallRefresh None; CallUpload (Ok (401, ""%string));
                 CallRefresh None; CallUpload (Ok (200, "{}"%string))].
Proof. eexists. split; [vm_compute; reflexivity | reflexivity]. Qed.

(** When an upload returns nil, its last call is an upload attempt that
    the server answered with a status below 400 and a body that reports
    no failure. *)
Theorem upload_success_means_accepted
  {World : Type} {RT : Runtime World} (path : string) (st st1 : Traced) :
  Client.OAuth1 (client (machine st)) <> None ->
  UploadFIT path st = Some (None, st1) ->
  exists earlier status body,
    calls st1 = calls st ++ earlier ++ [CallUpload (Ok (status, body))] /\
    status < 400 /\
    (forall failures, jsonFailures body = Ok failures -> failures = []).
Proof.
  intros Hauth Hrun.
  destruct (UploadFIT_shape path st Hauth) as [res [st2 [new [Hrun2 [Hc Hs]]]]].
  rewrite Hrun in Hrun2. injection Hrun2 as <- <-.
  destruct (uploadShape_accepted new Hs) as [earlier [status [body [-> H]]]].
  now exists earlier, status, body.
Qed.

Lemma upload_success_means_accepted_witness :
  exists earlier status body,
    calls (mkTraced (mkMachine someClient (mkScript 1000 []))
                    [CallUpload (Ok (200, "{}"%string))])
      = calls (start 1000 [answer 200 "{}"%string])
        ++ earlier ++ [CallUpload (Ok (status, body))] /\
    status < 400 /\
    (forall failures,
       jsonFailures (Runtime := scripted) body = Ok failures -> failures = []).
Proof.
  apply (upload_success_means_accepted "/tmp/a.fit"
           (start 1000 [answer 200 "{}"%string])
           (mkTraced (mkMachine someClient (mkScript 1000 []))
                     [CallUpload (Ok (200, "{}"%string))])).
  - discriminate.
  - vm_compute. reflexivity.
Defined.

(** An upload by a client that holds an OAuth1 token never writes the
    OAuth1 token, the domain or the token directory, and it never leaves
    a client that held an OAuth2 token without one; a client without an
    OAuth2 token is refused with "not authenticated" and nothing at all
    is changed or called. *)
Theorem upload_keeps_the_client_identity
  {World : Type} {RT : Runtime World} (path : string) (st : Traced) :
  Client.OAuth1 (client (machine st)) <> None ->
  exists res st1,
    UploadFIT path st = Some (res, st1) /\
    sameIdentity (client (machine st)) (client (machine st1)) /\
    (Client.OAuth2 (client (machine st)) <> None ->
     Client.OAuth2 (client (machine st1)) <> None) /\
    (Client.OAuth2 (client (machine st)) = None ->
     res = Some "not authenticated"%string /\ st1 = st).
Proof. exact (UploadFIT_client path st). Qed.

Lemma upload_keeps_the_client_identity_witness :
  exists res st1,
    UploadFIT "/tmp/a.fit"
      (start 1000 [answer 401 ""; answer 200 "consumer"; answer 200 "hour";
                   answer 200 "{}"]%string)
      = Some (res, st1) /\
    sameIdentity someClient (client (machine st1)) /\
    (Some someOAuth2 <> None ->
     Client.OAuth2 (client (machine st1)) <> None) /\
    (Some someOAuth2 = None ->
     res = Some "not authenticated"%string /\
     st1 = start 1000 [answer 401 ""; answer 200 "consumer";
                       answer 200 "hour"; answer 200 "{}"]%string).
Proof.
  apply (upload_keeps_the_client_identity "/tmp/a.fit"
           (start 1000 [answer 401 ""; answer 200 "consumer";
                        answer 200 "hour"; answer 200 "{}"]%string)).
  discriminate.
Defined.

(* ================================================================== *)
(** * Further properties of the token cache and the resumed session     *)
(* ================================================================== *)

Lemma drive_filesPersist : @filesPersist Drive onDrive.
Proof.
  unfold filesPersist. cbn. split; [|split; [|split]].
  - intros p d w w1 H. injection H as <-. cbn.
    rewrite String.eqb_refl. reflexivity.
  - intros p d w e w1 q H Hne. injection H as _ <-. cbn.
    replace (String.eqb p q) with false
      by (symmetry; apply String.eqb_neq; congruence).
    now destruct (fileAt (files w) q) as [[c t]|].
  - intros p w r w1 q H.
    destruct (fileAt (files w) p) as [[c t]|]; now injection H as _ <-.
  - intros dir w e w1 q H. now injection H as _ <-.
Qed.

(** On a file system that keeps what is written, the two tokens saved
    by a successful [SaveTokens] are the ones a later [LoadTokens] of the
    same directory returns, provided the two documents have different
    paths and decoding inverts encoding on these tokens. *)
Theorem saved_tokens_load_back
  {World : Type} {RT : Runtime World} {SG : Storage World}
  (dir : string) (t1 : OAuth1Token.t) (t2 : OAuth2Token.t)
  (m m1 : Machine) :
  filesPersist ->
  filepathJoin dir "oauth1_token.json" <> filepathJoin dir "oauth2_token.json" ->
  (forall d, jsonMarshal1 t1 = Ok d -> jsonUnmarshal1 d = Ok t1) ->
  (forall d, jsonMarshal2 t2 = Ok d -> jsonUnmarshal2 d = Ok t2) ->
  SaveTokens dir (Some t1) (Some t2) m = Some (None, m1) ->
  exists m2,
    LoadTokens dir m1 = Some (Ok (t1, t2), m2) /\ client m2 = client m.
Proof.
  intros Hfs Hpaths Hcodec1 Hcodec2 Hsave.
  destruct (SaveTokens_both dir t1 t2 m m1 Hsave)
    as [w0 [d1 [w1 [d2 [w2 [_ [Hm1 [Hw1 [Hm2 [Hw2 ->]]]]]]]]]].
  pose proof Hfs as [Hback [Hframe _]].
  destruct (LoadTokens_reads dir (mkMachine (client m) w2) d1 d2 t1 t2)
    as [m2 [Hload Hc]]; try assumption.
  - cbn [world]. rewrite (Hframe _ _ _ _ _ _ Hw2 Hpaths).
    exact (Hback _ _ _ _ Hw1).
  - cbn [world]. exact (Hback _ _ _ _ Hw2).
  - now apply Hcodec1.
  - now apply Hcodec2.
  - exists m2. split; [exact Hload | exact Hc].
Qed.

Lemma saved_tokens_load_back_witness :
  exists m2,
    LoadTokens "/home/u/.tokens"
      (mkMachine (NewClient "/home/u/.tokens") (mkDrive 0 cachedTokens []))
      = Some (Ok (someOAuth1, someOAuth2), m2) /\
    client m2
    = client (mkMachine (NewClient "/home/u/.tokens") (mkDrive 0 [] [])).
Proof.
  apply (saved_tokens_load_back "/home/u/.tokens" someOAuth1 someOAuth2
           (mkMachine (NewClient "/home/u/.tokens") (mkDrive 0 [] []))
           (mkMachine (NewClient "/home/u/.tokens")
                      (mkDrive 0 cachedTokens []))).
  - exact drive_filesPersist.
  - discriminate.
  - intros d H. injection H as <-. reflexivity.
  - intros d H. injection H as <-. reflexivity.
  - reflexivity.
Defined.

(** Saving only an OAuth2 token, as a refresh does, keeps the OAuth1
    token of the cache: a directory from which [LoadTokens] returned a
    pair of tokens returns, after a successful [SaveTokens] of a new
    OAuth2 token alone, the same OAuth1 token with the new OAuth2 token. *)
Theorem partial_save_keeps_the_first_token
  {World : Type} {RT : Runtime World} {SG : Storage World}
  (dir : string) (t1 : OAuth1Token.t) (t2 t2' : OAuth2Token.t)
  (m m' m1 : Machine) :
  filesPersist ->
  filepathJoin dir "oauth1_token.json" <> filepathJoin dir "oauth2_token.json" ->
  (forall d, jsonMarshal2 t2' = Ok d -> jsonUnmarshal2 d = Ok t2') ->
  LoadTokens dir m = Some (Ok (t1, t2), m') ->
  SaveTokens dir None (Some t2') m = Some (None, m1) ->
  exists m2,
    LoadTokens dir m1 = Some (Ok (t1, t2'), m2) /\ client m2 = client m.
Proof.
  intros Hfs Hpaths Hcodec Hload Hsave.
  destruct (LoadTokens_read dir m m' t1 t2 Hfs Hload)
    as [d1 [d2 [Hr1 [_ [Hu1 _]]]]].
  destruct (SaveTokens_second dir t2' m m1 Hsave)
    as [w0 [d2' [w2 [Hmk [Hm2 [Hw2 ->]]]]]].
  pose proof Hfs as [Hback [Hframe [_ Hdir]]].
  destruct (LoadTokens_reads dir (mkMachine (client m) w2) d1 d2' t1 t2')
    as [m2 [Hload2 Hc]]; try assumption.
  - cbn [world]. rewrite (Hframe _ _ _ _ _ _ Hw2 Hpaths).
    rewrite (Hdir _ _ _ _ _ Hmk). exact Hr1.
  - cbn [world]. exact (Hback _ _ _ _ Hw2).
  - now apply Hcodec.
  - exists m2. split; [exact Hload2 | exact Hc].
Qed.

Lemma partial_save_keeps_the_first_token_witness :
  exists m2,
    LoadTokens "/home/u/.tokens"
      (mkMachine (NewClient "/home/u/.tokens")
         (mkDrive 9 (("/home/u/.tokens/oauth2_token.json"%string,
                      ("2:access"%string, 9)) :: cachedTokens) []))
      = Some (Ok (someOAuth1, someOAuth2At 4600 "access"), m2) /\
    client m2
    = client (mkMachine (NewClient "/home/u/.tokens")
                        (mkDrive 9 cachedTokens [])).
Proof.
  apply (partial_save_keeps_the_first_token "/home/u/.tokens" someOAuth1
           someOAuth2 (someOAuth2At 4600 "access")
           (mkMachine (NewClient "/home/u/.tokens") (mkDrive 9 cachedTokens []))
           (mkMachine (NewClient "/home/u/.tokens") (mkDrive 9 cachedTokens []))
           (mkMachine (NewClient "/home/u/.tokens")
              (mkDrive 9 (("/home/u/.tokens/oauth2_token.json"%string,
                           ("2:access"%string, 9)) :: cachedTokens) []))).
  - exact drive_filesPersist.
  - discriminate.
  - intros d H. injection H as <-. reflexivity.
  - reflexivity.
  - reflexivity.
Defined.

(** [Resume] always returns; it makes no upload and at most one
    refresh, and never writes the token directory of the client.
    Without a token directory, or when the cache cannot be loaded (one
    of the two documents missing or undecodable), it returns an error,
    calls nothing and leaves the tokens and the domain of the client as
    they were. *)
Theorem resume_without_cache_changes_nothing
  {World : Type} {RT : Runtime World} {SG : Storage World} (st : Traced) :
  let c := client (machine st) in
  exists res st1 new,
    Resume st = Some (res, st1) /\
    calls st1 = calls st ++ new /\
    (new = [] \/ exists r, new = [CallRefresh r]) /\
    Client.TokenDir (client (machine st1)) = Client.TokenDir c /\
    (isEmpty (Client.TokenDir c) = true ->
     res = Some "no token directory configured"%string /\ st1 = st) /\
    (forall e m1,
       isEmpty (Client.TokenDir c) = false ->
       LoadTokens (Client.TokenDir c) (machine st) = Some (Err e, m1) ->
       res = Some ("no cached session: " ++ e)%string /\
       client (machine st1) = c /\ new = []).
Proof.
  cbv zeta.
  destruct (Resume_cases st) as [res [st1 [Hrun Hcases]]]. cbv zeta in Hcases.
  exists res, st1.
  destruct Hcases as [[Hdir [Hres Hst]]
                     | [[Hdir [e [m1 [Hload [Hres Hst]]]]]
                       | [Hdir [o1 [o2 [m1 [now [w [Hload [Hclock Hsub]]]]]]]]]].
  - exists []. subst st1. split; [exact Hrun|].
    split; [now rewrite app_nil_r|]. split; [now left|].
    split; [reflexivity|]. split; [now intros _|].
    intros e m1 H. congruence.
  - exists []. split; [exact Hrun|]. subst st1. cbn [calls machine].
    destruct (LoadTokens_effect (Client.TokenDir (client (machine st)))
                (machine st)) as [r [m1' [Hload' Hc]]].
    rewrite Hload in Hload'. injection Hload' as <- <-.
    split; [now rewrite app_nil_r|]. split; [now left|].
    split; [now rewrite Hc|]. split; [intros H; congruence|].
    intros e0 m0 _ H. rewrite Hload in H. injection H as <- <-.
    now repeat split.
  - destruct Hsub as [[Hvalid [Hres Hst]] | [Hexp [r [Hcalls [Hid Hr]]]]].
    + exists []. split; [exact Hrun|]. subst st1. cbn [calls machine client].
      split; [now rewrite app_nil_r|]. split; [now left|].
      split; [reflexivity|]. split; [intros H; congruence|].
      intros e m0 _ H. rewrite Hload in H. discriminate H.
    + exists [CallRefresh r]. split; [exact Hrun|]. split; [exact Hcalls|].
      split; [right; now exists r|].
      destruct Hid as [_ [_ Hdir1]]. cbn [Client.TokenDir] in Hdir1.
      split; [exact Hdir1|]. split; [intros H; congruence|].
      intros e m0 _ H. rewrite Hload in H. discriminate H.
Qed.

Example resume_with_half_a_cache :
  Resume (drive 1000 [("/home/u/.tokens/oauth1_token.json",
                       ("1:token", 0))]%string [])
  = Some (Some "no cached session: load oauth2: no such file or directory"%string,
          drive 1000 [("/home/u/.tokens/oauth1_token.json",
                       ("1:token", 0))]%string []).
Proof. vm_compute. reflexivity. Qed.

(** When [Resume] returns nil, both documents of the cache were loaded
    and the client is authenticated: it holds the cached OAuth1 token,
    the domain of that token when it names one, and its token directory
    as before.  If the cached OAuth2 token had not expired at the time
    read, the client holds that token and nothing was called; otherwise
    exactly one refresh was made, it succeeded, and the client holds the
    freshly stamped token. *)
Theorem resume_success_means_authenticated
  {World : Type} {RT : Runtime World} {SG : Storage World}
  (st st1 : Traced) :
  Resume st = Some (None, st1) ->
  let c := client (machine st) in
  let c1 := client (machine st1) in
  exists oauth1 oauth2 m1 now w,
    LoadTokens (Client.TokenDir c) (machine st)
      = Some (Ok (oauth1, oauth2), m1) /\
    timeNowUnix (world m1) = (now, w) /\
    Client.OAuth1 c1 = Some oauth1 /\
    Client.Domain c1
      = (if negb (isEmpty (OAuth1Token.Domain oauth1))
         then OAuth1Token.Domain oauth1 else Client.Domain c) /\
    Client.TokenDir c1 = Client.TokenDir c /\
    ((now <= OAuth2Token.ExpiresAt oauth2 /\
      calls st1 = calls st /\ Client.OAuth2 c1 = Some oauth2) \/
     (OAuth2Token.ExpiresAt oauth2 < now /\
      calls st1 = calls st ++ [CallRefresh None] /\
      exists tok at_,
        Client.OAuth2 c1 = Some tok /\
        OAuth2Token.ExpiresAt tok
          = wrapS 64 (at_ + OAuth2Token.ExpiresIn tok) /\
        OAuth2Token.RefreshTokenExpiresAt tok
          = wrapS 64 (at_ + OAuth2Token.RefreshTokenExpiresIn tok))).
Proof.
  intros Hrun. cbv zeta.
  destruct (Resume_cases st) as [res [st1' [Hrun' Hcases]]].
  cbv zeta in Hcases. rewrite Hrun in Hrun'. injection Hrun' as <- <-.
  destruct Hcases as [[_ [Hres _]]
                     | [[_ [e [m1 [_ [Hres _]]]]]
                       | [_ [o1 [o2 [m1 [now [w [Hload [Hclock Hsub]]]]]]]]]];
    try discriminate Hres.
  exists o1, o2, m1, now, w. split; [exact Hload|]. split; [exact Hclock|].
  destruct Hsub as [[Hvalid [_ Hst]] | [Hexp [r [Hcalls [Hid Hr]]]]].
  - subst st1. cbn [machine client calls Client.OAuth1 Client.OAuth2
                    Client.Domain Client.TokenDir].
    repeat (split; [reflexivity|]). left. now repeat split.
  - destruct Hid as [Hid1 [Hid2 Hid3]].
    cbn [Client.OAuth1 Client.Domain Client.TokenDir] in Hid1, Hid2, Hid3.
    split; [exact Hid1|]. split; [exact Hid2|]. split; [exact Hid3|].
    right. split; [exact Hexp|].
    destruct r as [e|]; [destruct Hr as [Hres _]; discriminate Hres|].
    destruct Hr as [_ Htok]. split; [exact Hcalls | exact Htok].
Qed.

Lemma resume_success_means_authenticated_witness :
  let st := drive 6000 cachedTokens [answer 200 "consumer"; answer 200 "hour"] in
  let st1 :=
    mkTraced
      (mkMachine
         (Client.mk (Some someOAuth1) (Some (someOAuth2At 9600 "access"))
                    "garmin.com" "/home/u/.tokens")
         (mkDrive 6000
            (("/home/u/.tokens/oauth2_token.json"%string,
              ("2:access"%string, 6000)) :: cachedTokens) []))
      [CallRefresh None] in
  let c := client (machine st) in
  let c1 := client (machine st1) in
  exists oauth1 oauth2 m1 now w,
    LoadTokens (Client.TokenDir c) (machine st)
      = Some (Ok (oauth1, oauth2), m1) /\
    timeNowUnix (world m1) = (now, w) /\
    Client.OAuth1 c1 = Some oauth1 /\
    Client.Domain c1
      = (if negb (isEmpty (OAuth1Token.Domain oauth1))
         then OAuth1Token.Domain oauth1 else Client.Domain c) /\
    Client.TokenDir c1 = Client.TokenDir c /\
    ((now <= OAuth2Token.ExpiresAt oauth2 /\
      calls st1 = calls st /\ Client.OAuth2 c1 = Some oauth2) \/
     (OAuth2Token.ExpiresAt oauth2 < now /\
      calls st1 = calls st ++ [CallRefresh None] /\
      exists tok at_,
        Client.OAuth2 c1 = Some tok /\
        OAuth2Token.ExpiresAt tok
          = wrapS 64 (at_ + OAuth2Token.ExpiresIn tok) /\
        OAuth2Token.RefreshTokenExpiresAt tok
          = wrapS 64 (at_ + OAuth2Token.RefreshTokenExpiresIn tok))).
Proof.
  apply (resume_success_means_authenticated
           (drive 6000 cachedTokens [answer 200 "consumer"; answer 200 "hour"])).
  vm_compute. reflexivity.
Defined.

(** After a [Resume] that returned nil, an upload returns: it is not
    refused as unauthenticated (it makes at least one call), and it
    leaves the client authenticated, so that the next upload can run as
    well. *)
Theorem resumed_client_can_upload
  {World : Type} {RT : Runtime World} {SG : Storage World}
  (path : string) (st st1 : Traced) :
  Resume st = Some (None, st1) ->
  authenticated (client (machine st1)) /\
  exists res st2 new,
    UploadFIT path st1 = Some (res, st2) /\
    calls st2 = calls st1 ++ new /\
    new <> [] /\
    authenticated (client (machine st2)).
Proof.
  intros Hrun.
  assert (Hauth : authenticated (client (machine st1))).
  { destruct (Resume_cases st) as [res [st1' [Hrun' Hcases]]].
    cbv zeta in Hcases. rewrite Hrun in Hrun'. injection Hrun' as <- <-.
    destruct Hcases as [[_ [Hres _]]
                       | [[_ [e [m1 [_ [Hres _]]]]]
                         | [_ [o1 [o2 [m1 [now [w [_ [_ Hsub]]]]]]]]]];
      try discriminate Hres.
    destruct Hsub as [[_ [_ Hst]] | [_ [r [_ [Hid Hr]]]]].
    - subst st1. split; discriminate.
    - destruct Hid as [Hid1 _]. cbn [Client.OAuth1] in Hid1.
      split; [rewrite Hid1; discriminate|].
      destruct r as [e|]; [destruct Hr as [Hres _]; discriminate Hres|].
      destruct Hr as [_ [tok [at_ [Htok _]]]]. rewrite Htok. discriminate. }
  split; [exact Hauth|].
  destruct (UploadFIT_calls path st1 Hauth) as [res [st2 [new [Hup [Hc Hne]]]]].
  exists res, st2, new. split; [exact Hup|]. split; [exact Hc|].
  split; [exact Hne|].
  destruct (UploadFIT_client path st1 (proj1 Hauth))
    as [res' [st2' [Hup' [[Hid1 _] [Hkeep _]]]]].
  rewrite Hup in Hup'. injection Hup' as <- <-.
  split; [rewrite Hid1; exact (proj1 Hauth) | exact (Hkeep (proj2 Hauth))].
Qed.

Lemma resumed_client_can_upload_witness :
  let st1 :=
    mkTraced
      (mkMachine
         (Client.mk (Some someOAuth1) (Some someOAuth2)
                    "garmin.com" "/home/u/.tokens")
         (mkDrive 1000 cachedTokens [answer 200 "{}"])) [] in
  authenticated (client (machine st1)) /\
  exists res st2 new,
    UploadFIT "/tmp/a.fit" st1 = Some (res, st2) /\
    calls st2 = calls st1 ++ new /\
    new <> [] /\
    authenticated (client (machine st2)).
Proof.
  apply (resumed_client_can_upload "/tmp/a.fit"
           (drive 1000 cachedTokens [answer 200 "{}"])).
  vm_compute. reflexivity.
Defined.
